(** * Asset-transfer chaincode: a shallow embedding and its properties

    The development follows [chaincode-javascript/lib/assetTransfer.js]:
    the JavaScript values the contract builds and parses, the two
    serialisers it calls, the world state behind [ctx.stub], and the eight
    transaction functions of the [AssetTransfer] contract.

    Conventions of the model.
    - A JavaScript string is a [string]: a sequence of code units in the
      range 0..255.  On such strings [Buffer.from(s).toString()] is the
      identity, so a stored buffer and its text are the same object.
    - A JavaScript number is an integer [Z]; the only numbers the contract
      ever builds are the integer prices of [InitLedger].
    - An object is the list of its own properties in property order. *)

From Stdlib Require Import ZArith Ascii String List Decimal DecimalFacts
  DecimalPos DecimalZ.
From stdpp Require Import base tactics option list sorting gmap strings.

#[local] Arguments String.append : simpl nomatch.

(** ** JavaScript values *)

#[local] Unset Elimination Schemes.
Inductive json : Type :=
| JUndefined
| JNull
| JBool (b : bool)
| JNum (n : Z)
| JStr (s : string)
| JArr (xs : list json)
| JObj (fs : list (string * json)).
#[local] Set Elimination Schemes.

Abbreviation fields := (list (string * json)).

(** Structural induction that also reaches the values stored in arrays and
    objects. *)
Section json_induction.
Variable P : json → Prop.
Hypothesis Hundef : P JUndefined.
Hypothesis Hnull : P JNull.
Hypothesis Hbool : ∀ b, P (JBool b).
Hypothesis Hnum : ∀ n, P (JNum n).
Hypothesis Hstr : ∀ s, P (JStr s).
Hypothesis Harr : ∀ xs, Forall P xs → P (JArr xs).
Hypothesis Hobj : ∀ fs, Forall (λ kv, P kv.2) fs → P (JObj fs).

Fixpoint json_ind_deep (v : json) : P v :=
  match v with
  | JUndefined => Hundef
  | JNull => Hnull
  | JBool b => Hbool b
  | JNum n => Hnum n
  | JStr s => Hstr s
  | JArr xs =>
      Harr xs ((fix go (l : list json) : Forall P l :=
                  match l with
                  | [] => Forall_nil_2 P
                  | x :: l' => Forall_cons_2 P x l' (json_ind_deep x) (go l')
                  end) xs)
  | JObj fs =>
      Hobj fs ((fix go (l : fields) : Forall (λ kv, P kv.2) l :=
                  match l with
                  | [] => Forall_nil_2 _
                  | kv :: l' =>
                      Forall_cons_2 (λ kv, P kv.2) kv l'
                        (json_ind_deep kv.2) (go l')
                  end) fs)
  end.
End json_induction.

(** *** Property access *)

(** [o[k]] on an object: the value of the own property, or [undefined]. *)
Fixpoint obj_get (k : string) (fs : fields) : json :=
  match fs with
  | [] => JUndefined
  | (k', v) :: fs' => if decide (k' = k) then v else obj_get k fs'
  end.

(** [o[k] = v] on an object: an existing property keeps its position, a
    new one is added last. *)
Fixpoint obj_set (k : string) (v : json) (fs : fields) : fields :=
  match fs with
  | [] => [(k, v)]
  | (k', v') :: fs' =>
      if decide (k' = k) then (k, v) :: fs' else (k', v') :: obj_set k v fs'
  end.

(** ** Key order and the two library functions

    Keys are compared as [Array.prototype.sort] does without a comparator:
    code unit by code unit, a proper prefix first.  This is [String.le]. *)

Definition key_le {V : Type} (p q : string * V) : Prop := String.le p.1 q.1.

#[local] Instance key_le_dec {V} : RelDecision (@key_le V).
Proof. intros p q. unfold key_le. apply _. Defined.

Definition sort_keys (fs : fields) : fields := merge_sort key_le fs.

(** Modelled from the spec: the npm package [sort-keys-recursive] is not
    part of the repository.  Section 4.1 of the specification: "Recursively
    sort all mapping keys at every nesting level in ascending
    lexicographic order".  The result is a new value; the argument is not
    changed. *)
Fixpoint sortKeysRecursive (v : json) : json :=
  match v with
  | JArr xs => JArr (map sortKeysRecursive xs)
  | JObj fs =>
      JObj (sort_keys (map (λ kv, (kv.1, sortKeysRecursive kv.2)) fs))
  | _ => v
  end.

(** ** [JSON.stringify]

    The characters [JSON.stringify] writes inside a string literal: the
    quote and the backslash are escaped, a control character below 0x20 is
    written with its short escape or as [\u00XX], every other code unit is
    copied. *)

Definition dquote : ascii := "034"%char.
Definition backslash : ascii := "092"%char.

Definition hex_digit (n : N) : ascii :=
  match n with
  | 0 => "0" | 1 => "1" | 2 => "2" | 3 => "3" | 4 => "4" | 5 => "5"
  | 6 => "6" | 7 => "7" | 8 => "8" | 9 => "9" | 10 => "a" | 11 => "b"
  | 12 => "c" | 13 => "d" | 14 => "e" | _ => "f"
  end%N%char.

Definition escape_char (c : ascii) : string :=
  match c with
  | "034" => String backslash (String dquote "")
  | "092" => String backslash (String backslash "")
  | "008" => String backslash "b"
  | "012" => String backslash "f"
  | "010" => String backslash "n"
  | "013" => String backslash "r"
  | "009" => String backslash "t"
  | _ =>
      let n := N_of_ascii c in
      if (n <? 32)%N
      then String backslash
             (String "u" (String "0" (String "0"
                (String (hex_digit (n / 16)) (String (hex_digit (n mod 16)) "")))))
      else String c ""
  end%char.

Fixpoint escape (s : string) : string :=
  match s with
  | "" => ""
  | String c s' => escape_char c +:+ escape s'
  end.

Definition quote (s : string) : string :=
  String dquote (escape s +:+ String dquote "").

(** Decimal digits of an integer, most significant first. *)
Fixpoint string_of_uint (u : uint) : string :=
  match u with
  | Nil => ""
  | D0 u' => String "0" (string_of_uint u')
  | D1 u' => String "1" (string_of_uint u')
  | D2 u' => String "2" (string_of_uint u')
  | D3 u' => String "3" (string_of_uint u')
  | D4 u' => String "4" (string_of_uint u')
  | D5 u' => String "5" (string_of_uint u')
  | D6 u' => String "6" (string_of_uint u')
  | D7 u' => String "7" (string_of_uint u')
  | D8 u' => String "8" (string_of_uint u')
  | D9 u' => String "9" (string_of_uint u')
  end.

Definition string_of_Z (n : Z) : string :=
  match Z.to_int n with
  | Decimal.Pos u => string_of_uint u
  | Decimal.Neg u => String "-" (string_of_uint u)
  end.

(** [JSON.stringify(v)] with no replacer and no indentation.  The result is
    [None] where JavaScript yields [undefined]; a property whose value is
    [undefined] is left out of an object, and an [undefined] array element
    is written [null]. *)
Fixpoint JSON_stringify (v : json) : option string :=
  match v with
  | JUndefined => None
  | JNull => Some "null"
  | JBool b => Some (if b then "true" else "false")
  | JNum n => Some (string_of_Z n)
  | JStr s => Some (quote s)
  | JArr xs =>
      Some ("[" +:+ String.concat ","
                      (map (λ x, default "null" (JSON_stringify x)) xs) +:+ "]")
  | JObj fs =>
      Some ("{" +:+ String.concat ","
                      (omap (λ kv, (λ t, quote kv.1 +:+ ":" +:+ t)
                                     <$> JSON_stringify kv.2) fs) +:+ "}")
  end.

(** Modelled from the spec: the npm package [json-stringify-deterministic]
    is not part of the repository.  The source imports it as "Deterministic
    JSON.stringify()", and section 4.1 of the specification asks for "a
    stable, whitespace-free structured-text encoding where field order in
    the output exactly matches the sorted key order": it is
    [JSON.stringify] with the keys of every object written in ascending
    order. *)
Definition stringify (v : json) : option string :=
  JSON_stringify (sortKeysRecursive v).

(** ** [JSON.parse]

    A recursive-descent reader of the JSON grammar: white space between
    tokens, the three literals, integers, strings with their escapes,
    arrays and objects.  [None] stands for the [SyntaxError] that
    [JSON.parse] throws.  Two forms lie outside the value domain of the
    model and are rejected as well: a number with a fraction or an exponent,
    and a [\uXXXX] escape of a code unit above 255.  The contract writes
    neither. *)

Definition is_ws (c : ascii) : bool :=
  match c with
  | " " | "009" | "010" | "013" => true
  | _ => false
  end%char.

Fixpoint skip_ws (s : string) : string :=
  match s with
  | String c r => if is_ws c then skip_ws r else s
  | "" => ""
  end.

(** [expect p s]: the rest of [s] after the prefix [p]. *)
Fixpoint expect (p s : string) : option string :=
  match p, s with
  | "", _ => Some s
  | String a p', String b s' => if Ascii.eqb a b then expect p' s' else None
  | String _ _, "" => None
  end.

Definition hex_val (c : ascii) : option N :=
  let n := N_of_ascii c in
  if (48 <=? n)%N && (n <=? 57)%N then Some (n - 48)%N
  else if (97 <=? n)%N && (n <=? 102)%N then Some (n - 87)%N
  else if (65 <=? n)%N && (n <=? 70)%N then Some (n - 55)%N
  else None.

Definition unicode_escape (h1 h2 h3 h4 : ascii) : option ascii :=
  a ← hex_val h1; b ← hex_val h2; c ← hex_val h3; d ← hex_val h4;
  let code := (((a * 16 + b) * 16 + c) * 16 + d)%N in
  if (code <? 256)%N then Some (ascii_of_N code) else None.

(** The characters of a string literal after its opening quote, up to and
    including the closing quote. *)
Fixpoint parse_string_body (s : string) : option (string * string) :=
  match s with
  | "" => None
  | String c r =>
      if Ascii.eqb c dquote then Some ("", r)
      else if Ascii.eqb c backslash then
        match r with
        | String e r' =>
            let continue (x : ascii) (t : string) :=
              prod_map (String x) id <$> parse_string_body t in
            match e with
            | "034" | "092" | "/" => continue e r'
            | "b" => continue "008" r'
            | "f" => continue "012" r'
            | "n" => continue "010" r'
            | "r" => continue "013" r'
            | "t" => continue "009" r'
            | "u" =>
                match r' with
                | String h1 (String h2 (String h3 (String h4 r''))) =>
                    x ← unicode_escape h1 h2 h3 h4; continue x r''
                | _ => None
                end
            | _ => None
            end%char
        | "" => None
        end
      else if (N_of_ascii c <? 32)%N then None
      else prod_map (String c) id <$> parse_string_body r
  end.

Definition digit_of (c : ascii) : option (uint → uint) :=
  match c with
  | "0" => Some D0 | "1" => Some D1 | "2" => Some D2 | "3" => Some D3
  | "4" => Some D4 | "5" => Some D5 | "6" => Some D6 | "7" => Some D7
  | "8" => Some D8 | "9" => Some D9 | _ => None
  end%char.

(** The longest run of decimal digits at the head of [s]. *)
Fixpoint read_digits (s : string) : uint * string :=
  match s with
  | "" => (Nil, "")
  | String c r =>
      match digit_of c with
      | Some d => prod_map d id (read_digits r)
      | None => (Nil, s)
      end
  end.

Definition starts_fraction (s : string) : bool :=
  match s with
  | String c _ => Ascii.eqb c "." || Ascii.eqb c "e" || Ascii.eqb c "E"
  | "" => false
  end.

(** An integer literal: an optional minus sign, then [0] or a digit run
    without a leading zero. *)
Definition parse_number (s : string) : option (json * string) :=
  let '(neg, s1) :=
    match s with
    | String "-" r => (true, r)
    | _ => (false, s)
    end in
  let '(u, r) := read_digits s1 in
  let ok :=
    match u with
    | Nil => false
    | D0 Nil => true
    | D0 _ => false
    | _ => true
    end in
  if ok && negb (starts_fraction r)
  then Some (JNum (Z.of_int (if neg then Decimal.Neg u else Decimal.Pos u)), r)
  else None.

(** The elements of an array after the first has been announced; [pv]
    reads one value. *)
Fixpoint parse_elements (pv : string → option (json * string)) (n : nat)
    (acc : list json) (s : string) : option (json * string) :=
  match n with
  | O => None
  | S n' =>
      '(v, r) ← pv s;
      match skip_ws r with
      | String "," r' => parse_elements pv n' (acc ++ [v]) r'
      | String "]" r' => Some (JArr (acc ++ [v]), r')
      | _ => None
      end
  end.

(** The members of an object.  A repeated key overwrites the earlier value
    and keeps its place, as property assignment does. *)
Fixpoint parse_members (pv : string → option (json * string)) (n : nat)
    (acc : fields) (s : string) : option (json * string) :=
  match n with
  | O => None
  | S n' =>
      match skip_ws s with
      | String c r =>
          if Ascii.eqb c dquote then
            '(k, r1) ← parse_string_body r;
            r2 ← expect ":" (skip_ws r1);
            '(v, r3) ← pv r2;
            match skip_ws r3 with
            | String "," r' => parse_members pv n' (obj_set k v acc) r'
            | String "}" r' => Some (JObj (obj_set k v acc), r')
            | _ => None
            end
          else None
      | "" => None
      end
  end.

Fixpoint parse_value (fuel : nat) (s : string) : option (json * string) :=
  match fuel with
  | O => None
  | S fuel' =>
      match skip_ws s with
      | "" => None
      | String c r =>
          match c with
          | "n" => pair JNull <$> expect "ull" r
          | "t" => pair (JBool true) <$> expect "rue" r
          | "f" => pair (JBool false) <$> expect "alse" r
          | "034" => prod_map JStr id <$> parse_string_body r
          | "[" =>
              match skip_ws r with
              | String "]" r' => Some (JArr [], r')
              | _ => parse_elements (parse_value fuel') fuel' [] r
              end
          | "{" =>
              match skip_ws r with
              | String "}" r' => Some (JObj [], r')
              | _ => parse_members (parse_value fuel') fuel' [] r
              end
          | _ => parse_number (String c r)
          end%char
      end
  end.

(** [JSON.parse(text)]: one value, then nothing but white space.  A value
    of [n] characters nests and branches fewer than [n] times, so the
    length of the text is fuel enough. *)
Definition JSON_parse (text : string) : option json :=
  '(v, r) ← parse_value (String.length text) text;
  match skip_ws r with
  | "" => Some v
  | _ => None
  end.

(** ** The JSON grammar

    A recogniser of the whole grammar that [JSON.parse] accepts: white
    space between tokens, the three literals, numbers with their optional
    fraction and exponent, strings with every escape, arrays and objects.
    Text it rejects makes [JSON.parse] throw a [SyntaxError]; text it
    accepts and the reader above rejects is JSON text outside the value
    domain of the model. *)

Definition is_digit (c : ascii) : bool :=
  match digit_of c with Some _ => true | None => false end.

Definition is_hex (c : ascii) : bool :=
  match hex_val c with Some _ => true | None => false end.

(** The rest of a string literal after its closing quote. *)
Fixpoint skip_string_body (s : string) : option string :=
  match s with
  | "" => None
  | String c r =>
      if Ascii.eqb c dquote then Some r
      else if Ascii.eqb c backslash then
        match r with
        | String e r' =>
            match e with
            | "034" | "092" | "/" | "b" | "f" | "n" | "r" | "t" =>
                skip_string_body r'
            | "u" =>
                match r' with
                | String h1 (String h2 (String h3 (String h4 r''))) =>
                    if is_hex h1 && is_hex h2 && is_hex h3 && is_hex h4
                    then skip_string_body r'' else None
                | _ => None
                end
            | _ => None
            end%char
        | "" => None
        end
      else if (N_of_ascii c <? 32)%N then None
      else skip_string_body r
  end.

Fixpoint skip_digits (s : string) : string :=
  match s with
  | String c r => if is_digit c then skip_digits r else s
  | "" => ""
  end.

(** One digit at least. *)
Definition skip_digits1 (s : string) : option string :=
  match s with
  | String c r => if is_digit c then Some (skip_digits r) else None
  | "" => None
  end.

(** A number: an optional minus sign, [0] or a digit run without a leading
    zero, an optional fraction, an optional exponent. *)
Definition skip_number (s : string) : option string :=
  let s1 := match s with String "-" r => r | _ => s end in
  r1 ← match s1 with
       | String "0" r => Some r
       | _ => skip_digits1 s1
       end;
  r2 ← match r1 with
       | String "." r => skip_digits1 r
       | _ => Some r1
       end;
  match r2 with
  | String c r =>
      if Ascii.eqb c "e" || Ascii.eqb c "E" then
        match r with
        | String sign r' =>
            if Ascii.eqb sign "+" || Ascii.eqb sign "-"
            then skip_digits1 r' else skip_digits1 r
        | "" => None
        end
      else Some r2
  | "" => Some r2
  end.

Fixpoint skip_elements (sv : string → option string) (n : nat) (s : string)
    : option string :=
  match n with
  | O => None
  | S n' =>
      r ← sv s;
      match skip_ws r with
      | String "," r' => skip_elements sv n' r'
      | String "]" r' => Some r'
      | _ => None
      end
  end.

Fixpoint skip_members (sv : string → option string) (n : nat) (s : string)
    : option string :=
  match n with
  | O => None
  | S n' =>
      match skip_ws s with
      | String c r =>
          if Ascii.eqb c dquote then
            r1 ← skip_string_body r;
            r2 ← expect ":" (skip_ws r1);
            r3 ← sv r2;
            match skip_ws r3 with
            | String "," r' => skip_members sv n' r'
            | String "}" r' => Some r'
            | _ => None
            end
          else None
      | "" => None
      end
  end.

Fixpoint skip_value (fuel : nat) (s : string) : option string :=
  match fuel with
  | O => None
  | S fuel' =>
      match skip_ws s with
      | "" => None
      | String c r =>
          match c with
          | "n" => expect "ull" r
          | "t" => expect "rue" r
          | "f" => expect "alse" r
          | "034" => skip_string_body r
          | "[" =>
              match skip_ws r with
              | String "]" r' => Some r'
              | _ => skip_elements (skip_value fuel') fuel' r
              end
          | "{" =>
              match skip_ws r with
              | String "}" r' => Some r'
              | _ => skip_members (skip_value fuel') fuel' r
              end
          | _ => skip_number (String c r)
          end%char
      end
  end.

(** [text] is JSON text: one value, then nothing but white space.  As for
    the reader, the length of the text is fuel enough. *)
Definition is_JSON (text : string) : bool :=
  match skip_value (String.length text) text with
  | Some r => match skip_ws r with "" => true | _ => false end
  | None => false
  end.

(** Text on which the reader [JSON_parse] does what [JSON.parse] does: it
    reads the text, or the text is not JSON. *)
Definition modelled (text : string) : bool :=
  match JSON_parse text with
  | Some _ => true
  | None => negb (is_JSON text)
  end.

(** ** The world state and the transaction monad

    [ctx.stub] reads and writes a key-value store.  A transaction function
    is a state transformer over that store which either returns or throws;
    the store it leaves behind holds the writes made before the throw.
    Every function below reads before it writes, so running one function
    after another on the resulting store is the committed sequence of
    transactions. *)

Abbreviation world := (gmap string string).

Inductive exn : Type :=
| Error (msg : string)
| SyntaxError
| TypeError.

Inductive outcome (A : Type) : Type :=
| Return (a : A)
| Throw (e : exn).
Arguments Return {A} a.
Arguments Throw {A} e.

Definition tx (A : Type) : Type := world → outcome A * world.

#[local] Instance tx_ret : MRet tx := λ A a st, (Return a, st).
#[local] Instance tx_bind : MBind tx := λ A B f m st,
  match m st with
  | (Return a, st') => f a st'
  | (Throw e, st') => (Throw e, st')
  end.

Definition throw {A : Type} (e : exn) : tx A := λ st, (Throw e, st).

(** The messages of the two errors the contract raises itself. *)
Definition AlreadyExists (id : string) : exn :=
  Error ("The asset " +:+ id +:+ " already exists").
Definition NotFound (id : string) : exn :=
  Error ("The asset " +:+ id +:+ " does not exist").

(** *** The stub *)

(** [getState] yields an empty buffer for a key that holds nothing. *)
Definition getState (key : string) : tx string :=
  λ st, (Return (default "" (st !! key)), st).

Definition putState (key value : string) : tx unit :=
  λ st, (Return (), <[key := value]> st).

Definition deleteState (key : string) : tx unit :=
  λ st, (Return (), delete key st).

(** [getStateByRange(startKey, endKey)]: the entries with
    [startKey <= key < endKey] in ascending key order; an empty [endKey]
    leaves the range open. *)
Definition in_range (startKey endKey key : string) : bool :=
  String.leb startKey key &&
  (String.eqb endKey "" || String.ltb key endKey).

Definition getStateByRange (startKey endKey : string)
  : tx (list (string * string)) :=
  λ st, (Return (filter (λ kv, in_range startKey endKey kv.1 = true)
                   (merge_sort key_le (map_to_list st))), st).

(** *** JavaScript operations that can throw *)

(** [Buffer.from(x)] rejects [undefined]. *)
Definition Buffer_from (x : option string) : tx string :=
  match x with
  | Some s => mret s
  | None => throw TypeError
  end.

Definition JSON_parse_or_throw (text : string) : tx json :=
  match JSON_parse text with
  | Some v => mret v
  | None => throw SyntaxError
  end.

(** [v[k]]: a [TypeError] on [null] and [undefined], [undefined] on the
    other values that are not objects. *)
Definition get_prop (v : json) (k : string) : tx json :=
  match v with
  | JNull | JUndefined => throw TypeError
  | JObj fs => mret (obj_get k fs)
  | _ => mret JUndefined
  end.

(** [v[k] = x] in strict mode: a [TypeError] on everything that is not an
    object.  A named property given to an array is not among its elements
    and no serialiser writes it. *)
Definition set_prop (v : json) (k : string) (x : json) : tx json :=
  match v with
  | JObj fs => mret (JObj (obj_set k x fs))
  | JArr xs => mret (JArr xs)
  | _ => throw TypeError
  end.

(** A world-state key has to be a string. *)
Definition key_of (v : json) : tx string :=
  match v with
  | JStr s => mret s
  | _ => throw TypeError
  end.

(** ** The contract [AssetTransfer] *)

Definition seed (id flavor size client cone : string) (value : Z) : fields :=
  [("ID", JStr id); ("Flavor", JStr flavor); ("Size", JStr size);
   ("Client", JStr client); ("Cone", JStr cone); ("Value", JNum value)].

Definition assets : list fields :=
  [ seed "icecream1" "chocolate" "medium" "Paola" "sugar" 10000;
    seed "icecream2" "vanilla" "small" "Martha" "waffle" 6000;
    seed "icecream3" "mint" "big" "Anna" "cake" 15000;
    seed "icecream4" "strawberry" "big" "Pablo" "waffle" 15000;
    seed "icecream5" "vanilla" "medium" "Manuel" "cake" 10000;
    seed "icecream6" "chocolate" "small" "Augusto" "sugar" 6000;
    seed "icecream7" "mint" "big" "Victoria" "waffle" 15000;
    seed "icecream8" "vanilla" "small" "Sandra" "cake" 6000;
    seed "icecream9" "brownie" "medium" "Hector" "cake" 10000 ].

(** The body of [for (const asset of assets)]. *)
Fixpoint InitLedger_loop (todo : list fields) : tx unit :=
  match todo with
  | [] => mret ()
  | asset :: todo' =>
      let asset := obj_set "docType" (JStr "asset") asset in
      id ← key_of (obj_get "ID" asset);
      buffer ← Buffer_from (stringify (sortKeysRecursive (JObj asset)));
      putState id buffer;;
      InitLedger_loop todo'
  end.

Definition InitLedger : tx unit := InitLedger_loop assets.

Definition AssetExists (id : string) : tx bool :=
  assetJSON ← getState id;
  mret (0 <? String.length assetJSON)%nat.

Definition CreateAsset (id flavor size client cone value : string)
  : tx (option string) :=
  exists_ ← AssetExists id;
  if exists_ : bool then throw (AlreadyExists id)
  else
    let asset :=
      JObj [("ID", JStr id); ("Flavor", JStr flavor); ("Size", JStr size);
            ("Client", JStr client); ("Cone", JStr cone);
            ("Value", JStr value)] in
    buffer ← Buffer_from (stringify (sortKeysRecursive asset));
    putState id buffer;;
    mret (JSON_stringify asset).

Definition ReadAsset (id : string) : tx string :=
  assetJSON ← getState id;
  if (String.length assetJSON =? 0)%nat then throw (NotFound id)
  else mret assetJSON.

Definition UpdateAsset (id flavor : string) : tx unit :=
  exists_ ← AssetExists id;
  if negb exists_ then throw (NotFound id)
  else
    assetString ← ReadAsset id;
    asset ← JSON_parse_or_throw assetString;
    size ← get_prop asset "Size";
    client ← get_prop asset "Client";
    cone ← get_prop asset "Cone";
    value ← get_prop asset "Value";
    let updatedAsset :=
      JObj [("ID", JStr id); ("Flavor", JStr flavor); ("Size", size);
            ("Client", client); ("Cone", cone); ("Value", value)] in
    buffer ← Buffer_from (stringify (sortKeysRecursive updatedAsset));
    putState id buffer.

Definition DeleteAsset (id : string) : tx unit :=
  exists_ ← AssetExists id;
  if negb exists_ then throw (NotFound id)
  else deleteState id.

Definition TransferAsset (id newOwner : string) : tx json :=
  assetString ← ReadAsset id;
  asset ← JSON_parse_or_throw assetString;
  oldOwner ← get_prop asset "Client";
  asset ← set_prop asset "Client" (JStr newOwner);
  buffer ← Buffer_from (stringify (sortKeysRecursive asset));
  putState id buffer;;
  mret oldOwner.

(** The [while (!result.done)] loop over the range iterator. *)
Fixpoint GetAllAssets_loop (iterator : list (string * string))
    (allResults : list json) : list json :=
  match iterator with
  | [] => allResults
  | result :: iterator' =>
      let strValue := result.2 in
      let record :=
        match JSON_parse strValue with
        | Some parsed => parsed
        | None => JStr strValue
        end in
      GetAllAssets_loop iterator' (allResults ++ [record])
  end.

Definition GetAllAssets : tx (option string) :=
  iterator ← getStateByRange "" "";
  mret (JSON_stringify (JArr (GetAllAssets_loop iterator []))).

(** ** Notions used in the statements *)

(** The canonical encoding every write path persists. *)
Definition encode (v : json) : option string :=
  stringify (sortKeysRecursive v).

(** Two values are the same record when they differ only in the order in
    which the properties of their objects were inserted. *)
#[local] Unset Elimination Schemes.
Inductive same_value : json → json → Prop :=
| same_refl v : same_value v v
| same_arr xs ys :
    Forall2 same_value xs ys → same_value (JArr xs) (JArr ys)
| same_obj fs gs hs :
    Forall2 (λ p q, p.1 = q.1 ∧ same_value p.2 q.2) fs gs →
    gs ≡ₚ hs → NoDup fs.*1 →
    same_value (JObj fs) (JObj hs).
#[local] Set Elimination Schemes.

(** The objects of a value, at every depth, have no repeated key. *)
Fixpoint unique_keys (v : json) : bool :=
  match v with
  | JArr xs => forallb unique_keys xs
  | JObj fs =>
      bool_decide (NoDup fs.*1) && forallb (λ kv, unique_keys kv.2) fs
  | _ => true
  end.

(** What JSON text keeps of a value: a property that holds [undefined]
    is dropped and an [undefined] array element becomes [null]. *)
Fixpoint prune (v : json) : json :=
  match v with
  | JArr xs =>
      JArr (map (λ x, match x with JUndefined => JNull | _ => prune x end) xs)
  | JObj fs =>
      JObj (omap (λ kv, match kv.2 with
                        | JUndefined => None
                        | _ => Some (kv.1, prune kv.2)
                        end) fs)
  | _ => v
  end.

(** No [undefined] occurs in a value, itself included. *)
Fixpoint defined (v : json) : bool :=
  match v with
  | JUndefined => false
  | JArr xs => forallb defined xs
  | JObj fs => forallb (λ kv, defined kv.2) fs
  | _ => true
  end.

(** The values JSON text can denote. *)
Definition is_data (v : json) : bool := unique_keys v && defined v.

(** The text after a value inside an array or an object, or the end. *)
Definition delimited (rest : string) : Prop :=
  match rest with
  | "" => True
  | String c _ => c = ","%char ∨ c = "]"%char ∨ c = "}"%char
  end.

(** The text and the value of one array element and of one object member
    as [JSON.stringify] writes them and [JSON.parse] reads them back. *)
Definition elem_text (x : json) : string := default "null" (JSON_stringify x).
Definition elem_value (x : json) : json :=
  match x with JUndefined => JNull | _ => prune x end.
Definition member_text (kv : string * json) : option string :=
  (λ t, quote kv.1 +:+ ":" +:+ t) <$> JSON_stringify kv.2.
Definition member_value (kv : string * json) : option (string * json) :=
  match kv.2 with JUndefined => None | _ => Some (kv.1, prune kv.2) end.

(** A first character that opens a value. *)
Definition value_start (s : string) : bool :=
  match s with
  | String c _ =>
      negb (is_ws c) && negb (Ascii.eqb c "]") && negb (Ascii.eqb c "}")
  | "" => false
  end.

(** The record [CreateAsset] builds from its arguments. *)
Definition created_asset (id flavor size client cone value : string) : json :=
  JObj [("ID", JStr id); ("Flavor", JStr flavor); ("Size", JStr size);
        ("Client", JStr client); ("Cone", JStr cone); ("Value", JStr value)].

(** The record [UpdateAsset] builds from the stored one. *)
Definition updated_asset (id flavor : string) (old : fields) : json :=
  JObj [("ID", JStr id); ("Flavor", JStr flavor); ("Size", obj_get "Size" old);
        ("Client", obj_get "Client" old); ("Cone", obj_get "Cone" old);
        ("Value", obj_get "Value" old)].

(** What [GetAllAssets] puts in its result for one stored payload. *)
Definition record_of (strValue : string) : json :=
  match JSON_parse strValue with
  | Some parsed => parsed
  | None => JStr strValue
  end.

(** The entries an open-ended range query visits, in the order it visits
    them. *)
Definition scan (st : world) : list (string * string) :=
  merge_sort key_le (map_to_list st).

(** What [getState] answers for a key. *)
Definition stored (st : world) (id : string) : string :=
  default "" (st !! id).

(** The world state after [InitLedger] on an empty ledger. *)
Definition seeded : world := (InitLedger ∅).2.

(** A field of a decoded record; [undefined] when there is none. *)
Definition field (k : string) (record : json) : json :=
  match record with
  | JObj fs => obj_get k fs
  | _ => JUndefined
  end.

(** *** Ledgers the contract can produce *)

(** One invocation of the contract. *)
Inductive call : Type :=
| Call_InitLedger
| Call_CreateAsset (id flavor size client cone value : string)
| Call_ReadAsset (id : string)
| Call_UpdateAsset (id flavor : string)
| Call_DeleteAsset (id : string)
| Call_AssetExists (id : string)
| Call_TransferAsset (id newOwner : string)
| Call_GetAllAssets.

(** A transaction that throws is not committed. *)
Definition commit {A : Type} (m : tx A) (st : world) : world :=
  match m st with
  | (Return _, st') => st'
  | (Throw _, _) => st
  end.

Definition submit (c : call) : world → world :=
  match c with
  | Call_InitLedger => commit InitLedger
  | Call_CreateAsset id flavor size client cone value =>
      commit (CreateAsset id flavor size client cone value)
  | Call_ReadAsset id => commit (ReadAsset id)
  | Call_UpdateAsset id flavor => commit (UpdateAsset id flavor)
  | Call_DeleteAsset id => commit (DeleteAsset id)
  | Call_AssetExists id => commit (AssetExists id)
  | Call_TransferAsset id newOwner => commit (TransferAsset id newOwner)
  | Call_GetAllAssets => commit GetAllAssets
  end.

(** The world state after a history of invocations, oldest first. *)
Fixpoint ledger_after (history : list call) (st : world) : world :=
  match history with
  | [] => st
  | c :: history' => ledger_after history' (submit c st)
  end.

Definition asset_fields : list string :=
  ["ID"; "Flavor"; "Size"; "Client"; "Cone"; "Value"].

(** A payload that decodes to an object with the six asset fields and is
    the canonical encoding of that object. *)
Definition asset_payload (text : string) : Prop :=
  ∃ fs, JSON_parse text = Some (JObj fs)
        ∧ encode (JObj fs) = Some text
        ∧ ∀ k, k ∈ asset_fields → obj_get k fs ≠ JUndefined.

Definition ledger_ok (st : world) : Prop :=
  ∀ id text, st !! id = Some text → asset_payload text.

(** The record that reads back from what [InitLedger] stores for a row of
    its table. *)
Definition stored_seed (id flavor size client cone : string) (value : Z)
    : json :=
  JObj [("Client", JStr client); ("Cone", JStr cone);
        ("Flavor", JStr flavor); ("ID", JStr id); ("Size", JStr size);
        ("Value", JNum value); ("docType", JStr "asset")].

(** *** The shape of an asset record *)

Definition is_text (v : json) : bool :=
  match v with JStr _ => true | _ => false end.

Definition is_amount (v : json) : bool :=
  match v with JStr _ | JNum _ => true | _ => false end.

(** A member the record stored at key [id] may have: [ID] is the key,
    [Flavor], [Size], [Client] and [Cone] are strings, [Value] is a string
    or a number, and [docType] is ["asset"]. *)
Definition asset_member (id : string) (kv : string * json) : bool :=
  if decide (kv.1 = "ID") then
    match kv.2 with JStr s => bool_decide (s = id) | _ => false end
  else if decide (kv.1 ∈ ["Flavor"; "Size"; "Client"; "Cone"]) then
    is_text kv.2
  else if decide (kv.1 = "Value") then is_amount kv.2
  else if decide (kv.1 = "docType") then
    match kv.2 with JStr s => bool_decide (s = "asset") | _ => false end
  else false.

(** An asset record of key [id]: every member is one of these, and the six
    asset fields are there. *)
Definition asset_record (id : string) (fs : fields) : bool :=
  forallb (asset_member id) fs
  && forallb (λ k, bool_decide (k ∈ fs.*1)) asset_fields.

Definition ledger_schema (st : world) : Prop :=
  ∀ id text, st !! id = Some text →
    ∃ fs, JSON_parse text = Some (JObj fs)
          ∧ encode (JObj fs) = Some text
          ∧ asset_record id fs = true.

(** ** The client application's [prettyJSONString]

    [JSON.stringify(value, null, 2)]: every element of a non-empty array
    and every member of a non-empty object is written on a line of its
    own, indented by two more spaces than the line that opens it, and a
    colon is followed by a space. *)

Definition newline : string := String "010" "".
Definition gap : string := "  ".

Fixpoint JSON_stringify_indent (indent : string) (v : json) : option string :=
  match v with
  | JArr xs =>
      let inner := indent +:+ gap in
      match map (λ x, default "null" (JSON_stringify_indent inner x)) xs with
      | [] => Some "[]"
      | partial =>
          Some ("[" +:+ newline +:+ inner
                +:+ String.concat ("," +:+ newline +:+ inner) partial
                +:+ newline +:+ indent +:+ "]")
      end
  | JObj fs =>
      let inner := indent +:+ gap in
      match omap (λ kv, (λ t, quote kv.1 +:+ ": " +:+ t)
                          <$> JSON_stringify_indent inner kv.2) fs with
      | [] => Some "{}"
      | partial =>
          Some ("{" +:+ newline +:+ inner
                +:+ String.concat ("," +:+ newline +:+ inner) partial
                +:+ newline +:+ indent +:+ "}")
      end
  | _ => JSON_stringify v
  end.

(** [prettyJSONString(inputString)]; [Return None] is the [undefined] that
    [JSON.stringify] returns for [undefined]. *)
Definition prettyJSONString (inputString : string) : outcome (option string) :=
  match JSON_parse inputString with
  | Some v => Return (JSON_stringify_indent "" v)
  | None => Throw SyntaxError
  end.

(** The text of one array element and of one object member in indented
    JSON text. *)
Definition indent_elem (inner : string) (x : json) : string :=
  default "null" (JSON_stringify_indent inner x).
Definition indent_member (inner : string) (kv : string * json)
    : option string :=
  (λ t, quote kv.1 +:+ ": " +:+ t) <$> JSON_stringify_indent inner kv.2.



(** Text of white space only. *)
Fixpoint blank (s : string) : bool :=
  match s with
  | "" => true
  | String c r => is_ws c && blank r
  end.

(** The text after a value in indented JSON text: the end, a comma, a
    closing bracket or a line break. *)
Definition closes_value (rest : string) : Prop :=
  match rest with
  | "" => True
  | String c _ =>
      c = ","%char ∨ c = "]"%char ∨ c = "}"%char ∨ c = "010"%char
  end.

(** * Properties *)

(** ** Sorting by key *)

#[local] Instance key_le_trans {V} : Transitive (@key_le V).
Proof. intros p q r. unfold key_le. apply transitivity. Qed.

#[local] Instance key_le_total {V} : Total (@key_le V).
Proof. intros p q. apply (total String.le). Qed.

Lemma NoDup_keys_inj {V} (l : list (string * V)) p q :
  NoDup l.*1 → p ∈ l → q ∈ l → p.1 = q.1 → p = q.
Proof.
  induction l as [|x l IH]; simpl; intros Hnd Hp Hq Hk.
  { by apply elem_of_nil in Hp. }
  apply NoDup_cons in Hnd as [Hx Hnd].
  apply elem_of_cons in Hp as [->|Hp]; apply elem_of_cons in Hq as [->|Hq].
  - done.
  - destruct Hx. rewrite Hk. by apply list_elem_of_fmap_2.
  - destruct Hx. rewrite <-Hk. by apply list_elem_of_fmap_2.
  - by apply IH.
Qed.

(** A list without repeated keys has one sorted arrangement. *)
Lemma sorted_by_key_unique {V} (l1 l2 : list (string * V)) :
  StronglySorted key_le l1 → StronglySorted key_le l2 →
  l1 ≡ₚ l2 → NoDup l1.*1 → l1 = l2.
Proof.
  intros Hs1 Hs2 Hp Hnd.
  apply (StronglySorted_unique_strong key_le); try done.
  intros p q Hp1 Hq2 Hpq Hqp.
  apply (NoDup_keys_inj l1); [done..| by rewrite Hp |].
  by apply (anti_symm String.le).
Qed.

Lemma merge_sort_keys_perm {V} (l1 l2 : list (string * V)) :
  l1 ≡ₚ l2 → NoDup l1.*1 →
  merge_sort key_le l1 = merge_sort key_le l2.
Proof.
  intros Hp Hnd. apply sorted_by_key_unique.
  - apply (StronglySorted_merge_sort _).
  - apply (StronglySorted_merge_sort _).
  - by rewrite !merge_sort_Permutation.
  - by rewrite merge_sort_Permutation.
Qed.

Lemma merge_sort_keys_sorted {V} (l : list (string * V)) :
  StronglySorted key_le l → NoDup l.*1 → merge_sort key_le l = l.
Proof.
  intros Hs Hnd. apply sorted_by_key_unique.
  - apply (StronglySorted_merge_sort _).
  - done.
  - apply merge_sort_Permutation.
  - by rewrite merge_sort_Permutation.
Qed.

Lemma fmap_fst_sorted_values (fs : fields) :
  (map (λ kv, (kv.1, sortKeysRecursive kv.2)) fs).*1 = fs.*1.
Proof. induction fs as [|[k v] fs IH]; simpl; [done|]. by f_equal. Qed.

(** ** Canonical encoding *)

Lemma same_fields_keys (fs gs : fields) :
  Forall2 (λ p q, p.1 = q.1 ∧ same_value p.2 q.2) fs gs → gs.*1 = fs.*1.
Proof.
  induction 1 as [|[k x] [k' x'] l l' [Hk Hx] Hl IHl]; simpl in *; [done|].
  by f_equal.
Qed.

Lemma same_fields_sorted (fs gs : fields) :
  Forall (λ kv, ∀ w, same_value kv.2 w →
                     sortKeysRecursive kv.2 = sortKeysRecursive w) fs →
  Forall2 (λ p q, p.1 = q.1 ∧ same_value p.2 q.2) fs gs →
  map (λ kv, (kv.1, sortKeysRecursive kv.2)) fs
  = map (λ kv, (kv.1, sortKeysRecursive kv.2)) gs.
Proof.
  intros IH H. revert IH.
  induction H as [|[k x] [k' x'] l l' [Hk Hx] Hl IHl]; intros IH; [done|].
  apply Forall_cons in IH as [IHx IHr]. simpl in *. subst k'.
  f_equal; [f_equal|]; auto.
Qed.

Lemma sortKeysRecursive_same v w :
  same_value v w → sortKeysRecursive v = sortKeysRecursive w.
Proof.
  revert w. induction v as [| | | | |xs IH|fs IH] using json_ind_deep;
    intros w Hsame; inv Hsame; try done.
  - simpl. f_equal.
    match goal with H : Forall2 _ _ _ |- _ => revert IH; induction H end;
      intros IH; [done|].
    apply Forall_cons in IH as [IHx IHl]. simpl. f_equal; auto.
  - simpl. f_equal. unfold sort_keys.
    match goal with H : Forall2 _ fs ?gs |- _ =>
      rewrite (same_fields_sorted fs gs IH H);
      pose proof (same_fields_keys fs gs H) as Hkeys
    end.
    apply merge_sort_keys_perm.
    + by apply fmap_Permutation.
    + rewrite fmap_fst_sorted_values. by rewrite Hkeys.
Qed.

(** C1. Canonical-encoding determinism: two records that differ only in
    the order their fields were inserted, at any nesting level, have the
    same persisted encoding [stringify(sortKeysRecursive(record))], byte
    for byte. *)
Theorem encode_insertion_order_independent (v w : json) :
  same_value v w → encode v = encode w.
Proof.
  intros Hsame. unfold encode. by rewrite (sortKeysRecursive_same v w).
Qed.

(** ** Strings *)

Lemma append_nil_r (s : string) : s +:+ "" = s.
Proof. induction s; simpl; by f_equal. Qed.

Lemma append_assoc (a b c : string) : (a +:+ b) +:+ c = a +:+ (b +:+ c).
Proof. induction a; simpl; by f_equal. Qed.

Lemma length_append (a b : string) :
  String.length (a +:+ b) = String.length a + String.length b.
Proof. induction a; simpl; by f_equal. Qed.

(** ** Reading back what [JSON.stringify] wrote *)

(** Evaluate the escape of a known character and the reading of it. *)
Ltac eval_escape :=
  match goal with
  | |- context [escape_char ?c] =>
      let e := eval vm_compute in (escape_char c) in
      change (escape_char c) with e
  end;
  simpl;
  try match goal with
  | |- context [unicode_escape ?a ?b ?c ?d] =>
      let e := eval vm_compute in (unicode_escape a b c d) in
      change (unicode_escape a b c d) with e
  end; simpl.

Lemma parse_escape_char c X res :
  parse_string_body X = Some res →
  parse_string_body (escape_char c +:+ X) = Some (prod_map (String c) id res).
Proof.
  intros H.
  destruct c as [[] [] [] [] [] [] [] []]; eval_escape; by rewrite H.
Qed.

Lemma parse_string_body_escape s rest :
  parse_string_body (escape s +:+ String dquote rest) = Some (s, rest).
Proof.
  induction s as [|c s IH]; [done|].
  simpl. rewrite append_assoc. by rewrite (parse_escape_char _ _ _ IH).
Qed.

Lemma read_digits_string_of_uint u rest :
  delimited rest → read_digits (string_of_uint u +:+ rest) = (u, rest).
Proof.
  intros Hrest. induction u; simpl; rewrite ?IHu; try done.
  destruct rest as [|c r]; [done|].
  destruct Hrest as [->|[->| ->]]; done.
Qed.

Lemma to_uint_no_leading_zero p u : Pos.to_uint p ≠ D0 u.
Proof.
  intros H.
  pose proof (DecimalPos.Unsigned.to_of (Pos.to_uint p)) as Hn.
  rewrite DecimalPos.Unsigned.of_to in Hn. simpl in Hn.
  rewrite H in Hn. unfold unorm in Hn.
  destruct (nzhead (D0 u)) eqn:Hz; try (by inversion Hn).
  - apply (DecimalPos.Unsigned.to_uint_nonzero p). by rewrite H, <-Hn.
  - by apply nzhead_nonzero in Hz.
Qed.

Lemma starts_fraction_delimited rest :
  delimited rest → starts_fraction rest = false.
Proof. destruct rest as [|c r]; [done|]. by intros [->|[->| ->]]. Qed.

Lemma parse_number_string_of_Z n rest :
  delimited rest →
  parse_number (string_of_Z n +:+ rest) = Some (JNum n, rest).
Proof.
  intros Hrest. unfold string_of_Z.
  pose proof (DecimalZ.of_to n) as Hn.
  destruct n as [|p|p]; simpl in *.
  - unfold parse_number. simpl.
    destruct rest as [|c r]; [done|].
    destruct Hrest as [->|[->| ->]]; done.
  - pose proof (to_uint_no_leading_zero p) as Hz.
    pose proof (DecimalPos.Unsigned.to_uint_nonnil p) as Hnil.
    destruct (Pos.to_uint p) as [|u|u|u|u|u|u|u|u|u|u] eqn:Hu;
      try done; try (by destruct (Hz u));
      unfold parse_number; simpl;
      rewrite (read_digits_string_of_uint u rest Hrest); simpl;
      rewrite (starts_fraction_delimited rest Hrest); simpl;
      by rewrite Hn.
  - pose proof (to_uint_no_leading_zero p) as Hz.
    pose proof (DecimalPos.Unsigned.to_uint_nonnil p) as Hnil.
    destruct (Pos.to_uint p) as [|u|u|u|u|u|u|u|u|u|u] eqn:Hu;
      try done; try (by destruct (Hz u));
      unfold parse_number; simpl;
      rewrite (read_digits_string_of_uint u rest Hrest); simpl;
      rewrite (starts_fraction_delimited rest Hrest); simpl;
      by rewrite Hn.
Qed.

Lemma parse_value_number fuel n rest :
  parse_value (S fuel) (string_of_Z n +:+ rest)
  = parse_number (string_of_Z n +:+ rest).
Proof.
  unfold string_of_Z.
  destruct n as [|p|p]; simpl; try done;
    pose proof (DecimalPos.Unsigned.to_uint_nonnil p) as Hnil;
    destruct (Pos.to_uint p); done.
Qed.

Lemma string_of_Z_start n : ∃ c t, string_of_Z n = String c t.
Proof.
  unfold string_of_Z. destruct n as [|p|p]; simpl; eauto.
  pose proof (DecimalPos.Unsigned.to_uint_nonnil p) as Hnil.
  destruct (Pos.to_uint p); simpl; eauto. done.
Qed.

Lemma string_of_Z_value_start n rest :
  value_start (string_of_Z n +:+ rest) = true.
Proof.
  unfold string_of_Z. destruct n as [|p|p]; simpl; try done.
  pose proof (DecimalPos.Unsigned.to_uint_nonnil p) as Hnil.
  destruct (Pos.to_uint p); done.
Qed.

Lemma JSON_stringify_None v : JSON_stringify v = None → v = JUndefined.
Proof. by destruct v. Qed.

Lemma JSON_stringify_value_start v text rest :
  JSON_stringify v = Some text → value_start (text +:+ rest) = true.
Proof.
  destruct v as [| |[]|n|s|xs|fs]; simpl; intros H; simplify_eq; try done.
  apply string_of_Z_value_start.
Qed.

Lemma JSON_stringify_nonempty v text :
  JSON_stringify v = Some text → (1 ≤ String.length text)%nat.
Proof.
  intros H. pose proof (JSON_stringify_value_start v text "" H) as Hs.
  rewrite append_nil_r in Hs. destruct text; [done|simpl; lia].
Qed.

Lemma elem_text_value_start x rest : value_start (elem_text x +:+ rest) = true.
Proof.
  unfold elem_text. destruct (JSON_stringify x) as [t|] eqn:Ht; simpl; [|done].
  by eapply JSON_stringify_value_start.
Qed.

Lemma elem_text_nonempty x : (1 ≤ String.length (elem_text x))%nat.
Proof.
  pose proof (elem_text_value_start x "") as Hs.
  rewrite append_nil_r in Hs. destruct (elem_text x); [done|simpl; lia].
Qed.

Lemma skip_ws_value_start s : value_start s = true → skip_ws s = s.
Proof.
  destruct s as [|c r]; [done|]. simpl.
  destruct (is_ws c); [done|]. done.
Qed.

Lemma parse_value_array fuel r :
  value_start r = true →
  parse_value (S fuel) (String "[" r)
  = parse_elements (parse_value fuel) fuel [] r.
Proof.
  intros Hr. simpl. rewrite (skip_ws_value_start r Hr).
  destruct r as [|c r']; [done|].
  destruct c as [[] [] [] [] [] [] [] []]; done.
Qed.

Lemma parse_value_object fuel r :
  value_start r = true →
  parse_value (S fuel) (String "{" r)
  = parse_members (parse_value fuel) fuel [] r.
Proof.
  intros Hr. simpl. rewrite (skip_ws_value_start r Hr).
  destruct r as [|c r']; [done|].
  destruct c as [[] [] [] [] [] [] [] []]; done.
Qed.

(** *** Lengths of joined texts *)

Lemma length_concat_elem sep t ts :
  t ∈ ts → (String.length t ≤ String.length (String.concat sep ts))%nat.
Proof.
  induction ts as [|x ts IH]; intros Hin; [by apply elem_of_nil in Hin|].
  destruct ts as [|y ts].
  - apply list_elem_of_singleton in Hin as ->. done.
  - change (String.concat sep (x :: y :: ts))
      with (x +:+ sep +:+ String.concat sep (y :: ts)).
    rewrite !length_append.
    apply elem_of_cons in Hin as [->|Hin]; [lia|].
    specialize (IH Hin). lia.
Qed.

Lemma length_concat_count sep ts :
  Forall (λ t, (1 ≤ String.length t)%nat) ts →
  (length ts ≤ String.length (String.concat sep ts))%nat.
Proof.
  induction ts as [|x ts IH]; intros Hall; [done|].
  apply Forall_cons in Hall as [Hx Hall]. specialize (IH Hall).
  destruct ts as [|y ts]; [simpl in *; lia|].
  change (String.concat sep (x :: y :: ts))
    with (x +:+ sep +:+ String.concat sep (y :: ts)).
  rewrite !length_append. simpl in *. lia.
Qed.

(** *** Array elements and object members *)

Lemma parse_elements_step pv n acc s v r :
  pv s = Some (v, r) →
  parse_elements pv (S n) acc s
  = match skip_ws r with
    | String "," r' => parse_elements pv n (acc ++ [v]) r'
    | String "]" r' => Some (JArr (acc ++ [v]), r')
    | _ => None
    end.
Proof. intros H. simpl. by rewrite H. Qed.

Lemma parse_elements_values pv xs : ∀ n acc rest,
  Forall (λ x, ∀ rest', delimited rest' →
               pv (elem_text x +:+ rest') = Some (elem_value x, rest')) xs →
  xs ≠ [] → (length xs ≤ n)%nat →
  parse_elements pv n acc
    (String.concat "," (map elem_text xs) +:+ String "]" rest)
  = Some (JArr (acc ++ map elem_value xs), rest).
Proof.
  induction xs as [|x xs IH]; intros n acc rest Hall Hne Hlen; [done|].
  apply Forall_cons in Hall as [Hx Hall].
  destruct n as [|n]; [simpl in Hlen; lia|].
  destruct xs as [|y xs].
  - simpl String.concat.
    rewrite (parse_elements_step pv n acc _ (elem_value x) (String "]" rest)).
    + done.
    + apply Hx. simpl. auto.
  - change (String.concat "," (map elem_text (x :: y :: xs)))
      with (elem_text x +:+ "," +:+ String.concat "," (map elem_text (y :: xs))).
    rewrite !append_assoc.
    rewrite (parse_elements_step pv n acc _ (elem_value x)
               (String "," (String.concat "," (map elem_text (y :: xs))
                            +:+ String "]" rest))).
    + cbn [skip_ws is_ws]. rewrite IH; [|done..|simpl in *; lia].
      by rewrite <-(assoc_L (++)).
    + apply Hx. simpl. auto.
Qed.

Lemma obj_set_fresh k v (acc : fields) :
  k ∉ acc.*1 → obj_set k v acc = acc ++ [(k, v)].
Proof.
  induction acc as [|[k' v'] acc IH]; simpl; intros Hk; [done|].
  apply not_elem_of_cons in Hk as [Hne Hk].
  destruct (decide (k' = k)); [done|]. by rewrite IH.
Qed.

Lemma parse_members_step pv n acc k t more v r :
  pv (t +:+ more) = Some (v, r) →
  parse_members pv (S n) acc (quote k +:+ ":" +:+ t +:+ more)
  = match skip_ws r with
    | String "," r' => parse_members pv n (obj_set k v acc) r'
    | String "}" r' => Some (JObj (obj_set k v acc), r')
    | _ => None
    end.
Proof.
  intros H. unfold quote. simpl. rewrite append_assoc. simpl.
  rewrite parse_string_body_escape. simpl. by rewrite H.
Qed.

Lemma member_text_nil_value fs :
  omap member_text fs = [] → omap member_value fs = [].
Proof.
  induction fs as [|[k x] fs IH]; [done|]. simpl.
  unfold member_text, member_value. simpl.
  destruct x; simpl; done.
Qed.

Lemma concat_cons sep x (l : list string) :
  l ≠ [] → String.concat sep (x :: l) = x +:+ sep +:+ String.concat sep l.
Proof. by destruct l. Qed.

Lemma parse_members_fields pv fs : ∀ n acc rest,
  Forall (λ kv, ∀ t rest', JSON_stringify kv.2 = Some t → delimited rest' →
                pv (t +:+ rest') = Some (prune kv.2, rest')) fs →
  omap member_text fs ≠ [] → (length (omap member_text fs) ≤ n)%nat →
  NoDup (acc.*1 ++ fs.*1) →
  parse_members pv n acc
    (String.concat "," (omap member_text fs) +:+ String "}" rest)
  = Some (JObj (acc ++ omap member_value fs), rest).
Proof.
  induction fs as [|[k x] fs IH]; intros n acc rest Hall Hne Hlen Hnd; [done|].
  apply Forall_cons in Hall as [Hx Hall]. simpl in Hx.
  destruct (JSON_stringify x) as [t|] eqn:Ht.
  - assert (member_text (k, x) = Some (quote k +:+ ":" +:+ t)) as Hm.
    { unfold member_text. simpl. by rewrite Ht. }
    assert (member_value (k, x) = Some (k, prune x)) as Hv.
    { unfold member_value. simpl. by destruct x. }
    assert ((k ∉ acc.*1) ∧ NoDup ((acc ++ [(k, prune x)]).*1 ++ fs.*1))
      as [Hk Hnd'].
    { simpl in Hnd. rewrite fmap_app. simpl. rewrite <-(assoc_L (++)). simpl.
      split; [|done].
      apply NoDup_app in Hnd as (_ & Hd & _). intros Hin.
      apply (Hd k Hin). left. }
    cbn [omap list_omap] in Hlen |- *. rewrite Hm in Hlen. rewrite Hm, Hv.
    destruct n as [|n]; [simpl in Hlen; lia|].
    destruct (decide (omap member_text fs = [])) as [Hms|Hms].
    + rewrite (member_text_nil_value fs Hms), Hms.
      change (String.concat "," [quote k +:+ ":" +:+ t])
        with (quote k +:+ ":" +:+ t).
      rewrite !append_assoc.
      rewrite (parse_members_step pv n acc k t _ (prune x) (String "}" rest)).
      * cbn [skip_ws is_ws]. by rewrite obj_set_fresh.
      * apply Hx; [done|]. simpl. auto.
    + rewrite (concat_cons _ _ _ Hms). rewrite !append_assoc.
      rewrite (parse_members_step pv n acc k t _ (prune x)
                 (String "," (String.concat "," (omap member_text fs)
                              +:+ String "}" rest))).
      * cbn [skip_ws is_ws]. rewrite obj_set_fresh by done.
        rewrite IH; [|done..|simpl in *; lia|done].
        by rewrite <-(assoc_L (++)).
      * apply Hx; [done|]. simpl. auto.
  - assert (member_text (k, x) = None) as Hm.
    { unfold member_text. simpl. by rewrite Ht. }
    assert (member_value (k, x) = None) as Hv.
    { apply JSON_stringify_None in Ht as ->. done. }
    cbn [omap list_omap] in *. rewrite Hm in *. rewrite Hv.
    apply IH; [done..|simpl in *; lia|].
    simpl in Hnd. apply NoDup_app in Hnd as (Ha & Hd & Hf).
    apply NoDup_cons in Hf as [_ Hf].
    apply NoDup_app. split_and!; [done| |done].
    intros y Hy Hy'. apply (Hd y Hy). by right.
Qed.

Lemma concat_value_start (ts : list string) X :
  ts ≠ [] → Forall (λ t, ∀ r, value_start (t +:+ r) = true) ts →
  value_start (String.concat "," ts +:+ X) = true.
Proof.
  destruct ts as [|t ts]; [done|]. intros _ Hall.
  apply Forall_cons in Hall as [Ht _].
  destruct ts as [|t' ts]; [apply Ht|].
  rewrite concat_cons by done. rewrite append_assoc. apply Ht.
Qed.

Lemma member_text_shape kv m :
  member_text kv = Some m →
  ∃ t, JSON_stringify kv.2 = Some t ∧ m = quote kv.1 +:+ ":" +:+ t.
Proof.
  unfold member_text. destruct (JSON_stringify kv.2) as [t|]; [|done].
  simpl. intros [= <-]. eauto.
Qed.

Lemma forallb_elem {A} (f : A → bool) (l : list A) x :
  forallb f l = true → x ∈ l → f x = true.
Proof.
  rewrite forallb_forall. intros H Hx. apply H. by apply list_elem_of_In.
Qed.

Lemma JSON_stringify_arr xs :
  JSON_stringify (JArr xs)
  = Some ("[" +:+ String.concat "," (map elem_text xs) +:+ "]").
Proof. done. Qed.

Lemma JSON_stringify_obj fs :
  JSON_stringify (JObj fs)
  = Some ("{" +:+ String.concat "," (omap member_text fs) +:+ "}").
Proof. done. Qed.

(** The reader gives back, from the text of a value and whatever follows
    it, the value the text carries and the text that follows. *)
Lemma parse_value_stringify v :
  unique_keys v = true → ∀ text, JSON_stringify v = Some text →
  ∀ fuel rest, (String.length text ≤ fuel)%nat → delimited rest →
  parse_value fuel (text +:+ rest) = Some (prune v, rest).
Proof.
  induction v as [| |b|n|s|xs IH|fs IH] using json_ind_deep;
    intros Huniq text Htext fuel rest Hfuel Hrest;
    [ simpl in Htext .. | rewrite JSON_stringify_arr in Htext
    | rewrite JSON_stringify_obj in Htext ]; simplify_eq.
  - destruct fuel; [simpl in Hfuel; lia|done].
  - destruct b, fuel; simpl in Hfuel; try lia; done.
  - destruct fuel as [|fuel].
    { destruct (string_of_Z_start n) as (c & t & Hc).
      rewrite Hc in Hfuel. simpl in Hfuel. lia. }
    rewrite parse_value_number. by apply parse_number_string_of_Z.
  - destruct fuel as [|fuel]; [simpl in Hfuel; lia|].
    unfold quote. simpl. rewrite append_assoc. simpl.
    by rewrite parse_string_body_escape.
  - destruct fuel as [|fuel]; [simpl in Hfuel; lia|].
    destruct (decide (xs = [])) as [->|Hne]; [done|].
    change (prune (JArr xs)) with (JArr ([] ++ map elem_value xs)).
    simpl in Hfuel. rewrite !length_append in Hfuel. simpl in Hfuel.
    set (C := String.concat "," (map elem_text xs)) in *.
    change (("[" +:+ C +:+ "]") +:+ rest)
      with (String "[" ((C +:+ "]") +:+ rest)).
    rewrite append_assoc. change ("]" +:+ rest) with (String "]" rest).
    rewrite parse_value_array.
    2:{ apply concat_value_start; [by destruct xs|].
        apply Forall_forall. intros t [x [-> _]]%list_elem_of_fmap r.
        apply elem_text_value_start. }
    apply parse_elements_values; [|done|].
    + apply Forall_forall. intros x Hx rest' Hd.
      assert (String.length (elem_text x) ≤ fuel)%nat as Hlen.
      { pose proof (length_concat_elem "," (elem_text x) (map elem_text xs)
                      (list_elem_of_fmap_2 _ _ _ Hx)). fold C in H. lia. }
      unfold elem_text, elem_value in *.
      destruct (JSON_stringify x) as [t|] eqn:Ht.
      * rewrite Forall_forall in IH. simpl in Huniq. simpl default.
        rewrite (IH x Hx (forallb_elem _ _ _ Huniq Hx) t Ht fuel rest' Hlen Hd).
        by destruct x.
      * apply JSON_stringify_None in Ht as ->. simpl in *.
        destruct fuel; [lia|done].
    + pose proof (length_concat_count "," (map elem_text xs)) as Hc.
      rewrite length_map in Hc. fold C in Hc.
      assert (length xs ≤ String.length C)%nat; [|lia].
      apply Hc, Forall_forall. intros t [x [-> _]]%list_elem_of_fmap.
      apply elem_text_nonempty.
  - destruct fuel as [|fuel]; [simpl in Hfuel; lia|].
    simpl in Huniq. apply andb_true_iff in Huniq as [Hnd Huniq].
    apply bool_decide_eq_true in Hnd.
    change (prune (JObj fs)) with (JObj ([] ++ omap member_value fs)).
    destruct (decide (omap member_text fs = [])) as [Hnil|Hne].
    { rewrite Hnil, (member_text_nil_value fs Hnil). done. }
    simpl in Hfuel. rewrite !length_append in Hfuel. simpl in Hfuel.
    set (C := String.concat "," (omap member_text fs)) in *.
    change (("{" +:+ C +:+ "}") +:+ rest)
      with (String "{" ((C +:+ "}") +:+ rest)).
    rewrite append_assoc. change ("}" +:+ rest) with (String "}" rest).
    rewrite parse_value_object.
    2:{ apply concat_value_start; [done|].
        apply Forall_forall. intros m (kv & _ & Hm)%list_elem_of_omap r.
        apply member_text_shape in Hm as (t & _ & ->). done. }
    apply parse_members_fields; [|done| |done].
    + apply Forall_forall. intros kv Hkv t rest' Ht Hd.
      rewrite Forall_forall in IH.
      apply (IH kv Hkv (forallb_elem _ _ _ Huniq Hkv) t Ht); [|done].
      assert (quote kv.1 +:+ ":" +:+ t ∈ omap member_text fs) as Hin.
      { apply list_elem_of_omap. exists kv. split; [done|].
        unfold member_text. by rewrite Ht. }
      pose proof (length_concat_elem "," _ _ Hin) as Hl. fold C in Hl.
      rewrite !length_append in Hl. lia.
    + pose proof (length_concat_count "," (omap member_text fs)) as Hc.
      fold C in Hc.
      assert (length (omap member_text fs) ≤ String.length C)%nat; [|lia].
      apply Hc, Forall_forall. intros m (kv & _ & Hm)%list_elem_of_omap.
      apply member_text_shape in Hm as (t & _ & ->).
      unfold quote. simpl. lia.
Qed.

(** [JSON.parse] inverts [JSON.stringify] up to the parts of a value that
    JSON text does not keep. *)
Theorem JSON_parse_stringify v text :
  unique_keys v = true → JSON_stringify v = Some text →
  JSON_parse text = Some (prune v).
Proof.
  intros Huniq Htext. unfold JSON_parse.
  pose proof (parse_value_stringify v Huniq text Htext
                (String.length text) "" (le_n _) I) as H.
  rewrite append_nil_r in H. by rewrite H.
Qed.

(** ** What [JSON.parse] can return *)

#[local] Arguments expect : simpl never.
#[local] Arguments Ascii.eqb : simpl never.

Lemma forallb_Forall_true {A} (f : A → bool) (l : list A) :
  forallb f l = true ↔ Forall (λ x, f x = true) l.
Proof.
  rewrite forallb_forall, Forall_forall.
  split; intros H x Hx; apply H; by apply list_elem_of_In.
Qed.

Lemma is_data_arr xs :
  Forall (λ x, is_data x = true) xs → is_data (JArr xs) = true.
Proof.
  intros H. unfold is_data. simpl. apply andb_true_iff.
  split; apply forallb_Forall_true; eapply Forall_impl; try exact H;
    intros x [??]%andb_true_iff; done.
Qed.

Lemma is_data_obj fs :
  NoDup fs.*1 → Forall (λ kv, is_data kv.2 = true) fs →
  is_data (JObj fs) = true.
Proof.
  intros Hnd H. unfold is_data. simpl.
  rewrite (bool_decide_eq_true_2 _ Hnd). simpl. apply andb_true_iff.
  split; apply forallb_Forall_true; eapply Forall_impl; try exact H;
    intros x [??]%andb_true_iff; done.
Qed.

Lemma is_data_obj_inv fs :
  is_data (JObj fs) = true →
  NoDup fs.*1 ∧ Forall (λ kv, is_data kv.2 = true) fs.
Proof.
  unfold is_data. simpl.
  intros [[Hnd Hu]%andb_true_iff Hd]%andb_true_iff.
  apply bool_decide_eq_true in Hnd. split; [done|].
  apply forallb_Forall_true in Hu, Hd. apply Forall_forall. intros kv Hkv.
  rewrite Forall_forall in Hu, Hd. apply andb_true_iff. auto.
Qed.

Lemma obj_set_keys k v (acc : fields) :
  (obj_set k v acc).*1 = if decide (k ∈ acc.*1) then acc.*1 else acc.*1 ++ [k].
Proof.
  induction acc as [|[k' v'] acc IH]; [done|].
  cbn [obj_set].
  destruct (decide (k' = k)) as [->|Hne]; rewrite !fmap_cons; cbn [fst].
  - rewrite decide_True; [done|left].
  - rewrite IH. destruct (decide (k ∈ acc.*1)) as [Hin|Hnin].
    + rewrite decide_True; [done|by right].
    + rewrite decide_False; [done|].
      intros [?|?]%elem_of_cons; congruence.
Qed.

Lemma obj_set_NoDup k v (acc : fields) :
  NoDup acc.*1 → NoDup (obj_set k v acc).*1.
Proof.
  intros Hnd. rewrite obj_set_keys. case_decide; [done|].
  apply NoDup_app. split_and!; [done| |apply NoDup_singleton].
  intros x Hx ->%list_elem_of_singleton. done.
Qed.

Lemma obj_set_Forall (P : string * json → Prop) k v (acc : fields) :
  P (k, v) → Forall P acc → Forall P (obj_set k v acc).
Proof.
  intros Hkv. induction 1 as [|[k' v'] acc Hx Hall IH]; simpl.
  - by constructor.
  - destruct (decide (k' = k)); constructor; done.
Qed.

Lemma parse_number_inv s v r : parse_number s = Some (v, r) → ∃ n, v = JNum n.
Proof.
  unfold parse_number.
  destruct (match s with String "-" r0 => (true, r0) | _ => (false, s) end)
    as [neg s1].
  destruct (read_digits s1) as [u r0].
  match goal with |- (if ?c then _ else _) = _ → _ => destruct c end;
    intros ?; simplify_eq. eauto.
Qed.

Lemma parse_elements_sound pv n : ∀ acc s v r,
  (∀ s v r, pv s = Some (v, r) → is_data v = true) →
  Forall (λ x, is_data x = true) acc →
  parse_elements pv n acc s = Some (v, r) → is_data v = true.
Proof.
  induction n as [|n IH]; intros acc s v r Hpv Hacc H; [done|].
  simpl in H. destruct (pv s) as [[x r1]|] eqn:Hx; [|done]. simpl in H.
  assert (Forall (λ x, is_data x = true) (acc ++ [x])) as Hacc'.
  { apply Forall_app. split; [done|]. constructor; [|done]. eauto. }
  destruct (skip_ws r1) as [|c r2]; [done|].
  destruct c as [[] [] [] [] [] [] [] []]; try done.
  - simplify_eq. by apply is_data_arr.
  - by apply (IH _ _ _ _ Hpv Hacc' H).
Qed.

Lemma parse_members_sound pv n : ∀ acc s v r,
  (∀ s v r, pv s = Some (v, r) → is_data v = true) →
  NoDup acc.*1 → Forall (λ kv, is_data kv.2 = true) acc →
  parse_members pv n acc s = Some (v, r) → is_data v = true.
Proof.
  induction n as [|n IH]; intros acc s v r Hpv Hnd Hacc H; [done|].
  simpl in H. destruct (skip_ws s) as [|c r0]; [done|].
  destruct (Ascii.eqb c dquote); [|done].
  destruct (parse_string_body r0) as [[k r1]|]; [|done]. simpl in H.
  destruct (expect ":" (skip_ws r1)) as [r2|]; [|done]. simpl in H.
  destruct (pv r2) as [[x r3]|] eqn:Hx; [|done]. simpl in H.
  assert (NoDup (obj_set k x acc).*1) as Hnd' by by apply obj_set_NoDup.
  assert (Forall (λ kv, is_data kv.2 = true) (obj_set k x acc)) as Hacc'.
  { apply obj_set_Forall; [|done]. simpl. eauto. }
  destruct (skip_ws r3) as [|c' r4]; [done|].
  destruct c' as [[] [] [] [] [] [] [] []]; try done.
  - simplify_eq. by apply is_data_obj.
  - by apply (IH _ _ _ _ Hpv Hnd' Hacc' H).
Qed.

Lemma parse_value_sound fuel : ∀ s v r,
  parse_value fuel s = Some (v, r) → is_data v = true.
Proof.
  induction fuel as [|fuel IH]; intros s v r H; [done|].
  simpl in H. destruct (skip_ws s) as [|c t]; [done|].
  destruct c as [[] [] [] [] [] [] [] []];
    try (apply parse_number_inv in H as [n ->]; done);
    lazymatch type of H with
    | context [parse_members] =>
        destruct (skip_ws t) as [|c' t'];
          [|destruct c' as [[] [] [] [] [] [] [] []]];
          first [ by simplify_eq
                | exact (parse_members_sound _ _ [] _ _ _ IH
                           (NoDup_nil_2 (A:=string)) (Forall_nil_2 _) H) ]
    | context [parse_elements] =>
        destruct (skip_ws t) as [|c' t'];
          [|destruct c' as [[] [] [] [] [] [] [] []]];
          first [ by simplify_eq
                | exact (parse_elements_sound _ _ [] _ _ _ IH
                           (Forall_nil_2 _) H) ]
    | context [parse_string_body ?x] =>
        destruct (parse_string_body x) as [[x' r']|];
          simpl in H; by simplify_eq
    | context [expect ?p ?x] =>
        destruct (expect p x); simpl in H; by simplify_eq
    end.
Qed.

Theorem JSON_parse_is_data text v :
  JSON_parse text = Some v → is_data v = true.
Proof.
  unfold JSON_parse.
  destruct (parse_value (String.length text) text) as [[x r]|] eqn:H; [|done].
  simpl. destruct (skip_ws r); [|done]. intros [= <-].
  by eapply parse_value_sound.
Qed.

(** ** The reader accepts JSON text only *)

Lemma unicode_escape_hex h1 h2 h3 h4 x :
  unicode_escape h1 h2 h3 h4 = Some x →
  is_hex h1 && is_hex h2 && is_hex h3 && is_hex h4 = true.
Proof.
  unfold unicode_escape, is_hex.
  destruct (hex_val h1); [|done]. destruct (hex_val h2); [|done].
  destruct (hex_val h3); [|done]. by destruct (hex_val h4).
Qed.

Lemma parse_string_body_skip n : ∀ s k r,
  (String.length s ≤ n)%nat →
  parse_string_body s = Some (k, r) → skip_string_body s = Some r.
Proof.
  induction n as [|n IH]; intros s k r Hlen H.
  { destruct s; [done|simpl in Hlen; lia]. }
  destruct s as [|c s]; [done|]. simpl in Hlen.
  cbn [parse_string_body skip_string_body] in *.
  destruct (Ascii.eqb c dquote); [by simplify_eq|].
  destruct (Ascii.eqb c backslash).
  - destruct s as [|e s]; [done|]. simpl in Hlen.
    assert (∀ x k' r', prod_map (String x) id <$> parse_string_body s
                       = Some (k', r') → skip_string_body s = Some r')
      as Hcont.
    { intros x k' r' Hs.
      destruct (parse_string_body s) as [[k0 r0]|] eqn:Hp; [|done].
      simpl in Hs. simplify_eq. apply (IH s k0); [lia|done]. }
    destruct e as [[] [] [] [] [] [] [] []]; try done;
      try (by eapply Hcont).
    destruct s as [|h1 [|h2 [|h3 [|h4 s]]]]; try done.
    destruct (unicode_escape h1 h2 h3 h4) as [x|] eqn:Hu; [|done].
    rewrite (unicode_escape_hex _ _ _ _ _ Hu). simpl in H.
    destruct (parse_string_body s) as [[k0 r0]|] eqn:Hp; [|done].
    simpl in H. simplify_eq. apply (IH s k0); [simpl in Hlen; lia|done].
  - destruct (N_of_ascii c <? 32)%N; [done|].
    destruct (parse_string_body s) as [[k0 r0]|] eqn:Hp; [|done].
    simpl in H. simplify_eq. apply (IH s k0); [lia|done].
Qed.

Lemma read_digits_skip s : (read_digits s).2 = skip_digits s.
Proof.
  induction s as [|c s IH]; [done|]. simpl. unfold is_digit.
  destruct (digit_of c); [|done].
  destruct (read_digits s). simpl in *. done.
Qed.

Lemma digit_of_not_Nil c d u : digit_of c = Some d → d u ≠ Nil.
Proof.
  destruct c as [[] [] [] [] [] [] [] []]; simpl; intros [= <-]; done.
Qed.

Lemma read_digits_Nil s r : read_digits s = (Nil, r) → skip_digits s = s.
Proof.
  destruct s as [|c s]; [done|]. simpl. unfold is_digit.
  destruct (digit_of c) as [d|] eqn:Hd; [|done].
  destruct (read_digits s) as [u' r']. simpl. intros [= H _].
  by apply (digit_of_not_Nil c d u') in H.
Qed.

Lemma read_digits_first s u r :
  read_digits s = (u, r) → u ≠ Nil →
  ∃ c s', s = String c s' ∧ is_digit c = true ∧ r = skip_digits s'
          ∧ (c = "0"%char → ∃ u', u = D0 u').
Proof.
  destruct s as [|c s']; [by intros [= <- <-]|]. simpl.
  destruct (digit_of c) as [d|] eqn:Hd; [|by intros [= <- <-]].
  intros H _. exists c, s'.
  pose proof (read_digits_skip s') as Hs.
  destruct (read_digits s') as [u' r']. simpl in *. simplify_eq.
  split_and!; [done|unfold is_digit; by rewrite Hd|done|].
  intros ->. simpl in Hd. simplify_eq. eauto.
Qed.

Lemma parse_number_skip s v r :
  parse_number s = Some (v, r) → skip_number s = Some r.
Proof.
  unfold parse_number, skip_number.
  set (s1 := match s with String "-" r0 => r0 | _ => s end).
  assert ((let '(neg, s1') :=
             match s with
             | String "-" r0 => (true, r0)
             | _ => (false, s)
             end in
           s1' = s1)) as Hs1.
  { destruct s as [|c s']; [done|].
    destruct c as [[] [] [] [] [] [] [] []]; done. }
  destruct (match s with
            | String "-" r0 => (true, r0)
            | _ => (false, s)
            end) as [neg s1']. subst s1'.
  destruct (read_digits s1) as [u r0] eqn:Hread.
  destruct (match u with
            | Nil => false
            | D0 Nil => true
            | D0 _ => false
            | _ => true
            end) eqn:Hok; [|done].
  destruct (starts_fraction r0) eqn:Hfrac; [done|]. simpl.
  intros [= <- <-].
  assert (u ≠ Nil) as Hnil by (by intros ->).
  destruct (read_digits_first s1 u r0 Hread Hnil)
    as (c & s' & -> & Hc & -> & Hzero).
  assert (match String c s' with
          | String "0" r => Some r
          | _ => skip_digits1 (String c s')
          end = Some (skip_digits s')) as ->.
  { destruct (decide (c = "0"%char)) as [->|Hne].
    - destruct (Hzero eq_refl) as [u' ->].
      destruct u'; try done.
      simpl in Hread. destruct (read_digits s') as [u'' r''] eqn:Hr.
      simpl in Hread. simplify_eq.
      by rewrite (read_digits_Nil s' _ Hr).
    - simpl. rewrite Hc.
      destruct c as [[] [] [] [] [] [] [] []]; done. }
  simpl.
  destruct (skip_digits s') as [|c' r'] eqn:Hrest; [done|].
  unfold starts_fraction in Hfrac.
  apply orb_false_iff in Hfrac as [[H1 H2]%orb_false_iff H3].
  assert (match String c' r' with
          | String "." r => skip_digits1 r
          | _ => Some (String c' r')
          end = Some (String c' r')) as ->.
  { destruct c' as [[] [] [] [] [] [] [] []]; done. }
  simpl. by rewrite H2, H3.
Qed.

Lemma parse_elements_skip pv sv n : ∀ acc s v r,
  (∀ s v r, pv s = Some (v, r) → sv s = Some r) →
  parse_elements pv n acc s = Some (v, r) → skip_elements sv n s = Some r.
Proof.
  induction n as [|n IH]; intros acc s v r Hpv H; [done|].
  cbn [parse_elements skip_elements] in *.
  destruct (pv s) as [[x t]|] eqn:Hx; [|done]. simpl in H.
  rewrite (Hpv _ _ _ Hx). simpl.
  destruct (skip_ws t) as [|c t']; [done|].
  destruct c as [[] [] [] [] [] [] [] []]; try done;
    first [by simplify_eq | by eapply IH].
Qed.

Lemma parse_members_skip pv sv n : ∀ acc s v r,
  (∀ s v r, pv s = Some (v, r) → sv s = Some r) →
  parse_members pv n acc s = Some (v, r) → skip_members sv n s = Some r.
Proof.
  induction n as [|n IH]; intros acc s v r Hpv H; [done|].
  cbn [parse_members skip_members] in *.
  destruct (skip_ws s) as [|c t]; [done|].
  destruct (Ascii.eqb c dquote); [|done].
  destruct (parse_string_body t) as [[k r1]|] eqn:Hk; [|done]. simpl in H.
  rewrite (parse_string_body_skip _ t k r1 (le_n _) Hk). simpl.
  destruct (expect ":" (skip_ws r1)) as [r2|]; [|done]. simpl in *.
  destruct (pv r2) as [[x r3]|] eqn:Hx; [|done]. simpl in H.
  rewrite (Hpv _ _ _ Hx). simpl.
  destruct (skip_ws r3) as [|c' t']; [done|].
  destruct c' as [[] [] [] [] [] [] [] []]; try done;
    first [by simplify_eq | by eapply IH].
Qed.

Lemma parse_value_skip fuel : ∀ s v r,
  parse_value fuel s = Some (v, r) → skip_value fuel s = Some r.
Proof.
  induction fuel as [|fuel IH]; intros s v r H; [done|].
  cbn [parse_value skip_value] in *.
  destruct (skip_ws s) as [|c t]; [done|].
  destruct c as [[] [] [] [] [] [] [] []];
    try (by eapply parse_number_skip);
    lazymatch type of H with
    | context [parse_members] =>
        destruct (skip_ws t) as [|c' t'];
          [|destruct c' as [[] [] [] [] [] [] [] []]];
          first [ by simplify_eq
                | exact (parse_members_skip _ _ _ [] _ _ _ IH H) ]
    | context [parse_elements] =>
        destruct (skip_ws t) as [|c' t'];
          [|destruct c' as [[] [] [] [] [] [] [] []]];
          first [ by simplify_eq
                | exact (parse_elements_skip _ _ _ [] _ _ _ IH H) ]
    | context [parse_string_body ?x] =>
        destruct (parse_string_body x) as [[x' r']|] eqn:Hx;
          simpl in H; [|done]; simplify_eq;
          exact (parse_string_body_skip _ _ _ _ (le_n _) Hx)
    | context [expect ?p ?x] =>
        destruct (expect p x); simpl in H; by simplify_eq
    end.
Qed.

(** What the reader reads is JSON text: on text that is not JSON the reader
    fails, as [JSON.parse] does. *)
Theorem JSON_parse_is_JSON text v :
  JSON_parse text = Some v → is_JSON text = true.
Proof.
  unfold JSON_parse, is_JSON.
  destruct (parse_value (String.length text) text) as [[x r]|] eqn:H;
    [|done].
  rewrite (parse_value_skip _ _ _ _ H). simpl.
  by destruct (skip_ws r).
Qed.

Lemma not_JSON_parse text : is_JSON text = false → JSON_parse text = None.
Proof.
  intros Hn. destruct (JSON_parse text) as [v|] eqn:H; [|done].
  apply JSON_parse_is_JSON in H. congruence.
Qed.

Lemma modelled_JSON text :
  modelled text = true → is_JSON text = true →
  ∃ v, JSON_parse text = Some v.
Proof.
  unfold modelled. destruct (JSON_parse text) as [v|]; [eauto|].
  by intros ?%negb_true_iff ?; congruence.
Qed.

(** ** The fuel of the recogniser

    The recogniser accepts with the length of the text as fuel whatever it
    accepts with any fuel. *)

Lemma skip_elements_mono sv sv' n : ∀ m s r,
  (∀ s r, sv s = Some r → sv' s = Some r) → (n ≤ m)%nat →
  skip_elements sv n s = Some r → skip_elements sv' m s = Some r.
Proof.
  induction n as [|n IH]; intros m s r Hsv Hle H; [done|].
  destruct m as [|m]; [lia|]. cbn [skip_elements] in *.
  destruct (sv s) as [t|] eqn:Ht; [|done]. simpl in H.
  rewrite (Hsv _ _ Ht). simpl.
  destruct (skip_ws t) as [|c t']; [done|].
  destruct c as [[] [] [] [] [] [] [] []]; try done.
  apply IH; [done|lia|done].
Qed.

Lemma skip_members_mono sv sv' n : ∀ m s r,
  (∀ s r, sv s = Some r → sv' s = Some r) → (n ≤ m)%nat →
  skip_members sv n s = Some r → skip_members sv' m s = Some r.
Proof.
  induction n as [|n IH]; intros m s r Hsv Hle H; [done|].
  destruct m as [|m]; [lia|]. cbn [skip_members] in *.
  destruct (skip_ws s) as [|c t]; [done|].
  destruct (Ascii.eqb c dquote); [|done].
  destruct (skip_string_body t) as [r1|]; [|done]. simpl in *.
  destruct (expect ":" (skip_ws r1)) as [r2|]; [|done]. simpl in *.
  destruct (sv r2) as [r3|] eqn:H3; [|done]. simpl in H.
  rewrite (Hsv _ _ H3). simpl.
  destruct (skip_ws r3) as [|c' t']; [done|].
  destruct c' as [[] [] [] [] [] [] [] []]; try done.
  apply IH; [done|lia|done].
Qed.

Lemma skip_value_mono n : ∀ m s r,
  (n ≤ m)%nat → skip_value n s = Some r → skip_value m s = Some r.
Proof.
  induction n as [|n IH]; intros m s r Hle H; [done|].
  destruct m as [|m]; [lia|]. cbn [skip_value] in *.
  destruct (skip_ws s) as [|c t]; [done|].
  destruct c as [[] [] [] [] [] [] [] []]; try done;
    (destruct (skip_ws t) as [|c' t'];
       [|destruct c' as [[] [] [] [] [] [] [] []]];
       first [ done
             | exact (skip_elements_mono _ _ n m _ _
                        (λ s0 r0, IH m s0 r0 (le_S_n _ _ Hle))
                        (le_S_n _ _ Hle) H)
             | exact (skip_members_mono _ _ n m _ _
                        (λ s0 r0, IH m s0 r0 (le_S_n _ _ Hle))
                        (le_S_n _ _ Hle) H) ]).
Qed.

Lemma skip_ws_length s : (String.length (skip_ws s) ≤ String.length s)%nat.
Proof.
  induction s as [|c s IH]; [done|]. simpl.
  destruct (is_ws c); simpl; lia.
Qed.

Lemma expect_length p : ∀ s r,
  expect p s = Some r → (String.length r ≤ String.length s)%nat.
Proof.
  induction p as [|a p IH]; intros s r H.
  - change (Some s = Some r) in H. by simplify_eq.
  - destruct s as [|b s]; [done|].
    change ((if Ascii.eqb a b then expect p s else None) = Some r) in H.
    destruct (Ascii.eqb a b); [|done].
    apply IH in H. simpl. lia.
Qed.

Lemma skip_string_body_length n : ∀ s r,
  (String.length s ≤ n)%nat →
  skip_string_body s = Some r → (String.length r < String.length s)%nat.
Proof.
  induction n as [|n IH]; intros s r Hlen H.
  { destruct s; [done|simpl in Hlen; lia]. }
  destruct s as [|c s]; [done|]. simpl in Hlen.
  cbn [skip_string_body] in H. simpl String.length.
  destruct (Ascii.eqb c dquote); [simplify_eq; lia|].
  destruct (Ascii.eqb c backslash).
  - destruct s as [|e s]; [done|]. simpl in Hlen. simpl String.length.
    destruct e as [[] [] [] [] [] [] [] []]; try done;
      try (apply IH in H; [lia|lia]).
    destruct s as [|h1 [|h2 [|h3 [|h4 s]]]]; try done.
    destruct (is_hex h1 && is_hex h2 && is_hex h3 && is_hex h4); [|done].
    simpl in Hlen. apply IH in H; simpl; lia.
  - destruct (N_of_ascii c <? 32)%N; [done|].
    apply IH in H; lia.
Qed.

Lemma skip_digits_length s :
  (String.length (skip_digits s) ≤ String.length s)%nat.
Proof.
  induction s as [|c s IH]; [done|]. simpl.
  destruct (is_digit c); simpl; lia.
Qed.

Lemma skip_digits1_length s r :
  skip_digits1 s = Some r → (String.length r < String.length s)%nat.
Proof.
  destruct s as [|c s]; [done|]. simpl.
  destruct (is_digit c); [|done]. intros [= <-].
  pose proof (skip_digits_length s). lia.
Qed.

Lemma skip_number_length s r :
  skip_number s = Some r → (String.length r < String.length s)%nat.
Proof.
  unfold skip_number.
  set (s1 := match s with String "-" r0 => r0 | _ => s end).
  assert (String.length s1 ≤ String.length s)%nat as Hs1.
  { subst s1. destruct s as [|c s']; [done|].
    destruct c as [[] [] [] [] [] [] [] []]; simpl; lia. }
  destruct (match s1 with
            | String "0" r0 => Some r0
            | _ => skip_digits1 s1
            end) as [r1|] eqn:H1; [|done].
  assert (String.length r1 < String.length s1)%nat as Hr1.
  { destruct s1 as [|c s']; [done|].
    destruct c as [[] [] [] [] [] [] [] []];
      first [ apply skip_digits1_length in H1; exact H1
            | simplify_eq; simpl; lia ]. }
  simpl.
  destruct (match r1 with
            | String "." r0 => skip_digits1 r0
            | _ => Some r1
            end) as [r2|] eqn:H2; [|done].
  assert (String.length r2 ≤ String.length r1)%nat as Hr2.
  { destruct r1 as [|c s']; [by simplify_eq|].
    destruct c as [[] [] [] [] [] [] [] []];
      first [ apply skip_digits1_length in H2; simpl; lia
            | simplify_eq; simpl; lia ]. }
  simpl. destruct r2 as [|c r']; [intros [= <-]; lia|].
  destruct (Ascii.eqb c "e" || Ascii.eqb c "E"); [|intros [= <-]; lia].
  destruct r' as [|sign r'']; [done|].
  destruct (Ascii.eqb sign "+" || Ascii.eqb sign "-");
    intros H%skip_digits1_length; simpl in *; lia.
Qed.

Lemma skip_elements_S sv n s t :
  sv s = Some t →
  skip_elements sv (S n) s
  = match skip_ws t with
    | String "," r' => skip_elements sv n r'
    | String "]" r' => Some r'
    | _ => None
    end.
Proof. intros H. cbn [skip_elements]. by rewrite H. Qed.

Lemma skip_members_S sv n s c t r1 r2 r3 :
  skip_ws s = String c t → Ascii.eqb c dquote = true →
  skip_string_body t = Some r1 → expect ":" (skip_ws r1) = Some r2 →
  sv r2 = Some r3 →
  skip_members sv (S n) s
  = match skip_ws r3 with
    | String "," r' => skip_members sv n r'
    | String "}" r' => Some r'
    | _ => None
    end.
Proof.
  intros Hs Hq H1 H2 H3. cbn [skip_members].
  rewrite Hs, Hq, H1. simpl. rewrite H2. simpl. by rewrite H3.
Qed.

Lemma skip_elements_fuel n :
  (∀ s r, skip_value n s = Some r →
          (String.length r < String.length s)%nat
          ∧ skip_value (String.length s - String.length r) s = Some r) →
  ∀ m s r,
    skip_elements (skip_value n) m s = Some r →
    (String.length r < String.length s)%nat
    ∧ ∀ k, (String.length s - String.length r ≤ k)%nat →
           skip_elements (skip_value k) k s = Some r.
Proof.
  intros Hv. induction m as [|m IH]; intros s r H; [done|].
  cbn [skip_elements] in H.
  destruct (skip_value n s) as [t|] eqn:Ht; [|done]. simpl in H.
  destruct (Hv _ _ Ht) as [Hlt Hfuel].
  pose proof (skip_ws_length t) as Hws.
  destruct (skip_ws t) as [|c t'] eqn:Hwt; [done|]. simpl in Hws.
  assert (∀ k, (String.length s - String.length t ≤ k)%nat →
               skip_value k s = Some t) as Hmono.
  { intros k Hk. by apply (skip_value_mono _ k _ _ Hk) in Hfuel. }
  destruct c as [[] [] [] [] [] [] [] []]; try done;
    first
      [ simplify_eq; split; [lia|];
        intros k Hk; destruct k as [|k]; [lia|];
        rewrite (skip_elements_S _ _ _ t (Hmono (S k) ltac:(lia))), Hwt;
        done
      | destruct (IH _ _ H) as [Hlt' Hk']; split; [lia|];
        intros k Hk; destruct k as [|k]; [lia|];
        rewrite (skip_elements_S _ _ _ t (Hmono (S k) ltac:(lia))), Hwt;
        exact (skip_elements_mono (skip_value k) (skip_value (S k)) k k
                 t' r
                 (λ s0 r0, skip_value_mono k (S k) s0 r0 (Nat.le_succ_diag_r k))
                 (le_n _) (Hk' k ltac:(lia))) ].
Qed.

Lemma skip_members_fuel n :
  (∀ s r, skip_value n s = Some r →
          (String.length r < String.length s)%nat
          ∧ skip_value (String.length s - String.length r) s = Some r) →
  ∀ m s r,
    skip_members (skip_value n) m s = Some r →
    (String.length r < String.length s)%nat
    ∧ ∀ k, (String.length s - String.length r ≤ k)%nat →
           skip_members (skip_value k) k s = Some r.
Proof.
  intros Hv. induction m as [|m IH]; intros s r H; [done|].
  cbn [skip_members] in H.
  pose proof (skip_ws_length s) as Hs.
  destruct (skip_ws s) as [|c t] eqn:Hws; [done|]. simpl in Hs.
  destruct (Ascii.eqb c dquote) eqn:Hq; [|done].
  destruct (skip_string_body t) as [r1|] eqn:H1; [|done]. simpl in H.
  pose proof (skip_string_body_length _ _ _ (le_n _) H1) as Hl1.
  pose proof (skip_ws_length r1) as Hw1.
  destruct (expect ":" (skip_ws r1)) as [r2|] eqn:H2; [|done]. simpl in H.
  pose proof (expect_length _ _ _ H2) as Hl2.
  destruct (skip_value n r2) as [r3|] eqn:H3; [|done]. simpl in H.
  destruct (Hv _ _ H3) as [Hlt Hfuel].
  pose proof (skip_ws_length r3) as Hw3.
  destruct (skip_ws r3) as [|c' t'] eqn:Hwt; [done|]. simpl in Hw3.
  assert (∀ k, (String.length r2 - String.length r3 ≤ k)%nat →
               skip_value k r2 = Some r3) as Hmono.
  { intros k Hk. by apply (skip_value_mono _ k _ _ Hk) in Hfuel. }
  destruct c' as [[] [] [] [] [] [] [] []]; try done;
    first
      [ simplify_eq; split; [lia|];
        intros k Hk; destruct k as [|k]; [lia|];
        rewrite (skip_members_S _ _ _ _ _ _ _ r3 Hws Hq H1 H2
                   (Hmono (S k) ltac:(lia))), Hwt;
        done
      | destruct (IH _ _ H) as [Hlt' Hk']; split; [lia|];
        intros k Hk; destruct k as [|k]; [lia|];
        rewrite (skip_members_S _ _ _ _ _ _ _ r3 Hws Hq H1 H2
                   (Hmono (S k) ltac:(lia))), Hwt;
        exact (skip_members_mono (skip_value k) (skip_value (S k)) k k
                 t' r
                 (λ s0 r0, skip_value_mono k (S k) s0 r0 (Nat.le_succ_diag_r k))
                 (le_n _) (Hk' k ltac:(lia))) ].
Qed.

Lemma skip_value_fuel n : ∀ s r,
  skip_value n s = Some r →
  (String.length r < String.length s)%nat
  ∧ skip_value (String.length s - String.length r) s = Some r.
Proof.
  induction n as [|n IH]; intros s r H; [done|].
  enough ((String.length r < String.length s)%nat
          ∧ ∃ k, (k ≤ String.length s - String.length r)%nat
                 ∧ skip_value k s = Some r) as (Hlt & k & Hk & Hrun).
  { split; [done|]. by apply (skip_value_mono k). }
  pose proof (skip_ws_length s) as Hws.
  cbn [skip_value] in H.
  destruct (skip_ws s) as [|c t] eqn:Hs; [done|]. simpl in Hws.
  pose proof (skip_ws_length t) as Hwt'.
  destruct c as [[] [] [] [] [] [] [] []];
    first
      [ (* a literal, a string or a number *)
        assert (String.length r < S (String.length t))%nat
          by first [ pose proof (expect_length _ _ _ H); lia
                   | pose proof (skip_string_body_length _ _ _ (le_n _) H);
                     lia
                   | pose proof (skip_number_length _ _ H) as Hn;
                     simpl in Hn; lia ];
        split; [lia|]; exists 1%nat; split; [lia|];
        cbn [skip_value]; rewrite Hs; exact H
      | (* an array or an object *)
        destruct (skip_ws t) as [|c' t'] eqn:Hwt;
          [|destruct c' as [[] [] [] [] [] [] [] []]];
          first
            [ simplify_eq; simpl in Hwt';
              split; [lia|]; exists 1%nat; split; [lia|];
              cbn [skip_value]; rewrite Hs; cbn [skip_value];
              by rewrite Hwt
            | destruct (skip_elements_fuel n IH n t r H) as [Hlen Hk];
              split; [lia|];
              exists (S (String.length t - String.length r));
              split; [lia|];
              cbn [skip_value]; rewrite Hs; cbn [skip_value]; rewrite Hwt;
              exact (Hk _ (le_n _))
            | destruct (skip_members_fuel n IH n t r H) as [Hlen Hk];
              split; [lia|];
              exists (S (String.length t - String.length r));
              split; [lia|];
              cbn [skip_value]; rewrite Hs; cbn [skip_value]; rewrite Hwt;
              exact (Hk _ (le_n _)) ] ].
Qed.

(** Whatever fuel accepts a text, the length of the text accepts it. *)
Theorem is_JSON_fuel text n r :
  skip_value n text = Some r → skip_ws r = "" → is_JSON text = true.
Proof.
  intros H Hr. destruct (skip_value_fuel n text r H) as [Hlt Hrun].
  unfold is_JSON.
  rewrite (skip_value_mono _ (String.length text) _ _ (Nat.le_sub_l _ _) Hrun).
  by rewrite Hr.
Qed.

(** ** Canonical values *)

Lemma prune_arr xs : prune (JArr xs) = JArr (map elem_value xs).
Proof. done. Qed.

Lemma prune_obj fs : prune (JObj fs) = JObj (omap member_value fs).
Proof. done. Qed.

Lemma prune_defined v : defined v = true → prune v = v.
Proof.
  induction v as [| | | | |xs IH|fs IH] using json_ind_deep;
    intros Hd; try done.
  - rewrite prune_arr. f_equal. simpl in Hd.
    apply forallb_Forall_true in Hd.
    induction IH as [|x xs Hx Hxs IHxs]; [done|].
    apply Forall_cons in Hd as [Hdx Hdxs]. simpl. f_equal; [|auto].
    destruct x; try done; by apply Hx.
  - rewrite prune_obj. f_equal. simpl in Hd.
    apply forallb_Forall_true in Hd.
    induction IH as [|[k x] fs Hx Hfs IHfs]; [done|].
    apply Forall_cons in Hd as [Hdx Hdfs]. simpl in Hx, Hdx.
    cbn [omap list_omap]. rewrite IHfs by done.
    unfold member_value. simpl. rewrite (Hx Hdx). by destruct x.
Qed.

Lemma sort_keys_perm (fs : fields) : sort_keys fs ≡ₚ fs.
Proof. apply merge_sort_Permutation. Qed.

Lemma sort_keys_sorted (fs : fields) : StronglySorted key_le (sort_keys fs).
Proof. apply (StronglySorted_merge_sort _). Qed.

Lemma sorted_fields_is_data (fs : fields) :
  Forall (λ kv, is_data kv.2 = true →
                is_data (sortKeysRecursive kv.2) = true) fs →
  is_data (JObj fs) = true →
  is_data (sortKeysRecursive (JObj fs)) = true.
Proof.
  intros IH [Hnd Hall]%is_data_obj_inv. simpl. apply is_data_obj.
  - rewrite sort_keys_perm. by rewrite fmap_fst_sorted_values.
  - rewrite sort_keys_perm. apply Forall_fmap.
    rewrite Forall_forall in IH, Hall. apply Forall_forall.
    intros kv Hkv. simpl. auto.
Qed.

Lemma sortKeysRecursive_is_data v :
  is_data v = true → is_data (sortKeysRecursive v) = true.
Proof.
  induction v as [| | | | |xs IH|fs IH] using json_ind_deep; try done.
  - intros Hd. simpl. apply is_data_arr. apply Forall_fmap.
    unfold is_data in Hd. simpl in Hd.
    apply andb_true_iff in Hd as [Hu Hd].
    apply forallb_Forall_true in Hu, Hd.
    rewrite Forall_forall in IH, Hu, Hd. apply Forall_forall.
    intros x Hx. simpl. apply IH; [done|].
    apply andb_true_iff. auto.
  - by apply sorted_fields_is_data.
Qed.

Lemma sortKeysRecursive_unique_keys v :
  unique_keys v = true → unique_keys (sortKeysRecursive v) = true.
Proof.
  induction v as [| | | | |xs IH|fs IH] using json_ind_deep; try done.
  - simpl. intros Hu. apply forallb_Forall_true in Hu.
    apply forallb_Forall_true, Forall_fmap.
    rewrite Forall_forall in IH, Hu. apply Forall_forall.
    intros x Hx. simpl. auto.
  - simpl. intros [Hnd Hu]%andb_true_iff.
    apply bool_decide_eq_true in Hnd. apply forallb_Forall_true in Hu.
    apply andb_true_iff. split.
    + apply bool_decide_eq_true.
      rewrite sort_keys_perm. by rewrite fmap_fst_sorted_values.
    + apply forallb_Forall_true. rewrite sort_keys_perm. apply Forall_fmap.
      rewrite Forall_forall in IH, Hu. apply Forall_forall.
      intros kv Hkv. simpl. auto.
Qed.

Lemma sortKeysRecursive_idemp v :
  unique_keys v = true →
  sortKeysRecursive (sortKeysRecursive v) = sortKeysRecursive v.
Proof.
  induction v as [| | | | |xs IH|fs IH] using json_ind_deep; try done.
  - simpl. intros Hu. apply forallb_Forall_true in Hu. f_equal.
    rewrite map_map. apply map_ext_Forall.
    rewrite Forall_forall in IH, Hu. apply Forall_forall. auto.
  - simpl. intros [Hnd Hu]%andb_true_iff.
    apply bool_decide_eq_true in Hnd. apply forallb_Forall_true in Hu.
    f_equal. unfold sort_keys.
    set (gs := map (λ kv, (kv.1, sortKeysRecursive kv.2)) fs).
    assert (map (λ kv, (kv.1, sortKeysRecursive kv.2)) (merge_sort key_le gs)
            = merge_sort key_le gs) as ->.
    { rewrite <-(map_id (merge_sort key_le gs)) at 2.
      apply map_ext_Forall. rewrite merge_sort_Permutation.
      subst gs. apply Forall_fmap.
      rewrite Forall_forall in IH, Hu. apply Forall_forall.
      intros [k x] Hkv. simpl. f_equal. apply (IH _ Hkv), (Hu _ Hkv). }
    apply merge_sort_keys_sorted.
    + apply (StronglySorted_merge_sort _).
    + rewrite merge_sort_Permutation. subst gs.
      by rewrite fmap_fst_sorted_values.
Qed.

Lemma JSON_stringify_is_Some v : v ≠ JUndefined → is_Some (JSON_stringify v).
Proof. destruct v; try done; simpl; eauto. Qed.

(** The persisted text of a value reads back as the value in canonical
    key order, without what JSON text does not keep. *)
Theorem JSON_parse_encode v text :
  unique_keys v = true → encode v = Some text →
  JSON_parse text = Some (prune (sortKeysRecursive v)).
Proof.
  intros Hu. unfold encode, stringify.
  rewrite (sortKeysRecursive_idemp v Hu). intros Ht.
  apply JSON_parse_stringify; [|done]. by apply sortKeysRecursive_unique_keys.
Qed.

(** *** Property lookup *)

Lemma obj_get_elem k v (fs : fields) :
  NoDup fs.*1 → (k, v) ∈ fs → obj_get k fs = v.
Proof.
  induction fs as [|[k' v'] fs IH]; intros Hnd Hin.
  { by apply elem_of_nil in Hin. }
  rewrite fmap_cons in Hnd. apply NoDup_cons in Hnd as [Hk Hnd]. simpl in *.
  apply elem_of_cons in Hin as [[= -> ->]|Hin].
  - by rewrite decide_True.
  - rewrite decide_False; [by apply IH|].
    intros ->. apply Hk. by apply (list_elem_of_fmap_2 fst _ (k, v)).
Qed.

Lemma obj_get_absent k (fs : fields) : k ∉ fs.*1 → obj_get k fs = JUndefined.
Proof.
  induction fs as [|[k' v'] fs IH]; [done|].
  rewrite fmap_cons. intros [Hne Hk]%not_elem_of_cons. simpl in *.
  rewrite decide_False by done. auto.
Qed.

Lemma obj_get_perm k (fs gs : fields) :
  fs ≡ₚ gs → NoDup fs.*1 → obj_get k fs = obj_get k gs.
Proof.
  intros Hp Hnd.
  assert (NoDup gs.*1) as Hnd' by by rewrite <-Hp.
  destruct (decide (k ∈ fs.*1)) as [Hin|Hnin].
  - apply list_elem_of_fmap in Hin as ([k' v] & -> & Hin). simpl.
    rewrite (obj_get_elem k' v fs Hnd Hin).
    symmetry. apply obj_get_elem; [done|]. by rewrite <-Hp.
  - rewrite (obj_get_absent k fs Hnin).
    symmetry. apply obj_get_absent. by rewrite <-Hp.
Qed.

Lemma obj_get_map (g : json → json) k (fs : fields) :
  g JUndefined = JUndefined →
  obj_get k (map (λ kv, (kv.1, g kv.2)) fs) = g (obj_get k fs).
Proof.
  intros Hg. induction fs as [|[k' v'] fs IH]; simpl; [done|].
  by destruct (decide (k' = k)).
Qed.

Lemma obj_get_sorted k (fs : fields) :
  NoDup fs.*1 →
  obj_get k (sort_keys (map (λ kv, (kv.1, sortKeysRecursive kv.2)) fs))
  = sortKeysRecursive (obj_get k fs).
Proof.
  intros Hnd. rewrite <-(obj_get_map sortKeysRecursive) by done.
  apply obj_get_perm; [apply sort_keys_perm|].
  rewrite sort_keys_perm. by rewrite fmap_fst_sorted_values.
Qed.

Lemma obj_get_pruned k (fs : fields) :
  NoDup fs.*1 → obj_get k (omap member_value fs) = prune (obj_get k fs).
Proof.
  induction fs as [|[k' v'] fs IH]; [done|].
  rewrite fmap_cons. intros [Hk Hnd]%NoDup_cons. cbn [fst] in Hk.
  cbn [omap list_omap obj_get].
  assert (v' = JUndefined ∨ member_value (k', v') = Some (k', prune v'))
    as [->| ->] by (destruct v'; auto).
  - change (member_value (k', JUndefined)) with (@None (string * json)).
    cbv beta iota. rewrite IH by done.
    destruct (decide (k' = k)) as [->|]; [by rewrite obj_get_absent|done].
  - cbv beta iota. cbn [obj_get].
    destruct (decide (k' = k)); [done|auto].
Qed.

Lemma obj_get_set k x (fs : fields) : obj_get k (obj_set k x fs) = x.
Proof.
  induction fs as [|[k' v'] fs IH]; simpl.
  - by rewrite decide_True.
  - destruct (decide (k' = k)); simpl.
    + by rewrite decide_True.
    + by rewrite decide_False.
Qed.

Lemma obj_get_set_ne k k' x (fs : fields) :
  k ≠ k' → obj_get k' (obj_set k x fs) = obj_get k' fs.
Proof.
  intros Hne. induction fs as [|[k0 v0] fs IH]; simpl.
  - by rewrite decide_False.
  - destruct (decide (k0 = k)) as [->|]; simpl.
    + by rewrite !decide_False.
    + by rewrite IH.
Qed.

(** ** Running the transaction functions *)

Lemma encode_obj fs : ∃ t, encode (JObj fs) = Some (String "{" t).
Proof. unfold encode, stringify. simpl. eauto. Qed.

#[local] Opaque stringify sortKeysRecursive.

Lemma AssetExists_run id st :
  AssetExists id st = (Return (0 <? String.length (stored st id))%nat, st).
Proof. done. Qed.

Lemma AssetExists_true id st :
  AssetExists id st = (Return true, st)
  ↔ ∃ text, st !! id = Some text ∧ text ≠ "".
Proof.
  rewrite AssetExists_run. unfold stored. split.
  - intros [= H]. destruct (st !! id) as [[|c t]|]; simplify_eq/=. eauto.
  - intros ([|c t] & -> & Hne); done.
Qed.

Lemma AssetExists_false id st :
  AssetExists id st = (Return false, st) ↔ stored st id = "".
Proof.
  rewrite AssetExists_run. split.
  - intros [= H]. by destruct (stored st id).
  - by intros ->.
Qed.

Lemma ReadAsset_run id st :
  ReadAsset id st
  = if (String.length (stored st id) =? 0)%nat
    then (Throw (NotFound id), st) else (Return (stored st id), st).
Proof.
  unfold ReadAsset, mbind, tx_bind, getState. fold (stored st id).
  by destruct (String.length (stored st id) =? 0)%nat.
Qed.

Lemma CreateAsset_run id flavor size client cone value st :
  ∃ ret text,
    JSON_stringify (created_asset id flavor size client cone value) = Some ret
    ∧ encode (created_asset id flavor size client cone value) = Some text
    ∧ CreateAsset id flavor size client cone value st
      = if (0 <? String.length (stored st id))%nat
        then (Throw (AlreadyExists id), st)
        else (Return (Some ret), <[id := text]> st).
Proof.
  destruct (encode_obj
              [("ID", JStr id); ("Flavor", JStr flavor); ("Size", JStr size);
               ("Client", JStr client); ("Cone", JStr cone);
               ("Value", JStr value)]) as [t Ht].
  eexists _, _. split; [done|]. split; [exact Ht|].
  unfold CreateAsset, mbind, tx_bind. rewrite AssetExists_run.
  destruct (0 <? String.length (stored st id))%nat; [done|].
  unfold encode, created_asset in Ht. by rewrite Ht.
Qed.

Lemma DeleteAsset_run id st :
  DeleteAsset id st
  = if (0 <? String.length (stored st id))%nat
    then (Return (), delete id st) else (Throw (NotFound id), st).
Proof.
  unfold DeleteAsset, mbind, tx_bind. rewrite AssetExists_run.
  by destruct (0 <? String.length (stored st id))%nat.
Qed.

Lemma JSON_parse_nonempty text v : JSON_parse text = Some v → text ≠ "".
Proof. by intros H ->. Qed.

Lemma stored_lookup st id text : st !! id = Some text → stored st id = text.
Proof. unfold stored. by intros ->. Qed.

Lemma stored_insert st id text : stored (<[id := text]> st) id = text.
Proof. unfold stored. by rewrite lookup_insert_eq. Qed.

Lemma nonempty_length text : text ≠ "" → (0 <? String.length text)%nat = true.
Proof. by destruct text. Qed.

Lemma nonempty_length_eqb text :
  text ≠ "" → (String.length text =? 0)%nat = false.
Proof. by destruct text. Qed.

Lemma ReadAsset_after_write st id t :
  ReadAsset id (<[id := String "{" t]> st)
  = (Return (String "{" t), <[id := String "{" t]> st).
Proof. by rewrite ReadAsset_run, stored_insert. Qed.

Lemma UpdateAsset_run id flavor st text fs :
  st !! id = Some text → JSON_parse text = Some (JObj fs) →
  ∃ text', encode (updated_asset id flavor fs) = Some text'
           ∧ UpdateAsset id flavor st = (Return (), <[id := text']> st).
Proof.
  intros Hst Hparse.
  destruct (encode_obj
              [("ID", JStr id); ("Flavor", JStr flavor);
               ("Size", obj_get "Size" fs); ("Client", obj_get "Client" fs);
               ("Cone", obj_get "Cone" fs); ("Value", obj_get "Value" fs)])
    as [t Ht].
  exists (String "{" t). split; [exact Ht|].
  pose proof (JSON_parse_nonempty _ _ Hparse) as Hne.
  unfold UpdateAsset, mbind, tx_bind.
  rewrite AssetExists_run, (stored_lookup _ _ _ Hst), (nonempty_length _ Hne).
  cbn [negb]. rewrite ReadAsset_run, (stored_lookup _ _ _ Hst).
  rewrite (nonempty_length_eqb _ Hne).
  unfold JSON_parse_or_throw. rewrite Hparse. simpl.
  unfold encode in Ht. by rewrite Ht.
Qed.

Lemma UpdateAsset_returns id flavor st u st' :
  UpdateAsset id flavor st = (Return u, st') →
  ∃ t, st' = <[id := String "{" t]> st.
Proof.
  unfold UpdateAsset, mbind, tx_bind.
  rewrite AssetExists_run.
  destruct (stored st id) as [|c text] eqn:Hst; [done|].
  cbn [String.length Nat.ltb Nat.leb negb]. rewrite ReadAsset_run, Hst.
  cbn [String.length Nat.eqb].
  unfold JSON_parse_or_throw.
  destruct (JSON_parse (String c text)) as [asset|]; [|done].
  destruct asset as [| | | | | |fs]; simpl; try done;
    match goal with
    | |- context [stringify (sortKeysRecursive (JObj ?l))] =>
        destruct (encode_obj l) as [t Ht]; unfold encode in Ht; rewrite Ht
    end; simpl; intros [= <- <-]; eauto.
Qed.

Lemma TransferAsset_run id newOwner st text fs :
  st !! id = Some text → JSON_parse text = Some (JObj fs) →
  ∃ text', encode (JObj (obj_set "Client" (JStr newOwner) fs)) = Some text'
           ∧ TransferAsset id newOwner st
             = (Return (obj_get "Client" fs), <[id := text']> st).
Proof.
  intros Hst Hparse.
  destruct (encode_obj (obj_set "Client" (JStr newOwner) fs)) as [t Ht].
  exists (String "{" t). split; [exact Ht|].
  pose proof (JSON_parse_nonempty _ _ Hparse) as Hne.
  unfold TransferAsset, mbind, tx_bind.
  rewrite ReadAsset_run, (stored_lookup _ _ _ Hst).
  rewrite (nonempty_length_eqb _ Hne).
  unfold JSON_parse_or_throw. rewrite Hparse. simpl.
  unfold encode in Ht. by rewrite Ht.
Qed.

(** ** The fields of a persisted record *)

#[local] Transparent stringify sortKeysRecursive.

Lemma canonical_value v :
  is_data v = true ∨ v = JUndefined →
  prune (sortKeysRecursive v) = sortKeysRecursive v.
Proof.
  intros [Hd| ->]; [|done].
  apply prune_defined.
  by apply sortKeysRecursive_is_data, andb_true_iff in Hd as [_ ?].
Qed.

Lemma obj_get_is_data k fs :
  is_data (JObj fs) = true →
  is_data (obj_get k fs) = true ∨ obj_get k fs = JUndefined.
Proof.
  intros [_ Hall]%is_data_obj_inv.
  induction Hall as [|[k' v'] fs Hv Hall IH]; simpl; [by right|].
  destruct (decide (k' = k)); [by left|done].
Qed.

Lemma obj_get_unique_keys k fs :
  unique_keys (JObj fs) = true → unique_keys (obj_get k fs) = true.
Proof.
  simpl. intros [_ Hall]%andb_true_iff. apply forallb_Forall_true in Hall.
  induction Hall as [|[k' v'] fs Hv Hall IH]; simpl; [done|].
  by destruct (decide (k' = k)).
Qed.

(** Reading a persisted object back, field by field. *)
Lemma JSON_parse_encode_obj fs text :
  unique_keys (JObj fs) = true → encode (JObj fs) = Some text →
  ∃ fs', JSON_parse text = Some (JObj fs')
         ∧ ∀ k, obj_get k fs' = prune (sortKeysRecursive (obj_get k fs)).
Proof.
  intros Hu Ht. rewrite (JSON_parse_encode _ _ Hu Ht).
  change (sortKeysRecursive (JObj fs))
    with (JObj (sort_keys (map (λ kv, (kv.1, sortKeysRecursive kv.2)) fs))).
  rewrite prune_obj. eexists. split; [done|]. intros k.
  simpl in Hu. apply andb_true_iff in Hu as [Hnd _].
  apply bool_decide_eq_true in Hnd.
  rewrite obj_get_pruned.
  - by rewrite obj_get_sorted.
  - rewrite sort_keys_perm. by rewrite fmap_fst_sorted_values.
Qed.

(** A payload that is a canonical encoding holds canonical field values. *)
Lemma canonical_payload_fields v text fs k :
  is_data v = true → encode v = Some text →
  JSON_parse text = Some (JObj fs) →
  sortKeysRecursive (obj_get k fs) = obj_get k fs.
Proof.
  intros Hd Ht Hp. pose proof (JSON_parse_is_data _ _ Hp) as Hfs.
  pose proof Hd as [Hu _]%andb_true_iff.
  rewrite (JSON_parse_encode _ _ Hu Ht) in Hp.
  rewrite (canonical_value v (or_introl Hd)) in Hp. injection Hp as Hp.
  assert (sortKeysRecursive (JObj fs) = JObj fs) as Hfix.
  { rewrite <-Hp. by apply sortKeysRecursive_idemp. }
  apply is_data_obj_inv in Hfs as [Hnd _].
  rewrite <-(obj_get_sorted k fs Hnd).
  change (sortKeysRecursive (JObj fs))
    with (JObj (sort_keys (map (λ kv, (kv.1, sortKeysRecursive kv.2)) fs)))
    in Hfix.
  injection Hfix as Hfix. by rewrite Hfix.
Qed.

(** ** [CreateAsset] *)

Lemma created_asset_canonical id flavor size client cone value :
  prune (sortKeysRecursive (created_asset id flavor size client cone value))
  = JObj [("Client", JStr client); ("Cone", JStr cone);
          ("Flavor", JStr flavor); ("ID", JStr id); ("Size", JStr size);
          ("Value", JStr value)].
Proof. reflexivity. Qed.

(** [CreateAsset] on an id that holds nothing: what it returns, what it
    stores, and how both read back. *)
Lemma CreateAsset_fresh st id flavor size client cone value :
  stored st id = "" →
  ∃ ret text,
    CreateAsset id flavor size client cone value st
    = (Return (Some ret), <[id := text]> st)
    ∧ JSON_stringify (created_asset id flavor size client cone value)
      = Some ret
    ∧ encode (created_asset id flavor size client cone value) = Some text
    ∧ text ≠ ""
    ∧ JSON_parse ret
      = Some (created_asset id flavor size client cone value)
    ∧ JSON_parse text
      = Some (JObj [("Client", JStr client); ("Cone", JStr cone);
                    ("Flavor", JStr flavor); ("ID", JStr id);
                    ("Size", JStr size); ("Value", JStr value)]).
Proof.
  intros Hfree.
  destruct (CreateAsset_run id flavor size client cone value st)
    as (ret & text & Hret & Htext & Hrun).
  rewrite Hfree in Hrun. exists ret, text. split_and!; try done.
  - intros ->. destruct (encode_obj
      [("ID", JStr id); ("Flavor", JStr flavor); ("Size", JStr size);
       ("Client", JStr client); ("Cone", JStr cone); ("Value", JStr value)])
      as [t Ht].
    unfold created_asset in Htext. congruence.
  - exact (JSON_parse_stringify
             (created_asset id flavor size client cone value) ret
             eq_refl Hret).
  - rewrite <-created_asset_canonical.
    exact (JSON_parse_encode
             (created_asset id flavor size client cone value) text
             eq_refl Htext).
Qed.

(** C2. Create/Read round trip.  A successful [CreateAsset] persists the
    canonical encoding of the record built from its arguments, and
    [ReadAsset] then returns that text; the text decodes to the six fields
    [ID], [Flavor], [Size], [Client], [Cone] and [Value] with the values
    given, and to no [docType] field.  So it is on the seeded ledger for
    [CreateAsset("icecream10", "vanilla", "small", "Carmen", "sugar",
    "6000")], whereas the record [InitLedger] stored for [icecream1]
    carries [docType: "asset"]. *)
Theorem CreateAsset_record_has_no_docType :
  (∀ st id flavor size client cone value,
     ∃ ret text,
       let st' := <[id := text]> st in
       CreateAsset id flavor size client cone value st
       = (if (0 <? String.length (stored st id))%nat
          then (Throw (AlreadyExists id), st)
          else (Return (Some ret), st'))
       ∧ encode (created_asset id flavor size client cone value) = Some text
       ∧ ReadAsset id st' = (Return text, st')
       ∧ JSON_parse text
         = Some (JObj [("Client", JStr client); ("Cone", JStr cone);
                       ("Flavor", JStr flavor); ("ID", JStr id);
                       ("Size", JStr size); ("Value", JStr value)])
       ∧ field "docType" (record_of text) = JUndefined)
  ∧ (∃ ret text,
       CreateAsset "icecream10" "vanilla" "small" "Carmen" "sugar" "6000"
         seeded
       = (Return ret, <["icecream10" := text]> seeded)
       ∧ field "ID" (record_of text) = JStr "icecream10"
       ∧ field "Value" (record_of text) = JStr "6000"
       ∧ field "docType" (record_of text) = JUndefined)
  ∧ field "docType" (record_of (stored seeded "icecream1")) = JStr "asset".
Proof.
  split_and!.
  - intros st id flavor size client cone value.
    destruct (CreateAsset_run id flavor size client cone value st)
      as (ret & text & _ & Htext & Hrun).
    pose proof (JSON_parse_encode
                  (created_asset id flavor size client cone value)
                  text eq_refl Htext) as Hparse.
    rewrite created_asset_canonical in Hparse.
    exists ret, text. split_and!; [done..| |done|].
    + destruct (encode_obj
        [("ID", JStr id); ("Flavor", JStr flavor); ("Size", JStr size);
         ("Client", JStr client); ("Cone", JStr cone);
         ("Value", JStr value)]) as [t Ht].
      assert (text = String "{" t) as ->
        by (unfold created_asset in Htext; congruence).
      apply ReadAsset_after_write.
    + unfold record_of. by rewrite Hparse.
  - exists (JSON_stringify (created_asset "icecream10" "vanilla" "small"
                              "Carmen" "sugar" "6000")),
           (default "" (encode (created_asset "icecream10" "vanilla" "small"
                                  "Carmen" "sugar" "6000"))).
    split_and!; vm_compute; reflexivity.
  - vm_compute. reflexivity.
Qed.

(** C3. Create uniqueness: when [id] holds a live record, [CreateAsset]
    on [id] throws the already-exists error and leaves the world state as
    it was, so the value stored at [id] is still the earlier write. *)
Theorem CreateAsset_rejects_existing_id
    st id text flavor size client cone value :
  st !! id = Some text → text ≠ "" →
  AssetExists id st = (Return true, st)
  ∧ CreateAsset id flavor size client cone value st
    = (Throw (AlreadyExists id), st)
  ∧ ReadAsset id st = (Return text, st).
Proof.
  intros Hst Hne. split_and!.
  - apply AssetExists_true. eauto.
  - destruct (CreateAsset_run id flavor size client cone value st)
      as (ret & text' & _ & _ & ->).
    by rewrite (stored_lookup _ _ _ Hst), (nonempty_length _ Hne).
  - by rewrite ReadAsset_run, (stored_lookup _ _ _ Hst),
      (nonempty_length_eqb _ Hne).
Qed.

(** Two creates in a row: the second fails and the first write stays. *)
Lemma CreateAsset_twice st id f s c o v f' s' c' o' v' :
  stored st id = "" →
  ∃ ret text,
    CreateAsset id f s c o v st = (Return ret, <[id := text]> st)
    ∧ encode (created_asset id f s c o v) = Some text
    ∧ CreateAsset id f' s' c' o' v' (<[id := text]> st)
      = (Throw (AlreadyExists id), <[id := text]> st)
    ∧ ReadAsset id (<[id := text]> st) = (Return text, <[id := text]> st).
Proof.
  intros Hfree.
  destruct (CreateAsset_fresh st id f s c o v Hfree)
    as (ret & text & Hrun & _ & Htext & Hne & _).
  exists (Some ret), text. split_and!; try done.
  - destruct (CreateAsset_run id f' s' c' o' v' (<[id := text]> st))
      as (ret' & text' & _ & _ & ->).
    by rewrite stored_insert, (nonempty_length _ Hne).
  - by rewrite ReadAsset_run, stored_insert, (nonempty_length_eqb _ Hne).
Qed.

(** C9. The text [CreateAsset] returns.  For every successful create the
    returned text is [JSON.stringify] of the record in the order the fields
    were written in the source ([ID], [Flavor], [Size], [Client], [Cone],
    [Value]); it decodes to the same six fields as the persisted value,
    the persisted value is the canonical encoding of the record it decodes
    to, and the two texts are different. *)
Theorem CreateAsset_returns_construction_order
    st id flavor size client cone value :
  AssetExists id st = (Return false, st) →
  ∃ ret text,
    CreateAsset id flavor size client cone value st
    = (Return (Some ret), <[id := text]> st)
    ∧ JSON_stringify (created_asset id flavor size client cone value)
      = Some ret
    ∧ JSON_parse ret = Some (created_asset id flavor size client cone value)
    ∧ (∀ record, JSON_parse ret = Some record → encode record = Some text)
    ∧ JSON_parse text
      = Some (sortKeysRecursive
                (created_asset id flavor size client cone value))
    ∧ ret ≠ text.
Proof.
  intros Hfree%AssetExists_false.
  destruct (CreateAsset_fresh st id flavor size client cone value Hfree)
    as (ret & text & Hrun & Hret & Htext & Hne & Hpr & Hpt).
  exists ret, text. split_and!; try done.
  - intros record Hrec. congruence.
  - intros ->. rewrite Hpr in Hpt. discriminate.
Qed.

(** At a concrete input the returned text is not the persisted one. *)
Lemma CreateAsset_return_not_canonical :
  ∃ ret text,
    CreateAsset "icecream10" "vanilla" "small" "Carmen" "sugar" "6000" ∅
    = (Return (Some ret), <["icecream10" := text]> ∅)
    ∧ encode (created_asset "icecream10" "vanilla" "small" "Carmen" "sugar"
                "6000") = Some text
    ∧ ret ≠ text.
Proof.
  exists (default "" (JSON_stringify
            (created_asset "icecream10" "vanilla" "small" "Carmen" "sugar"
               "6000"))),
         (default "" (encode (created_asset "icecream10" "vanilla" "small"
                                "Carmen" "sugar" "6000"))).
  split_and!; [vm_compute; reflexivity..|].
  vm_compute. discriminate.
Qed.

(** ** [AssetExists] and [ReadAsset] *)

(** C7. Existence/read consistency: [AssetExists] always returns, and
    returns [true] exactly when a non-empty value is stored at the id; it
    is [true] right after a successful [CreateAsset] or [UpdateAsset] of the
    id, [false] right after a successful [DeleteAsset] and on an id never
    written; [ReadAsset] throws the not-found error exactly when
    [AssetExists] is [false], and throws nothing else. *)
Theorem existence_read_consistency (st : world) (id : string) :
  (∃ b, AssetExists id st = (Return b, st)
        ∧ (b = true ↔ ∃ text, st !! id = Some text ∧ text ≠ ""))
  ∧ (∀ f s c o v ret st',
       CreateAsset id f s c o v st = (Return ret, st') →
       AssetExists id st' = (Return true, st'))
  ∧ (∀ flavor u st',
       UpdateAsset id flavor st = (Return u, st') →
       AssetExists id st' = (Return true, st'))
  ∧ (∀ u st',
       DeleteAsset id st = (Return u, st') →
       AssetExists id st' = (Return false, st'))
  ∧ (st !! id = None → AssetExists id st = (Return false, st))
  ∧ AssetExists id ∅ = (Return false, ∅)
  ∧ (ReadAsset id st = (Throw (NotFound id), st)
     ↔ AssetExists id st = (Return false, st))
  ∧ (∀ e st', ReadAsset id st = (Throw e, st') → e = NotFound id ∧ st' = st).
Proof.
  split_and!.
  - eexists. split; [apply AssetExists_run|].
    rewrite <-AssetExists_true, AssetExists_run. split; congruence.
  - intros f s c o v ret st'.
    destruct (CreateAsset_run id f s c o v st)
      as (ret' & text & _ & Htext & ->).
    destruct (0 <? String.length (stored st id))%nat; [done|].
    intros [= <- <-]. apply AssetExists_true. exists text.
    rewrite lookup_insert_eq. split; [done|].
    intros ->. destruct (encode_obj
      [("ID", JStr id); ("Flavor", JStr f); ("Size", JStr s);
       ("Client", JStr c); ("Cone", JStr o); ("Value", JStr v)]) as [t Ht].
    unfold created_asset in Htext. congruence.
  - intros flavor u st' [t ->]%UpdateAsset_returns.
    apply AssetExists_true. exists (String "{" t).
    by rewrite lookup_insert_eq.
  - intros u st'. rewrite DeleteAsset_run.
    destruct (0 <? String.length (stored st id))%nat; [|done].
    intros [= <- <-]. apply AssetExists_false.
    unfold stored. by rewrite lookup_delete_eq.
  - intros Hnone. apply AssetExists_false. unfold stored. by rewrite Hnone.
  - done.
  - rewrite ReadAsset_run, AssetExists_run.
    destruct (stored st id) as [|c t]; [by split|].
    split; intros H; cbv in H; discriminate.
  - intros e st'. rewrite ReadAsset_run.
    destruct (String.length (stored st id) =? 0)%nat; [|done].
    by intros [= <- <-].
Qed.

(** ** [TransferAsset] and [UpdateAsset] *)

#[local] Transparent stringify sortKeysRecursive.

Lemma unique_keys_obj_set k x fs :
  unique_keys x = true → unique_keys (JObj fs) = true →
  unique_keys (JObj (obj_set k x fs)) = true.
Proof.
  simpl. intros Hx [Hnd Hall]%andb_true_iff.
  apply bool_decide_eq_true in Hnd. apply forallb_Forall_true in Hall.
  apply andb_true_iff. split.
  - apply bool_decide_eq_true. by apply obj_set_NoDup.
  - apply forallb_Forall_true. by apply obj_set_Forall.
Qed.

Lemma transferred_record fs newOwner text' :
  is_data (JObj fs) = true →
  encode (JObj (obj_set "Client" (JStr newOwner) fs)) = Some text' →
  ∃ fs', JSON_parse text' = Some (JObj fs')
         ∧ obj_get "Client" fs' = JStr newOwner
         ∧ ∀ k, k ≠ "Client" →
                obj_get k fs' = sortKeysRecursive (obj_get k fs).
Proof.
  intros Hd Htext'. pose proof Hd as [Hu _]%andb_true_iff.
  destruct (JSON_parse_encode_obj (obj_set "Client" (JStr newOwner) fs) text')
    as (fs' & Hparse' & Hfields); [by apply unique_keys_obj_set|done|].
  exists fs'. split_and!; [done| |].
  - by rewrite Hfields, obj_get_set.
  - intros k Hk. rewrite Hfields, obj_get_set_ne by done.
    apply canonical_value. by apply obj_get_is_data.
Qed.

(** C4. Transfer semantics: when the payload stored at [id] decodes to a
    record, [TransferAsset(id, newOwner)] returns the [Client] value the
    record held before the call and rewrites the payload; the new payload,
    which [ReadAsset(id)] then returns, decodes to a record whose [Client]
    is [newOwner] and whose every other field is the one stored before, in
    canonical key order, hence the very same value when the old payload
    was a canonical encoding. *)
Theorem TransferAsset_semantics st id newOwner text fs :
  st !! id = Some text → JSON_parse text = Some (JObj fs) →
  ∃ text' fs',
    TransferAsset id newOwner st
    = (Return (obj_get "Client" fs), <[id := text']> st)
    ∧ encode (JObj (obj_set "Client" (JStr newOwner) fs)) = Some text'
    ∧ ReadAsset id (<[id := text']> st) = (Return text', <[id := text']> st)
    ∧ JSON_parse text' = Some (JObj fs')
    ∧ obj_get "Client" fs' = JStr newOwner
    ∧ (∀ k, k ≠ "Client" →
            obj_get k fs' = sortKeysRecursive (obj_get k fs))
    ∧ (∀ v, is_data v = true → encode v = Some text →
            ∀ k, k ≠ "Client" → obj_get k fs' = obj_get k fs).
Proof.
  intros Hst Hparse.
  pose proof (JSON_parse_is_data _ _ Hparse) as Hd.
  destruct (TransferAsset_run id newOwner st text fs Hst Hparse)
    as (text' & Htext' & Hrun).
  destruct (transferred_record fs newOwner text' Hd Htext')
    as (fs' & Hparse' & Hclient & Hother).
  exists text', fs'. split_and!; try done.
  - destruct (encode_obj (obj_set "Client" (JStr newOwner) fs)) as [t Ht].
    assert (text' = String "{" t) as -> by congruence.
    apply ReadAsset_after_write.
  - intros v Hv Hvt k Hk. rewrite (Hother k Hk).
    by apply (canonical_payload_fields v text).
Qed.

Lemma unique_keys_updated_asset id flavor fs :
  unique_keys (JObj fs) = true →
  unique_keys (updated_asset id flavor fs) = true.
Proof.
  intros Hu. unfold updated_asset. simpl.
  by rewrite !(obj_get_unique_keys _ fs Hu).
Qed.

(** What [UpdateAsset] does to a stored record: when the payload stored at
    [id] decodes to a record, it is overwritten with the canonical encoding
    of a new record that has [Flavor] set to [flavor], [ID] set to [id],
    and [Size], [Client], [Cone] and [Value] as stored before; no other
    field of the old record is carried over. *)
Theorem UpdateAsset_semantics st id flavor text fs :
  st !! id = Some text → JSON_parse text = Some (JObj fs) →
  ∃ text' fs',
    UpdateAsset id flavor st = (Return (), <[id := text']> st)
    ∧ encode (updated_asset id flavor fs) = Some text'
    ∧ ReadAsset id (<[id := text']> st) = (Return text', <[id := text']> st)
    ∧ JSON_parse text' = Some (JObj fs')
    ∧ obj_get "Flavor" fs' = JStr flavor
    ∧ obj_get "ID" fs' = JStr id
    ∧ (∀ k, k ∈ ["Size"; "Client"; "Cone"; "Value"] →
            obj_get k fs' = sortKeysRecursive (obj_get k fs))
    ∧ (∀ v, is_data v = true → encode v = Some text →
            ∀ k, k ∈ ["Size"; "Client"; "Cone"; "Value"] →
                 obj_get k fs' = obj_get k fs)
    ∧ (∀ k, k ∉ ["ID"; "Flavor"; "Size"; "Client"; "Cone"; "Value"] →
            obj_get k fs' = JUndefined).
Proof.
  intros Hst Hparse.
  pose proof (JSON_parse_is_data _ _ Hparse) as Hd.
  pose proof Hd as [Hu _]%andb_true_iff.
  destruct (UpdateAsset_run id flavor st text fs Hst Hparse)
    as (text' & Htext' & Hrun).
  pose proof (unique_keys_updated_asset id flavor fs Hu) as Hu'.
  unfold updated_asset in Htext', Hu'.
  destruct (JSON_parse_encode_obj _ text' Hu' Htext')
    as (fs' & Hparse' & Hfields).
  assert (∀ k, k ∈ ["Size"; "Client"; "Cone"; "Value"] →
               obj_get k fs' = sortKeysRecursive (obj_get k fs)) as Hkept.
  { intros k Hk. rewrite Hfields.
    assert (∀ k', prune (sortKeysRecursive (obj_get k' fs))
                  = sortKeysRecursive (obj_get k' fs)) as Hcanon.
    { intros k'. apply canonical_value. by apply obj_get_is_data. }
    repeat (apply elem_of_cons in Hk as [->|Hk]; [apply Hcanon|]).
    by apply elem_of_nil in Hk. }
  exists text', fs'. split_and!; try done.
  - destruct (encode_obj
      [("ID", JStr id); ("Flavor", JStr flavor);
       ("Size", obj_get "Size" fs); ("Client", obj_get "Client" fs);
       ("Cone", obj_get "Cone" fs); ("Value", obj_get "Value" fs)])
      as [t Ht].
    assert (text' = String "{" t) as -> by congruence.
    apply ReadAsset_after_write.
  - intros v Hv Hvt k Hk. rewrite (Hkept k Hk).
    by apply (canonical_payload_fields v text).
  - intros k Hk. rewrite Hfields, obj_get_absent; [done|].
    exact Hk.
Qed.

(** C5. Update frame.  In the scenario of the specification, on the
    seeded ledger, [UpdateAsset("icecream1", "vanilla")] returns and the
    record read back afterwards has the new flavor and the [ID], [Size],
    [Client], [Cone] and [Value] it had, but differs from the one read
    before in one more field: its [docType], ["asset"] before the update,
    is undefined after it.  The same holds of every stored record:
    whatever it decodes to, the record [UpdateAsset] writes has no
    [docType]. *)
Theorem UpdateAsset_drops_docType :
  (let before := record_of (stored seeded "icecream1") in
   let st' := (UpdateAsset "icecream1" "vanilla" seeded).2 in
   let after := record_of (stored st' "icecream1") in
   UpdateAsset "icecream1" "vanilla" seeded = (Return (), st')
   ∧ field "Flavor" before = JStr "chocolate"
   ∧ field "Flavor" after = JStr "vanilla"
   ∧ Forall (λ k, field k after = field k before)
       ["ID"; "Size"; "Client"; "Cone"; "Value"]
   ∧ field "docType" before = JStr "asset"
   ∧ field "docType" after = JUndefined)
  ∧ (∀ st id flavor text fs,
       st !! id = Some text → JSON_parse text = Some (JObj fs) →
       ∃ text' fs',
         UpdateAsset id flavor st = (Return (), <[id := text']> st)
         ∧ JSON_parse text' = Some (JObj fs')
         ∧ obj_get "Flavor" fs' = JStr flavor
         ∧ obj_get "docType" fs' = JUndefined).
Proof.
  split.
  - split_and!; try (vm_compute; reflexivity).
    repeat constructor; vm_compute; reflexivity.
  - intros st id flavor text fs Hst Hparse.
    destruct (UpdateAsset_semantics st id flavor text fs Hst Hparse)
      as (text' & fs' & Hrun & _ & _ & Hparse' & Hflavor & _ & _ & _ & Hrest).
    exists text', fs'. split_and!; [done..|].
    apply Hrest. vm_compute. intros Hin.
    repeat (apply elem_of_cons in Hin as [Hin|Hin]; [discriminate|]).
    by apply elem_of_nil in Hin.
Qed.

(** ** [GetAllAssets] *)

Lemma in_range_open key : in_range "" "" key = true.
Proof. by destruct key. Qed.

Lemma filter_all {A} (P : A → Prop) `{∀ x, Decision (P x)} (l : list A) :
  (∀ x, P x) → filter P l = l.
Proof.
  intros HP. induction l as [|x l IH]; [done|].
  rewrite filter_cons, decide_True by done. by rewrite IH.
Qed.

Lemma getStateByRange_open st :
  getStateByRange "" "" st = (Return (scan st), st).
Proof.
  unfold getStateByRange, scan. rewrite filter_all; [done|].
  intros kv. apply in_range_open.
Qed.

Lemma GetAllAssets_loop_map iterator allResults :
  GetAllAssets_loop iterator allResults
  = allResults ++ map (λ result, record_of result.2) iterator.
Proof.
  revert allResults.
  induction iterator as [|result iterator IH]; intros allResults; simpl.
  - by rewrite app_nil_r.
  - rewrite IH, <-(assoc_L (++)). done.
Qed.

Lemma GetAllAssets_run st :
  GetAllAssets st
  = (Return (JSON_stringify
               (JArr (map (λ result, record_of result.2) (scan st)))), st).
Proof.
  unfold GetAllAssets, mbind, tx_bind. rewrite getStateByRange_open.
  by rewrite GetAllAssets_loop_map.
Qed.

Lemma scan_perm st : scan st ≡ₚ map_to_list st.
Proof. apply merge_sort_Permutation. Qed.

Lemma scan_sorted st : StronglySorted key_le (scan st).
Proof. apply (StronglySorted_merge_sort _). Qed.

Lemma scan_NoDup st : NoDup (scan st).*1.
Proof. rewrite scan_perm. apply NoDup_fst_map_to_list. Qed.

Lemma scan_elem st k text : (k, text) ∈ scan st ↔ st !! k = Some text.
Proof. rewrite scan_perm. apply elem_of_map_to_list. Qed.

(** Removing a key removes its entry from the scan and moves no other. *)
Lemma scan_delete st k text l1 l2 :
  scan st = l1 ++ (k, text) :: l2 → scan (delete k st) = l1 ++ l2.
Proof.
  intros Hscan.
  assert (st !! k = Some text) as Hk.
  { apply scan_elem. rewrite Hscan. apply elem_of_app. right. left. }
  pose proof (scan_sorted st) as Hsorted. rewrite Hscan in Hsorted.
  apply sorted_by_key_unique.
  - apply scan_sorted.
  - apply StronglySorted_app in Hsorted as (Hle & Hs1 & Hs2).
    apply StronglySorted_cons in Hs2 as [_ Hs2].
    apply StronglySorted_app_2; [|done..].
    intros x1 x2 Hx1 Hx2. apply Hle; [done|by right].
  - rewrite scan_perm. apply (Permutation_cons_inv (a := (k, text))).
    rewrite (map_to_list_delete st k text Hk), <-scan_perm, Hscan.
    by rewrite Permutation_middle.
  - apply scan_NoDup.
Qed.

(** C6. Scan order and deletion: [GetAllAssets] returns the records of
    the stored entries in ascending key order, one for each stored key;
    deleting the live key [k] with [DeleteAsset] and scanning again gives
    the same sequence without the entry of [k]. *)
Theorem GetAllAssets_order_and_deletion (st : world) :
  GetAllAssets st
  = (Return (JSON_stringify
               (JArr (map (λ result, record_of result.2) (scan st)))), st)
  ∧ StronglySorted key_le (scan st)
  ∧ NoDup (scan st).*1
  ∧ (∀ k text, (k, text) ∈ scan st ↔ st !! k = Some text)
  ∧ (∀ k, AssetExists k st = (Return true, st) →
       ∃ l1 text l2,
         scan st = l1 ++ (k, text) :: l2
         ∧ DeleteAsset k st = (Return (), delete k st)
         ∧ scan (delete k st) = l1 ++ l2
         ∧ GetAllAssets (delete k st)
           = (Return (JSON_stringify
                        (JArr (map (λ result, record_of result.2)
                                 (l1 ++ l2)))), delete k st)).
Proof.
  split_and!.
  - apply GetAllAssets_run.
  - apply scan_sorted.
  - apply scan_NoDup.
  - apply scan_elem.
  - intros k (text & Hk & Hne)%AssetExists_true.
    destruct (list_elem_of_split (scan st) (k, text)) as (l1 & l2 & Hscan).
    { by apply scan_elem. }
    exists l1, text, l2. split_and!; [done| | |].
    + by rewrite DeleteAsset_run, (stored_lookup _ _ _ Hk),
        (nonempty_length _ Hne).
    + by apply (scan_delete st k text).
    + by rewrite GetAllAssets_run, (scan_delete st k text l1 l2 Hscan).
Qed.

Lemma record_of_is_data text : is_data (record_of text) = true.
Proof.
  unfold record_of. destruct (JSON_parse text) as [v|] eqn:Hp; [|done].
  by apply (JSON_parse_is_data text).
Qed.

(** C8. Lenient scan: when a stored payload is not JSON text,
    [GetAllAssets] still returns; its result is the JSON array that holds,
    in scan order, the record of every entry before the malformed one, the
    raw payload as a string in its place, and the record of every entry
    after it; a well-formed entry before or after appears parsed, another
    malformed one as its raw payload.  The payloads before and after are
    taken where the reader does what [JSON.parse] does. *)
Theorem GetAllAssets_lenient st l1 k raw l2 :
  scan st = l1 ++ (k, raw) :: l2 → is_JSON raw = false →
  Forall (λ result, modelled result.2 = true) (l1 ++ l2) →
  let allResults :=
    map (λ result, record_of result.2) l1
    ++ JStr raw :: map (λ result, record_of result.2) l2 in
  ∃ text,
    GetAllAssets st = (Return (Some text), st)
    ∧ JSON_stringify (JArr allResults) = Some text
    ∧ JSON_parse text = Some (JArr allResults)
    ∧ (∀ result,
         result ∈ l1 ++ l2 → is_JSON result.2 = true →
         ∃ parsed, JSON_parse result.2 = Some parsed
                   ∧ record_of result.2 = parsed)
    ∧ (∀ result,
         result ∈ l1 ++ l2 → is_JSON result.2 = false →
         record_of result.2 = JStr result.2).
Proof.
  intros Hscan Hnot Hothers allResults.
  pose proof (not_JSON_parse raw Hnot) as Hraw.
  assert (map (λ result, record_of result.2) (scan st) = allResults) as Hall.
  { rewrite Hscan, map_app. simpl. unfold record_of at 2. by rewrite Hraw. }
  destruct (JSON_stringify_is_Some (JArr allResults)) as [text Htext];
    [done|].
  exists text. split_and!; [|done| | |].
  - by rewrite GetAllAssets_run, Hall, Htext.
  - assert (is_data (JArr allResults) = true) as Hd.
    { apply is_data_arr. rewrite <-Hall. apply Forall_fmap, Forall_forall.
      intros result _. apply record_of_is_data. }
    apply andb_true_iff in Hd as [Hu Hdef].
    rewrite (JSON_parse_stringify _ _ Hu Htext). by rewrite prune_defined.
  - intros result Hin Hjson. rewrite Forall_forall in Hothers.
    destruct (modelled_JSON result.2 (Hothers result Hin) Hjson)
      as [parsed Hp].
    exists parsed. split; [done|]. unfold record_of. by rewrite Hp.
  - intros result _ Hjson. unfold record_of.
    by rewrite (not_JSON_parse _ Hjson).
Qed.

(** ** The two creation paths *)

Lemma seeded_value_is_number asset :
  asset ∈ assets →
  ∃ id n, obj_get "ID" asset = JStr id
          ∧ obj_get "Value" asset = JNum n
          ∧ field "Value" (record_of (stored seeded id)) = JNum n.
Proof.
  intros Hin. unfold assets in Hin.
  repeat (apply elem_of_cons in Hin as [->|Hin];
          [eexists _, _; split_and!;
             [reflexivity|reflexivity|vm_compute; reflexivity]|]).
  by apply elem_of_nil in Hin.
Qed.

Lemma created_differs_from_seed id flavor size client cone n extra :
  extra = [] ∨ extra = [("docType", JStr "asset")] →
  encode (created_asset id flavor size client cone (string_of_Z n))
  ≠ encode (JObj (seed id flavor size client cone n ++ extra)).
Proof.
  intros Hextra Heq.
  destruct (encode_obj
              [("ID", JStr id); ("Flavor", JStr flavor); ("Size", JStr size);
               ("Client", JStr client); ("Cone", JStr cone);
               ("Value", JStr (string_of_Z n))]) as [t Ht].
  fold (created_asset id flavor size client cone (string_of_Z n)) in Ht.
  pose proof (JSON_parse_encode
                (created_asset id flavor size client cone (string_of_Z n))
                _ eq_refl Ht) as Hcreated.
  rewrite Heq in Ht.
  assert (unique_keys (JObj (seed id flavor size client cone n ++ extra))
          = true) as Hu by (by destruct Hextra as [-> | ->]).
  pose proof (JSON_parse_encode _ _ Hu Ht) as Hseed.
  rewrite Hcreated in Hseed.
  destruct Hextra as [-> | ->]; vm_compute in Hseed; discriminate.
Qed.

(** C10. The type of [Value] depends on the creation path: the record
    [CreateAsset] stores holds the caller's text as a string, every record
    [InitLedger] stores holds a number, and so a created record and a
    seeded record with the same id, flavor, size, client, cone and amount
    have different canonical encodings, with or without the [docType] tag
    of the seeded one. *)
Theorem Value_type_differs_by_creation_path :
  (∀ st id flavor size client cone value,
     ∃ ret text,
       CreateAsset id flavor size client cone value st
       = (if (0 <? String.length (stored st id))%nat
          then (Throw (AlreadyExists id), st)
          else (Return (Some ret), <[id := text]> st))
       ∧ encode (created_asset id flavor size client cone value) = Some text
       ∧ field "Value" (record_of text) = JStr value)
  ∧ (∀ asset, asset ∈ assets →
       ∃ id n, obj_get "ID" asset = JStr id
               ∧ obj_get "Value" asset = JNum n
               ∧ field "Value" (record_of (stored seeded id)) = JNum n)
  ∧ (∀ id flavor size client cone n,
       encode (created_asset id flavor size client cone (string_of_Z n))
       ≠ encode (JObj (obj_set "docType" (JStr "asset")
                         (seed id flavor size client cone n)))
       ∧ encode (created_asset id flavor size client cone (string_of_Z n))
         ≠ encode (JObj (seed id flavor size client cone n))).
Proof.
  split_and!.
  - intros st id flavor size client cone value.
    destruct (CreateAsset_run id flavor size client cone value st)
      as (ret & text & Hret & Htext & Hrun).
    exists ret, text. split_and!; [done..|].
    pose proof (JSON_parse_encode
                  (created_asset id flavor size client cone value)
                  text eq_refl Htext) as Hp.
    rewrite created_asset_canonical in Hp.
    unfold record_of. by rewrite Hp.
  - apply seeded_value_is_number.
  - intros id flavor size client cone n. split.
    + apply (created_differs_from_seed id flavor size client cone n
               [("docType", JStr "asset")]). by right.
    + rewrite <-(app_nil_r (seed id flavor size client cone n)).
      apply created_differs_from_seed. by left.
Qed.

(** ** The ledgers the contract produces

    Every value in a world state that a history of invocations builds from
    the empty ledger is the canonical encoding of an object with the six
    asset fields: the records the theorems above speak of are all the
    records there are. *)

Lemma sortKeysRecursive_undefined v :
  sortKeysRecursive v = JUndefined → v = JUndefined.
Proof. by destruct v. Qed.

Lemma asset_payload_encode fs text :
  is_data (JObj fs) = true →
  (∀ k, k ∈ asset_fields → obj_get k fs ≠ JUndefined) →
  encode (JObj fs) = Some text → asset_payload text.
Proof.
  intros Hd Hfields Htext.
  pose proof Hd as [Hu _]%andb_true_iff.
  pose proof Hd as [Hnd _]%is_data_obj_inv.
  pose proof (JSON_parse_encode _ _ Hu Htext) as Hparse.
  rewrite (canonical_value _ (or_introl Hd)) in Hparse.
  change (sortKeysRecursive (JObj fs))
    with (JObj (sort_keys (map (λ kv, (kv.1, sortKeysRecursive kv.2)) fs)))
    in Hparse.
  eexists. split; [exact Hparse|]. split.
  - change (JObj (sort_keys (map (λ kv, (kv.1, sortKeysRecursive kv.2)) fs)))
      with (sortKeysRecursive (JObj fs)).
    unfold encode, stringify in *.
    by rewrite !(sortKeysRecursive_idemp _ Hu) in *.
  - intros k Hk Hundef. rewrite (obj_get_sorted k fs Hnd) in Hundef.
    by apply sortKeysRecursive_undefined, Hfields in Hundef.
Qed.

Lemma ledger_ok_insert st id text :
  ledger_ok st → asset_payload text → ledger_ok (<[id := text]> st).
Proof.
  intros Hok Htext id' text'. rewrite lookup_insert.
  case_decide; [by intros [= <-]|apply Hok].
Qed.

Lemma ledger_ok_delete st id : ledger_ok st → ledger_ok (delete id st).
Proof.
  intros Hok id' text'. rewrite lookup_delete.
  case_decide; [done|apply Hok].
Qed.

Lemma asset_fields_cases (P : string → Prop) :
  P "ID" → P "Flavor" → P "Size" → P "Client" → P "Cone" → P "Value" →
  ∀ k, k ∈ asset_fields → P k.
Proof.
  intros ? ? ? ? ? ? k Hk. unfold asset_fields in Hk.
  repeat (apply elem_of_cons in Hk as [->|Hk]; [done|]).
  by apply elem_of_nil in Hk.
Qed.

Lemma InitLedger_loop_ok todo : ∀ st,
  Forall (λ asset,
            let asset' := obj_set "docType" (JStr "asset") asset in
            (∃ id, obj_get "ID" asset' = JStr id)
            ∧ is_data (JObj asset') = true
            ∧ ∀ k, k ∈ asset_fields → obj_get k asset' ≠ JUndefined) todo →
  ledger_ok st →
  ∃ st', InitLedger_loop todo st = (Return (), st') ∧ ledger_ok st'.
Proof.
  induction todo as [|asset todo IH]; intros st Hall Hok.
  { by exists st. }
  apply Forall_cons in Hall as [([id Hid] & Hd & Hfields) Hall].
  destruct (encode_obj (obj_set "docType" (JStr "asset") asset)) as [t Ht].
  destruct (IH (<[id := String "{" t]> st) Hall) as (st' & Hrun & Hok').
  { apply ledger_ok_insert; [done|]. by eapply asset_payload_encode. }
  exists st'. split; [|done].
  cbn [InitLedger_loop]. unfold mbind, tx_bind.
  rewrite Hid. unfold encode in Ht. rewrite Ht. exact Hrun.
Qed.

Lemma InitLedger_ok st :
  ledger_ok st → ∃ st', InitLedger st = (Return (), st') ∧ ledger_ok st'.
Proof.
  apply InitLedger_loop_ok. unfold assets.
  repeat (apply Forall_cons; split;
          [split_and!;
             [by eexists
             |reflexivity
             |by apply asset_fields_cases]|]).
  apply Forall_nil_2.
Qed.

Lemma is_data_updated_asset id flavor fs :
  is_data (JObj fs) = true →
  (∀ k, k ∈ asset_fields → obj_get k fs ≠ JUndefined) →
  is_data (updated_asset id flavor fs) = true.
Proof.
  intros Hd Hfields.
  assert (∀ k, k ∈ asset_fields → is_data (obj_get k fs) = true) as Hval.
  { intros k Hk. destruct (obj_get_is_data k fs Hd) as [?|Hu]; [done|].
    by apply Hfields in Hu. }
  apply is_data_obj.
  - apply (bool_decide_unpack _). by vm_compute.
  - repeat (apply Forall_cons; split;
            [first [done | apply Hval; unfold asset_fields;
                           repeat first [by left | right]]|]).
    apply Forall_nil_2.
Qed.

Lemma ledger_ok_submit c st : ledger_ok st → ledger_ok (submit c st).
Proof.
  intros Hok. destruct c as [|id f s c o v|id|id f|id|id|id owner|]; simpl.
  - unfold commit. by destruct (InitLedger_ok st Hok) as (st' & -> & ?).
  - unfold commit.
    destruct (CreateAsset_run id f s c o v st)
      as (ret & text & _ & Htext & ->).
    destruct (0 <? String.length (stored st id))%nat; [done|].
    apply ledger_ok_insert; [done|].
    apply (asset_payload_encode
             [("ID", JStr id); ("Flavor", JStr f); ("Size", JStr s);
              ("Client", JStr c); ("Cone", JStr o); ("Value", JStr v)]
             text eq_refl); [|exact Htext].
    by apply asset_fields_cases.
  - unfold commit. rewrite ReadAsset_run.
    by destruct (String.length (stored st id) =? 0)%nat.
  - unfold commit.
    destruct (UpdateAsset id f st) as [[u|e] st'] eqn:Hrun; [|done].
    destruct (st !! id) as [text|] eqn:Hst.
    + destruct (Hok id text Hst) as (fs & Hparse & _ & Hfields).
      destruct (UpdateAsset_run id f st text fs Hst Hparse)
        as (text' & Htext' & Hrun').
      rewrite Hrun' in Hrun. injection Hrun as _ <-.
      pose proof (JSON_parse_is_data _ _ Hparse) as Hd.
      apply ledger_ok_insert; [done|].
      apply (asset_payload_encode _ _
               (is_data_updated_asset id f fs Hd Hfields)); [|exact Htext'].
      apply asset_fields_cases; try done; cbn; apply Hfields;
        unfold asset_fields; repeat first [by left | right].
    + unfold UpdateAsset, mbind, tx_bind in Hrun.
      rewrite AssetExists_run in Hrun. unfold stored in Hrun.
      rewrite Hst in Hrun. discriminate.
  - unfold commit. rewrite DeleteAsset_run.
    destruct (0 <? String.length (stored st id))%nat; [|done].
    by apply ledger_ok_delete.
  - done.
  - unfold commit.
    destruct (TransferAsset id owner st) as [[u|e] st'] eqn:Hrun; [|done].
    destruct (st !! id) as [text|] eqn:Hst.
    + destruct (Hok id text Hst) as (fs & Hparse & _ & Hfields).
      destruct (TransferAsset_run id owner st text fs Hst Hparse)
        as (text' & Htext' & Hrun').
      rewrite Hrun' in Hrun. injection Hrun as _ <-.
      pose proof (JSON_parse_is_data _ _ Hparse) as Hd.
      apply is_data_obj_inv in Hd as [Hnd Hall].
      apply ledger_ok_insert; [done|].
      apply (asset_payload_encode (obj_set "Client" (JStr owner) fs));
        [| |exact Htext'].
      * apply is_data_obj; [by apply obj_set_NoDup|].
        by apply obj_set_Forall.
      * intros k Hk. destruct (decide (k = "Client")) as [->|Hne].
        -- by rewrite obj_get_set.
        -- rewrite obj_get_set_ne by done. by apply Hfields.
    + unfold TransferAsset, mbind, tx_bind in Hrun.
      rewrite ReadAsset_run in Hrun. unfold stored in Hrun.
      rewrite Hst in Hrun. discriminate.
  - unfold commit. by rewrite GetAllAssets_run.
Qed.

(** Whatever the history, every stored value is a canonical asset record,
    so every key of the ledger is live and its payload decodes. *)
Theorem ledger_records_canonical history id text :
  ledger_after history ∅ !! id = Some text →
  text ≠ "" ∧ asset_payload text.
Proof.
  assert (ledger_ok (ledger_after history ∅)) as Hok.
  { assert (ledger_ok ∅) as H0 by (intros ??; by rewrite lookup_empty).
    revert H0. generalize (∅ : world).
    induction history as [|c history IH]; intros st Hst; [done|].
    simpl. by apply IH, ledger_ok_submit. }
  intros Hst. pose proof (Hok id text Hst) as Hpayload.
  split; [|done].
  destruct Hpayload as (fs & Hparse & _). by eapply JSON_parse_nonempty.
Qed.

(** On such a ledger every key is live, and the two read-modify-write
    functions change what they say and nothing else of the record. *)
Lemma AssetExists_on_ledger history id text :
  let st := ledger_after history ∅ in
  st !! id = Some text → AssetExists id st = (Return true, st).
Proof.
  intros st Hst. apply AssetExists_true. exists text. split; [done|].
  by apply (ledger_records_canonical history id).
Qed.

Lemma TransferAsset_on_ledger history id text newOwner :
  let st := ledger_after history ∅ in
  st !! id = Some text →
  ∃ fs text' fs',
    JSON_parse text = Some (JObj fs)
    ∧ obj_get "Client" fs ≠ JUndefined
    ∧ TransferAsset id newOwner st
      = (Return (obj_get "Client" fs), <[id := text']> st)
    ∧ JSON_parse text' = Some (JObj fs')
    ∧ obj_get "Client" fs' = JStr newOwner
    ∧ ∀ k, k ≠ "Client" → obj_get k fs' = obj_get k fs.
Proof.
  intros st Hst.
  destruct (ledger_records_canonical history id text Hst)
    as (_ & fs & Hparse & Hcanon & Hfields).
  pose proof (JSON_parse_is_data _ _ Hparse) as Hd.
  destruct (TransferAsset_run id newOwner st text fs Hst Hparse)
    as (text' & Htext' & Hrun).
  destruct (transferred_record fs newOwner text' Hd Htext')
    as (fs' & Hparse' & Hclient & Hother).
  exists fs, text', fs'. split_and!; try done.
  - apply Hfields. unfold asset_fields. repeat first [by left | right].
  - intros k Hk. rewrite (Hother k Hk).
    by apply (canonical_payload_fields (JObj fs) text).
Qed.

Lemma UpdateAsset_on_ledger history id text flavor :
  let st := ledger_after history ∅ in
  st !! id = Some text →
  ∃ fs text' fs',
    JSON_parse text = Some (JObj fs)
    ∧ UpdateAsset id flavor st = (Return (), <[id := text']> st)
    ∧ JSON_parse text' = Some (JObj fs')
    ∧ obj_get "Flavor" fs' = JStr flavor
    ∧ obj_get "ID" fs' = JStr id
    ∧ (∀ k, k ∈ ["Size"; "Client"; "Cone"; "Value"] →
            obj_get k fs' = obj_get k fs)
    ∧ (∀ k, k ∉ asset_fields → obj_get k fs' = JUndefined).
Proof.
  intros st Hst.
  destruct (ledger_records_canonical history id text Hst)
    as (_ & fs & Hparse & Hcanon & Hfields).
  pose proof (JSON_parse_is_data _ _ Hparse) as Hd.
  destruct (UpdateAsset_semantics st id flavor text fs Hst Hparse)
    as (text' & fs' & Hrun & _ & _ & Hparse' & Hflavor & Hid & _ & Hkept
        & Hrest).
  exists fs, text', fs'. split_and!; try done.
  intros k Hk. by apply (Hkept (JObj fs)).
Qed.

(** ** The theorems at concrete inputs *)

Lemma encode_insertion_order_independent_witness :
  let box1 := JObj [("w", JNum 1); ("h", JNum 2)] in
  let box2 := JObj [("h", JNum 2); ("w", JNum 1)] in
  let v := JObj [("ID", JStr "a1"); ("Flavor", JStr "mint"); ("Box", box1)] in
  let w := JObj [("Box", box2); ("ID", JStr "a1"); ("Flavor", JStr "mint")] in
  same_value v w ∧ encode v = encode w.
Proof.
  intros box1 box2 v w.
  assert (same_value box1 box2) as Hbox.
  { apply (same_obj _ [("w", JNum 1); ("h", JNum 2)]).
    - repeat constructor.
    - apply perm_swap.
    - apply (bool_decide_unpack _). vm_compute. exact I. }
  assert (same_value v w) as Hsame.
  { apply (same_obj _ [("ID", JStr "a1"); ("Flavor", JStr "mint");
                       ("Box", box2)]).
    - repeat constructor. exact Hbox.
    - eapply perm_trans; [apply perm_skip, perm_swap|apply perm_swap].
    - apply (bool_decide_unpack _). vm_compute. exact I. }
  split; [exact Hsame|].
  apply (encode_insertion_order_independent v w Hsame).
Defined.

Lemma CreateAsset_rejects_existing_id_witness :
  seeded !! "icecream1" = Some (stored seeded "icecream1")
  ∧ stored seeded "icecream1" ≠ ""
  ∧ CreateAsset "icecream1" "mint" "big" "Eve" "cake" "1" seeded
    = (Throw (AlreadyExists "icecream1"), seeded).
Proof.
  assert (seeded !! "icecream1" = Some (stored seeded "icecream1")) as H1
    by (vm_compute; reflexivity).
  assert (stored seeded "icecream1" ≠ "") as H2
    by (vm_compute; discriminate).
  split_and!; [exact H1|exact H2|].
  apply (CreateAsset_rejects_existing_id seeded "icecream1"
           (stored seeded "icecream1") "mint" "big" "Eve" "cake" "1" H1 H2).
Defined.

Lemma TransferAsset_semantics_witness :
  let fs := [("Client", JStr "Paola"); ("Cone", JStr "sugar");
             ("Flavor", JStr "chocolate"); ("ID", JStr "icecream1");
             ("Size", JStr "medium"); ("Value", JNum 10000);
             ("docType", JStr "asset")] in
  seeded !! "icecream1" = Some (stored seeded "icecream1")
  ∧ JSON_parse (stored seeded "icecream1") = Some (JObj fs)
  ∧ ∃ text' fs',
      TransferAsset "icecream1" "Maria" seeded
      = (Return (JStr "Paola"), <["icecream1" := text']> seeded)
      ∧ JSON_parse text' = Some (JObj fs')
      ∧ obj_get "Client" fs' = JStr "Maria".
Proof.
  intros fs.
  assert (seeded !! "icecream1" = Some (stored seeded "icecream1")) as H1
    by (vm_compute; reflexivity).
  assert (JSON_parse (stored seeded "icecream1") = Some (JObj fs)) as H2
    by (vm_compute; reflexivity).
  split_and!; [exact H1|exact H2|].
  destruct (TransferAsset_semantics seeded "icecream1" "Maria"
              (stored seeded "icecream1") fs H1 H2)
    as (text' & fs' & Hrun & _ & _ & Hparse & Hclient & _).
  exists text', fs'. split_and!; [exact Hrun|exact Hparse|exact Hclient].
Defined.

Lemma GetAllAssets_lenient_witness :
  let st := <["icecream55" := "not json"]> seeded in
  let l1 := take 5 (scan seeded) in
  let l2 := drop 5 (scan seeded) in
  scan st = l1 ++ ("icecream55", "not json") :: l2
  ∧ is_JSON "not json" = false
  ∧ Forall (λ result, modelled result.2 = true) (l1 ++ l2)
  ∧ ∃ text,
      GetAllAssets st = (Return (Some text), st)
      ∧ JSON_parse text
        = Some (JArr (map (λ result, record_of result.2) l1
                      ++ JStr "not json"
                         :: map (λ result, record_of result.2) l2)).
Proof.
  intros st l1 l2.
  assert (scan st = l1 ++ ("icecream55", "not json") :: l2) as H1
    by (vm_compute; reflexivity).
  assert (is_JSON "not json" = false) as H2 by (vm_compute; reflexivity).
  assert (Forall (λ result : string * string, modelled result.2 = true)
            (l1 ++ l2)) as H3.
  { apply (forallb_Forall_true (λ result : string * string,
                                  modelled result.2)).
    vm_compute. reflexivity. }
  split_and!; [exact H1|exact H2|exact H3|].
  destruct (GetAllAssets_lenient st l1 "icecream55" "not json" l2 H1 H2 H3)
    as (text & Hrun & _ & Hparse & _).
  exists text. split; [exact Hrun|exact Hparse].
Defined.

Lemma CreateAsset_returns_construction_order_witness :
  AssetExists "icecream10" seeded = (Return false, seeded)
  ∧ ∃ ret text,
      CreateAsset "icecream10" "vanilla" "small" "Carmen" "sugar" "6000"
        seeded
      = (Return (Some ret), <["icecream10" := text]> seeded)
      ∧ JSON_parse ret
        = Some (created_asset "icecream10" "vanilla" "small" "Carmen"
                  "sugar" "6000")
      ∧ ret ≠ text.
Proof.
  assert (AssetExists "icecream10" seeded = (Return false, seeded)) as H1
    by (vm_compute; reflexivity).
  split; [exact H1|].
  destruct (CreateAsset_returns_construction_order seeded "icecream10"
              "vanilla" "small" "Carmen" "sugar" "6000" H1)
    as (ret & text & Hrun & _ & Hparse & _ & _ & Hne).
  exists ret, text. split_and!; [exact Hrun|exact Hparse|exact Hne].
Defined.

Lemma GetAllAssets_order_and_deletion_witness :
  AssetExists "icecream3" seeded = (Return true, seeded)
  ∧ ∃ l1 text l2,
      scan seeded = l1 ++ ("icecream3", text) :: l2
      ∧ DeleteAsset "icecream3" seeded
        = (Return (), delete "icecream3" seeded)
      ∧ scan (delete "icecream3" seeded) = l1 ++ l2.
Proof.
  assert (AssetExists "icecream3" seeded = (Return true, seeded)) as H1
    by (vm_compute; reflexivity).
  split; [exact H1|].
  destruct (GetAllAssets_order_and_deletion seeded)
    as (_ & _ & _ & _ & Hdel).
  destruct (Hdel "icecream3" H1) as (l1 & text & l2 & Hscan & Hrun & Hafter & _).
  exists l1, text, l2. split_and!; [exact Hscan|exact Hrun|exact Hafter].
Defined.

(** * Further properties of the contract *)

(** ** [InitLedger] *)

#[local] Opaque stringify sortKeysRecursive.

Lemma InitLedger_loop_union todo : ∀ m st : world,
  InitLedger_loop todo (m ∪ st)
  = ((InitLedger_loop todo m).1, (InitLedger_loop todo m).2 ∪ st).
Proof.
  induction todo as [|asset todo IH]; intros m st; [done|].
  cbn [InitLedger_loop]. unfold mbind, tx_bind.
  destruct (obj_get "ID" (obj_set "docType" (JStr "asset") asset));
    try done.
  cbn [key_of]. unfold mret, tx_ret.
  destruct (stringify
              (sortKeysRecursive
                 (JObj (obj_set "docType" (JStr "asset") asset))))
    as [buffer|]; [|done].
  cbn [Buffer_from]. unfold mret, tx_ret, putState.
  rewrite (insert_union_l m st). apply IH.
Qed.

#[local] Transparent stringify sortKeysRecursive.

Lemma InitLedger_empty : InitLedger ∅ = (Return (), seeded).
Proof. vm_compute. reflexivity. Qed.

Lemma InitLedger_run st : InitLedger st = (Return (), seeded ∪ st).
Proof.
  rewrite <-(left_id_L ∅ (∪) st) at 1. unfold InitLedger.
  rewrite InitLedger_loop_union. fold InitLedger.
  by rewrite InitLedger_empty.
Qed.

Lemma seeded_keys :
  dom seeded
  = list_to_set ["icecream1"; "icecream2"; "icecream3"; "icecream4";
                 "icecream5"; "icecream6"; "icecream7"; "icecream8";
                 "icecream9"].
Proof.
  apply set_eq. intros k. rewrite elem_of_dom, elem_of_list_to_set.
  rewrite <-(list_to_map_to_list seeded).
  assert (map_to_list seeded ≡ₚ scan seeded) as Hperm
    by (symmetry; apply scan_perm).
  split.
  - intros [text Hk]. rewrite list_to_map_to_list in Hk.
    apply scan_elem in Hk.
    apply (list_elem_of_fmap_2 fst) in Hk. simpl in Hk.
    assert ((scan seeded).*1
            = ["icecream1"; "icecream2"; "icecream3"; "icecream4";
               "icecream5"; "icecream6"; "icecream7"; "icecream8";
               "icecream9"]) as <- by (vm_compute; reflexivity).
    done.
  - intros Hk. rewrite list_to_map_to_list.
    repeat (apply elem_of_cons in Hk as [->|Hk];
            [eexists; vm_compute; reflexivity|]).
    by apply elem_of_nil in Hk.
Qed.

(** X1. [InitLedger] never throws: on every world state it writes the nine
    seed records over whatever their keys held and leaves every other key
    as it was, so running it again changes nothing.  What it writes are the
    keys [icecream1] to [icecream9], each with the canonical encoding of
    the row of the table and its [docType]. *)
Theorem InitLedger_overwrites_seed_keys (st : world) :
  InitLedger st = (Return (), seeded ∪ st)
  ∧ dom seeded
    = list_to_set ["icecream1"; "icecream2"; "icecream3"; "icecream4";
                   "icecream5"; "icecream6"; "icecream7"; "icecream8";
                   "icecream9"]
  ∧ map (λ kv, (kv.1, JSON_parse kv.2)) (scan seeded)
    = [("icecream1",
        Some (stored_seed "icecream1" "chocolate" "medium" "Paola" "sugar"
                10000));
       ("icecream2",
        Some (stored_seed "icecream2" "vanilla" "small" "Martha" "waffle"
                6000));
       ("icecream3",
        Some (stored_seed "icecream3" "mint" "big" "Anna" "cake" 15000));
       ("icecream4",
        Some (stored_seed "icecream4" "strawberry" "big" "Pablo" "waffle"
                15000));
       ("icecream5",
        Some (stored_seed "icecream5" "vanilla" "medium" "Manuel" "cake"
                10000));
       ("icecream6",
        Some (stored_seed "icecream6" "chocolate" "small" "Augusto" "sugar"
                6000));
       ("icecream7",
        Some (stored_seed "icecream7" "mint" "big" "Victoria" "waffle"
                15000));
       ("icecream8",
        Some (stored_seed "icecream8" "vanilla" "small" "Sandra" "cake"
                6000));
       ("icecream9",
        Some (stored_seed "icecream9" "brownie" "medium" "Hector" "cake"
                10000))]
  ∧ Forall (λ kv, encode (record_of kv.2) = Some kv.2) (scan seeded)
  ∧ (∀ id text, seeded !! id = Some text → (seeded ∪ st) !! id = Some text)
  ∧ (∀ id, id ∉ ["icecream1"; "icecream2"; "icecream3"; "icecream4";
                 "icecream5"; "icecream6"; "icecream7"; "icecream8";
                 "icecream9"] →
           (seeded ∪ st) !! id = st !! id)
  ∧ InitLedger (seeded ∪ st) = (Return (), seeded ∪ st).
Proof.
  split_and!.
  - apply InitLedger_run.
  - apply seeded_keys.
  - vm_compute. reflexivity.
  - assert (forallb (λ kv : string * string,
                       bool_decide (encode (record_of kv.2) = Some kv.2))
              (scan seeded) = true) as H by (vm_compute; reflexivity).
    apply forallb_Forall_true in H. eapply Forall_impl; [exact H|].
    intros kv Hkv. by apply bool_decide_eq_true_1 in Hkv.
  - intros id text Hid. by apply lookup_union_Some_l.
  - intros id Hid. apply lookup_union_r. apply not_elem_of_dom.
    rewrite seeded_keys, elem_of_list_to_set. done.
  - rewrite InitLedger_run. f_equal.
    by rewrite (assoc_L (∪)), (idemp_L (∪)).
Qed.

(** ** Outcomes of the read-modify-write functions *)

#[local] Opaque stringify sortKeysRecursive.

(** [UpdateAsset] by what is stored at the id. *)
Lemma UpdateAsset_cases id flavor st :
  UpdateAsset id flavor st
  = match stored st id with
    | "" => (Throw (NotFound id), st)
    | text =>
        match JSON_parse text with
        | None => (Throw SyntaxError, st)
        | Some JNull | Some JUndefined => (Throw TypeError, st)
        | Some (JObj fs) =>
            (Return (),
             <[id := default "" (encode (updated_asset id flavor fs))]> st)
        | Some _ =>
            (Return (),
             <[id := default "" (encode (updated_asset id flavor []))]> st)
        end
    end.
Proof.
  unfold UpdateAsset, mbind, tx_bind. rewrite AssetExists_run.
  destruct (stored st id) as [|c text] eqn:Hst; [done|].
  cbn [String.length Nat.ltb Nat.leb negb]. rewrite ReadAsset_run, Hst.
  cbn [String.length Nat.eqb]. unfold JSON_parse_or_throw.
  destruct (JSON_parse (String c text)) as [asset|]; [|done].
  destruct asset as [| | | | | |fs]; simpl; try done;
    match goal with
    | |- context [stringify (sortKeysRecursive (JObj ?l))] =>
        destruct (encode_obj l) as [t Ht];
        unfold updated_asset, encode in *; simpl in *; rewrite Ht
    end; done.
Qed.

(** [TransferAsset] by what is stored at the id. *)
Lemma TransferAsset_cases id newOwner st :
  TransferAsset id newOwner st
  = match stored st id with
    | "" => (Throw (NotFound id), st)
    | text =>
        match JSON_parse text with
        | None => (Throw SyntaxError, st)
        | Some (JObj fs) =>
            (Return (obj_get "Client" fs),
             <[id := default ""
                       (encode (JObj (obj_set "Client" (JStr newOwner) fs)))]>
               st)
        | Some (JArr xs) =>
            (Return JUndefined, <[id := default "" (encode (JArr xs))]> st)
        | Some _ => (Throw TypeError, st)
        end
    end.
Proof.
  unfold TransferAsset, mbind, tx_bind. rewrite ReadAsset_run.
  destruct (stored st id) as [|c text] eqn:Hst; [done|].
  cbn [String.length Nat.eqb]. unfold JSON_parse_or_throw.
  destruct (JSON_parse (String c text)) as [asset|]; [|done].
  destruct asset as [| | | | |xs|fs]; simpl; done.
Qed.

#[local] Transparent stringify sortKeysRecursive.

(** X2. Errors and atomicity.  [InitLedger], [AssetExists] and
    [GetAllAssets] never throw; [CreateAsset] throws nothing but the
    already-exists error, [ReadAsset] and [DeleteAsset] nothing but the
    not-found error, [UpdateAsset] and [TransferAsset] nothing but the
    not-found error, a [SyntaxError] or a [TypeError]; and whenever one of
    them throws, the world state is the one it was called on. *)
Theorem throw_leaves_world_state (st : world) (e : exn) (st' : world) :
  InitLedger st ≠ (Throw e, st')
  ∧ (∀ id, AssetExists id st ≠ (Throw e, st'))
  ∧ GetAllAssets st ≠ (Throw e, st')
  ∧ (∀ id flavor size client cone value,
       CreateAsset id flavor size client cone value st = (Throw e, st') →
       e = AlreadyExists id ∧ st' = st)
  ∧ (∀ id, ReadAsset id st = (Throw e, st') → e = NotFound id ∧ st' = st)
  ∧ (∀ id, DeleteAsset id st = (Throw e, st') → e = NotFound id ∧ st' = st)
  ∧ (∀ id flavor,
       UpdateAsset id flavor st = (Throw e, st') →
       (e = NotFound id ∨ e = SyntaxError ∨ e = TypeError) ∧ st' = st)
  ∧ (∀ id newOwner,
       TransferAsset id newOwner st = (Throw e, st') →
       (e = NotFound id ∨ e = SyntaxError ∨ e = TypeError) ∧ st' = st).
Proof.
  split_and!.
  - by rewrite InitLedger_run.
  - intros id. by rewrite AssetExists_run.
  - by rewrite GetAllAssets_run.
  - intros id flavor size client cone value.
    destruct (CreateAsset_run id flavor size client cone value st)
      as (ret & text & _ & _ & ->).
    destruct (0 <? String.length (stored st id))%nat; [|done].
    by intros [= <- <-].
  - intros id. rewrite ReadAsset_run.
    destruct (String.length (stored st id) =? 0)%nat; [|done].
    by intros [= <- <-].
  - intros id. rewrite DeleteAsset_run.
    destruct (0 <? String.length (stored st id))%nat; [done|].
    by intros [= <- <-].
  - intros id flavor. rewrite UpdateAsset_cases.
    destruct (stored st id) as [|c text]; [intros [= <- <-]; auto|].
    destruct (JSON_parse (String c text)) as [[| | | | | |]|];
      intros [= <- <-]; auto.
  - intros id newOwner. rewrite TransferAsset_cases.
    destruct (stored st id) as [|c text]; [intros [= <- <-]; auto|].
    destruct (JSON_parse (String c text)) as [[| | | | | |]|];
      intros [= <- <-]; auto.
Qed.

(** X3. Frame.  Whatever the outcome, [CreateAsset], [UpdateAsset],
    [DeleteAsset] and [TransferAsset] on [id] leave the value of every
    other key as it was, and [ReadAsset], [AssetExists] and [GetAllAssets]
    leave the whole world state as it was. *)
Theorem other_keys_untouched (st : world) (id : string) :
  (∀ flavor size client cone value out st',
     CreateAsset id flavor size client cone value st = (out, st') →
     ∀ id', id' ≠ id → st' !! id' = st !! id')
  ∧ (∀ flavor out st',
       UpdateAsset id flavor st = (out, st') →
       ∀ id', id' ≠ id → st' !! id' = st !! id')
  ∧ (∀ out st',
       DeleteAsset id st = (out, st') →
       ∀ id', id' ≠ id → st' !! id' = st !! id')
  ∧ (∀ newOwner out st',
       TransferAsset id newOwner st = (out, st') →
       ∀ id', id' ≠ id → st' !! id' = st !! id')
  ∧ (∀ out st', ReadAsset id st = (out, st') → st' = st)
  ∧ (∀ out st', AssetExists id st = (out, st') → st' = st)
  ∧ (∀ out st', GetAllAssets st = (out, st') → st' = st).
Proof.
  split_and!.
  - intros flavor size client cone value out st'.
    destruct (CreateAsset_run id flavor size client cone value st)
      as (ret & text & _ & _ & ->).
    destruct (0 <? String.length (stored st id))%nat;
      intros [= <- <-] id' Hne; [done|by rewrite lookup_insert_ne].
  - intros flavor out st'. rewrite UpdateAsset_cases.
    destruct (stored st id) as [|c text]; [by intros [= <- <-]|].
    destruct (JSON_parse (String c text)) as [[| | | | | |]|];
      intros [= <- <-] id' Hne; by rewrite ?lookup_insert_ne.
  - intros out st'. rewrite DeleteAsset_run.
    destruct (0 <? String.length (stored st id))%nat;
      intros [= <- <-] id' Hne; [by rewrite lookup_delete_ne|done].
  - intros newOwner out st'. rewrite TransferAsset_cases.
    destruct (stored st id) as [|c text]; [by intros [= <- <-]|].
    destruct (JSON_parse (String c text)) as [[| | | | | |]|];
      intros [= <- <-] id' Hne; by rewrite ?lookup_insert_ne.
  - intros out st'. rewrite ReadAsset_run.
    by destruct (String.length (stored st id) =? 0)%nat; intros [= <- <-].
  - intros out st'. rewrite AssetExists_run. by intros [= <- <-].
  - intros out st'. rewrite GetAllAssets_run. by intros [= <- <-].
Qed.

Lemma stored_delete st id : stored (delete id st) id = "".
Proof. unfold stored. by rewrite lookup_delete_eq. Qed.

(** X4. Deleting and creating again.  [DeleteAsset] of a live id removes
    the key; right afterwards [AssetExists] is false, [ReadAsset],
    [UpdateAsset], [TransferAsset] and a second [DeleteAsset] throw the
    not-found error, and [CreateAsset] succeeds again, leaving the world
    state a direct overwrite of the old value would have left. *)
Theorem DeleteAsset_then_anything st id :
  AssetExists id st = (Return true, st) →
  let st' := delete id st in
  DeleteAsset id st = (Return (), st')
  ∧ AssetExists id st' = (Return false, st')
  ∧ ReadAsset id st' = (Throw (NotFound id), st')
  ∧ DeleteAsset id st' = (Throw (NotFound id), st')
  ∧ (∀ flavor, UpdateAsset id flavor st' = (Throw (NotFound id), st'))
  ∧ (∀ newOwner, TransferAsset id newOwner st' = (Throw (NotFound id), st'))
  ∧ (∀ flavor size client cone value,
       ∃ ret text,
         CreateAsset id flavor size client cone value st'
         = (Return (Some ret), <[id := text]> st)
         ∧ encode (created_asset id flavor size client cone value)
           = Some text).
Proof.
  intros (text & Hst & Hne)%AssetExists_true st'.
  pose proof (stored_delete st id) as Hgone. fold st' in Hgone.
  split_and!.
  - by rewrite DeleteAsset_run, (stored_lookup _ _ _ Hst),
      (nonempty_length _ Hne).
  - by apply AssetExists_false.
  - by rewrite ReadAsset_run, Hgone.
  - by rewrite DeleteAsset_run, Hgone.
  - intros flavor. by rewrite UpdateAsset_cases, Hgone.
  - intros newOwner. by rewrite TransferAsset_cases, Hgone.
  - intros flavor size client cone value.
    destruct (CreateAsset_run id flavor size client cone value st')
      as (ret & text' & _ & Htext & Hrun).
    rewrite Hgone in Hrun. exists ret, text'. split; [|done].
    rewrite Hrun. unfold st'. by rewrite insert_delete_eq.
Qed.

Lemma DeleteAsset_then_anything_witness :
  AssetExists "icecream2" seeded = (Return true, seeded)
  ∧ DeleteAsset "icecream2" seeded = (Return (), delete "icecream2" seeded)
  ∧ ReadAsset "icecream2" (delete "icecream2" seeded)
    = (Throw (NotFound "icecream2"), delete "icecream2" seeded).
Proof.
  assert (AssetExists "icecream2" seeded = (Return true, seeded)) as H
    by (vm_compute; reflexivity).
  destruct (DeleteAsset_then_anything seeded "icecream2" H)
    as (Hdel & _ & Hread & _).
  split_and!; [exact H|exact Hdel|exact Hread].
Defined.

Lemma JSON_parse_updated_bare id flavor :
  ∃ text, encode (updated_asset id flavor []) = Some text
          ∧ JSON_parse text
            = Some (JObj [("Flavor", JStr flavor); ("ID", JStr id)]).
Proof.
  destruct (encode_obj
              [("ID", JStr id); ("Flavor", JStr flavor);
               ("Size", JUndefined); ("Client", JUndefined);
               ("Cone", JUndefined); ("Value", JUndefined)]) as [t Ht].
  exists (String "{" t). split; [exact Ht|].
  exact (JSON_parse_encode (updated_asset id flavor []) _ eq_refl Ht).
Qed.

(** X5. [UpdateAsset] by what the id holds: nothing or an empty value, the
    not-found error; text that is not JSON, a [SyntaxError]; the
    JSON [null], a [TypeError]; any other JSON value that is not an object
    (a number, a string, a boolean, an array), success, the value being
    replaced by a record with the two fields [ID] and [Flavor] alone; an
    object, success, the value being replaced by the encoding of the six
    fields built from it.  No failure writes. *)
Theorem UpdateAsset_outcomes st id flavor :
  (stored st id = "" → UpdateAsset id flavor st = (Throw (NotFound id), st))
  ∧ (stored st id ≠ "" → is_JSON (stored st id) = false →
     UpdateAsset id flavor st = (Throw SyntaxError, st))
  ∧ (JSON_parse (stored st id) = Some JNull →
     UpdateAsset id flavor st = (Throw TypeError, st))
  ∧ (∀ v, JSON_parse (stored st id) = Some v →
          v ≠ JNull → (∀ fs, v ≠ JObj fs) →
          ∃ text',
            UpdateAsset id flavor st = (Return (), <[id := text']> st)
            ∧ JSON_parse text'
              = Some (JObj [("Flavor", JStr flavor); ("ID", JStr id)]))
  ∧ (∀ fs, JSON_parse (stored st id) = Some (JObj fs) →
           ∃ text',
             UpdateAsset id flavor st = (Return (), <[id := text']> st)
             ∧ encode (updated_asset id flavor fs) = Some text').
Proof.
  split_and!.
  - intros Hst. by rewrite UpdateAsset_cases, Hst.
  - intros Hst Hparse%not_JSON_parse. rewrite UpdateAsset_cases.
    destruct (stored st id); [done|]. by rewrite Hparse.
  - intros Hparse. rewrite UpdateAsset_cases.
    destruct (stored st id); [done|]. by rewrite Hparse.
  - intros v Hparse Hnull Hobj.
    destruct (JSON_parse_updated_bare id flavor) as (text' & Htext' & Hp').
    exists text'. split; [|done].
    rewrite UpdateAsset_cases, Htext'.
    pose proof (JSON_parse_is_data _ _ Hparse) as Hd.
    destruct (stored st id); [done|]. rewrite Hparse.
    destruct v; try done. by destruct (Hobj fs).
  - intros fs Hparse.
    destruct (encode_obj
                [("ID", JStr id); ("Flavor", JStr flavor);
                 ("Size", obj_get "Size" fs); ("Client", obj_get "Client" fs);
                 ("Cone", obj_get "Cone" fs); ("Value", obj_get "Value" fs)])
      as [t Ht].
    exists (String "{" t). split; [|exact Ht].
    rewrite UpdateAsset_cases.
    destruct (stored st id); [done|]. rewrite Hparse.
    unfold updated_asset. by rewrite Ht.
Qed.

(** X6. [TransferAsset] by what the id holds: nothing or an empty value,
    the not-found error; text that is not JSON, a [SyntaxError];
    the JSON [null], a number, a string or a boolean, a [TypeError], the
    source being in strict mode; an object without a [Client] field,
    success, returning [undefined] and storing the object with [Client]
    added.  No failure writes. *)
Theorem TransferAsset_outcomes st id newOwner :
  (stored st id = "" →
   TransferAsset id newOwner st = (Throw (NotFound id), st))
  ∧ (stored st id ≠ "" → is_JSON (stored st id) = false →
     TransferAsset id newOwner st = (Throw SyntaxError, st))
  ∧ (∀ v, JSON_parse (stored st id) = Some v →
          (∀ fs, v ≠ JObj fs) → (∀ xs, v ≠ JArr xs) →
          TransferAsset id newOwner st = (Throw TypeError, st))
  ∧ (∀ fs, JSON_parse (stored st id) = Some (JObj fs) →
           "Client" ∉ fs.*1 →
           ∃ text' fs',
             TransferAsset id newOwner st
             = (Return JUndefined, <[id := text']> st)
             ∧ encode (JObj (fs ++ [("Client", JStr newOwner)])) = Some text'
             ∧ JSON_parse text' = Some (JObj fs')
             ∧ obj_get "Client" fs' = JStr newOwner).
Proof.
  split_and!.
  - intros Hst. by rewrite TransferAsset_cases, Hst.
  - intros Hst Hparse%not_JSON_parse. rewrite TransferAsset_cases.
    destruct (stored st id); [done|]. by rewrite Hparse.
  - intros v Hparse Hobj Harr. rewrite TransferAsset_cases.
    destruct (stored st id); [done|]. rewrite Hparse.
    destruct v; try done; [by destruct (Harr xs)|by destruct (Hobj fs)].
  - intros fs Hparse Hclient.
    pose proof (JSON_parse_is_data _ _ Hparse) as Hd.
    destruct (encode_obj (obj_set "Client" (JStr newOwner) fs)) as [t Ht].
    destruct (transferred_record fs newOwner _ Hd Ht)
      as (fs' & Hparse' & Hc & _).
    exists (String "{" t), fs'. split_and!; try done.
    + rewrite TransferAsset_cases.
      destruct (stored st id); [done|]. rewrite Hparse, Ht.
      by rewrite (obj_get_absent _ _ Hclient).
    + by rewrite <-(obj_set_fresh _ _ _ Hclient).
Qed.

(** ** More on [GetAllAssets] *)

(** What [GetAllAssets] returns, read back. *)
Lemma GetAllAssets_parse (st : world) :
  ∃ text,
    GetAllAssets st = (Return (Some text), st)
    ∧ JSON_parse text
      = Some (JArr (map (λ result, record_of result.2) (scan st))).
Proof.
  set (allResults := map (λ result, record_of result.2) (scan st)).
  destruct (JSON_stringify_is_Some (JArr allResults)) as [text Htext];
    [done|].
  exists text. split.
  - by rewrite GetAllAssets_run, <-Htext.
  - assert (is_data (JArr allResults) = true) as Hd.
    { apply is_data_arr. apply Forall_fmap, Forall_forall.
      intros result _. apply record_of_is_data. }
    apply andb_true_iff in Hd as [Hu Hdef].
    rewrite (JSON_parse_stringify _ _ Hu Htext). by rewrite prune_defined.
Qed.


(** ** The scan after a write *)

Lemma sorted_replace_value {V} (l1 l2 : list (string * V)) k v v' :
  StronglySorted key_le (l1 ++ (k, v) :: l2) →
  StronglySorted key_le (l1 ++ (k, v') :: l2).
Proof.
  rewrite !StronglySorted_app, !StronglySorted_cons.
  intros (Hle & Hs1 & Hk & Hs2). split_and!; try done.
  intros x1 x2 Hx1 [->|Hx2]%elem_of_cons.
  - apply (Hle x1 (k, v)); [done|left].
  - apply Hle; [done|by right].
Qed.

(** Overwriting a key keeps its place in the scan. *)
Lemma scan_overwrite st k v v' l1 l2 :
  scan st = l1 ++ (k, v) :: l2 →
  scan (<[k := v']> st) = l1 ++ (k, v') :: l2.
Proof.
  intros Hscan.
  pose proof (scan_sorted st) as Hsorted. rewrite Hscan in Hsorted.
  pose proof (scan_delete st k v l1 l2 Hscan) as Hdel.
  apply sorted_by_key_unique.
  - apply scan_sorted.
  - by apply (sorted_replace_value l1 l2 k v v').
  - rewrite scan_perm, <-(insert_delete_eq st).
    rewrite map_to_list_insert by apply lookup_delete_eq.
    rewrite <-scan_perm, Hdel. by rewrite Permutation_middle.
  - apply scan_NoDup.
Qed.

(** Writing a new key puts one entry into the scan and moves no other. *)
Lemma scan_insert_fresh st k v :
  st !! k = None →
  ∃ l1 l2, scan st = l1 ++ l2 ∧ scan (<[k := v]> st) = l1 ++ (k, v) :: l2.
Proof.
  intros Hfresh.
  destruct (list_elem_of_split (scan (<[k := v]> st)) (k, v))
    as (l1 & l2 & Hscan).
  { apply scan_elem, lookup_insert_eq. }
  exists l1, l2. split; [|done].
  rewrite <-(scan_delete _ k v l1 l2 Hscan).
  by rewrite delete_insert_id.
Qed.

(** X8. Writes and the scan.  [CreateAsset] on a key that holds nothing
    adds one entry to the scan, at the place of its key; a successful
    [UpdateAsset] or [TransferAsset] replaces the entry of its key where it
    stands.  Every other entry keeps its payload and its position. *)
Theorem writes_keep_scan_order (st : world) (id : string) :
  (∀ flavor size client cone value,
     st !! id = None →
     ∃ ret text l1 l2,
       CreateAsset id flavor size client cone value st
       = (Return (Some ret), <[id := text]> st)
       ∧ scan st = l1 ++ l2
       ∧ scan (<[id := text]> st) = l1 ++ (id, text) :: l2)
  ∧ (∀ flavor u st',
       UpdateAsset id flavor st = (Return u, st') →
       ∃ l1 old new l2,
         scan st = l1 ++ (id, old) :: l2 ∧ scan st' = l1 ++ (id, new) :: l2)
  ∧ (∀ newOwner oldOwner st',
       TransferAsset id newOwner st = (Return oldOwner, st') →
       ∃ l1 old new l2,
         scan st = l1 ++ (id, old) :: l2 ∧ scan st' = l1 ++ (id, new) :: l2).
Proof.
  assert (∀ text', stored st id ≠ "" →
            ∃ l1 old new l2,
              scan st = l1 ++ (id, old) :: l2
              ∧ scan (<[id := text']> st) = l1 ++ (id, new) :: l2) as Hover.
  { intros text' Hne. unfold stored in Hne.
    destruct (st !! id) as [old|] eqn:Hst; [|done].
    destruct (list_elem_of_split (scan st) (id, old)) as (l1 & l2 & Hscan).
    { by apply scan_elem. }
    exists l1, old, text', l2. split; [done|].
    by apply (scan_overwrite st id old). }
  split_and!.
  - intros flavor size client cone value Hfresh.
    destruct (CreateAsset_fresh st id flavor size client cone value)
      as (ret & text & Hrun & _); [unfold stored; by rewrite Hfresh|].
    destruct (scan_insert_fresh st id text Hfresh) as (l1 & l2 & H1 & H2).
    by exists ret, text, l1, l2.
  - intros flavor u st'. rewrite UpdateAsset_cases.
    destruct (stored st id) as [|c text] eqn:Hst; [done|].
    destruct (JSON_parse (String c text)) as [[| | | | | |]|];
      intros [= <- <-]; by apply Hover.
  - intros newOwner oldOwner st'. rewrite TransferAsset_cases.
    destruct (stored st id) as [|c text] eqn:Hst; [done|].
    destruct (JSON_parse (String c text)) as [[| | | | | |]|];
      intros [= <- <-]; by apply Hover.
Qed.

(** ** The records of a ledger the contract built *)

Lemma asset_member_scalar id kv :
  asset_member id kv = true → is_amount kv.2 = true.
Proof.
  unfold asset_member. destruct kv as [k v]; simpl.
  repeat case_decide; destruct v; done.
Qed.

Lemma scalar_is_data v : is_amount v = true → is_data v = true.
Proof. by destruct v. Qed.

Lemma scalar_sorted v : is_amount v = true → sortKeysRecursive v = v.
Proof. by destruct v. Qed.

Lemma asset_record_inv id fs :
  asset_record id fs = true →
  Forall (λ kv, asset_member id kv = true) fs
  ∧ ∀ k, k ∈ asset_fields → k ∈ fs.*1.
Proof.
  intros [Hm Hk]%andb_true_iff. apply forallb_Forall_true in Hm, Hk.
  split; [done|]. intros k Hin. rewrite Forall_forall in Hk.
  exact (bool_decide_eq_true_1 _ (Hk k Hin)).
Qed.

Lemma asset_record_intro id fs :
  Forall (λ kv, asset_member id kv = true) fs →
  (∀ k, k ∈ asset_fields → k ∈ fs.*1) →
  asset_record id fs = true.
Proof.
  intros Hm Hk. apply andb_true_iff.
  split; apply forallb_Forall_true; [done|].
  apply Forall_forall. intros k Hin. by apply bool_decide_eq_true_2, Hk.
Qed.

Lemma asset_record_perm id fs gs :
  fs ≡ₚ gs → asset_record id fs = true → asset_record id gs = true.
Proof.
  intros Hp [Hm Hk]%asset_record_inv. apply asset_record_intro.
  - by rewrite <-Hp.
  - intros k Hin. rewrite <-Hp. by apply Hk.
Qed.

(** The member an asset record has for a key. *)
Lemma asset_record_get id fs k :
  asset_record id fs = true → k ∈ fs.*1 →
  asset_member id (k, obj_get k fs) = true.
Proof.
  intros [Hm _]%asset_record_inv. clear -Hm.
  induction Hm as [|[k' v'] fs Hkv Hm IH]; intros Hin.
  { by apply elem_of_nil in Hin. }
  rewrite fmap_cons in Hin. simpl.
  destruct (decide (k' = k)) as [->|Hne]; [done|].
  apply elem_of_cons in Hin as [?|Hin]; [done|auto].
Qed.

Lemma asset_record_field id fs k :
  asset_record id fs = true → k ∈ asset_fields →
  asset_member id (k, obj_get k fs) = true.
Proof.
  intros Hrec Hk. apply asset_record_get; [done|].
  by apply (asset_record_inv id fs Hrec).
Qed.

(** What reads back from the canonical encoding of an asset record. *)
Lemma asset_record_written id fs text :
  NoDup fs.*1 → asset_record id fs = true →
  encode (JObj fs) = Some text →
  JSON_parse text = Some (JObj (sort_keys fs))
  ∧ encode (JObj (sort_keys fs)) = Some text
  ∧ asset_record id (sort_keys fs) = true.
Proof.
  intros Hnd Hrec Htext.
  pose proof Hrec as [Hm Hk]%asset_record_inv.
  assert (Forall (λ kv : string * json, is_data kv.2 = true) fs) as Hdata.
  { eapply Forall_impl; [exact Hm|].
    intros kv Hkv. simpl in *.
    apply scalar_is_data. exact (asset_member_scalar id kv Hkv). }
  assert (map (λ kv, (kv.1, sortKeysRecursive kv.2)) fs = fs) as Hmap.
  { rewrite <-(map_id fs) at 2. apply map_ext_Forall.
    eapply Forall_impl; [exact Hm|].
    intros [k v] Hkv. simpl in *. f_equal.
    apply scalar_sorted. exact (asset_member_scalar id (k, v) Hkv). }
  assert (sortKeysRecursive (JObj fs) = JObj (sort_keys fs)) as Hsort.
  { simpl. by rewrite Hmap. }
  pose proof (is_data_obj fs Hnd Hdata) as Hd.
  pose proof Hd as [Hu _]%andb_true_iff.
  split_and!.
  - rewrite (JSON_parse_encode _ _ Hu Htext).
    by rewrite (canonical_value _ (or_introl Hd)), Hsort.
  - rewrite <-Hsort. unfold encode in *.
    by rewrite (sortKeysRecursive_idemp _ Hu).
  - apply (asset_record_perm id fs); [|done].
    symmetry. apply sort_keys_perm.
Qed.

Lemma ledger_schema_insert st id text :
  ledger_schema st →
  (∃ fs, JSON_parse text = Some (JObj fs)
         ∧ encode (JObj fs) = Some text
         ∧ asset_record id fs = true) →
  ledger_schema (<[id := text]> st).
Proof.
  intros Hok Htext id' text'. rewrite lookup_insert.
  case_decide as Hid; [|apply Hok]. subst id'. by intros [= <-].
Qed.

Lemma ledger_schema_write st id fs text :
  ledger_schema st → NoDup fs.*1 → asset_record id fs = true →
  encode (JObj fs) = Some text →
  ledger_schema (<[id := text]> st).
Proof.
  intros Hok Hnd Hrec Htext. apply ledger_schema_insert; [done|].
  exists (sort_keys fs). by apply asset_record_written.
Qed.

Lemma ledger_schema_seeded : ledger_schema seeded.
Proof.
  intros id text Hst. apply scan_elem in Hst.
  assert (forallb (λ kv : string * string,
                     match JSON_parse kv.2 with
                     | Some (JObj fs) =>
                         asset_record kv.1 fs
                         && bool_decide (encode (JObj fs) = Some kv.2)
                     | _ => false
                     end) (scan seeded) = true) as Hall
    by (vm_compute; reflexivity).
  apply forallb_Forall_true in Hall. rewrite Forall_forall in Hall.
  specialize (Hall _ Hst). simpl in Hall.
  destruct (JSON_parse text) as [[| | | | | |fs]|]; try done.
  apply andb_true_iff in Hall as [Hrec Henc].
  apply bool_decide_eq_true_1 in Henc. by exists fs.
Qed.

Lemma ledger_schema_submit c st : ledger_schema st → ledger_schema (submit c st).
Proof.
  intros Hok. destruct c as [|id f s c o v|id|id f|id|id|id owner|]; simpl.
  - unfold commit. rewrite InitLedger_run.
    intros id text [Hs|[_ Hs]]%lookup_union_Some_raw.
    + by apply ledger_schema_seeded.
    + by apply Hok.
  - unfold commit.
    destruct (CreateAsset_run id f s c o v st)
      as (ret & text & _ & Htext & ->).
    destruct (0 <? String.length (stored st id))%nat; [done|].
    apply (ledger_schema_write st id
             [("ID", JStr id); ("Flavor", JStr f); ("Size", JStr s);
              ("Client", JStr c); ("Cone", JStr o); ("Value", JStr v)]);
      [done| | |exact Htext].
    + apply (bool_decide_unpack _). by vm_compute.
    + unfold asset_record, asset_member. simpl.
      by rewrite bool_decide_eq_true_2.
  - unfold commit. rewrite ReadAsset_run.
    by destruct (String.length (stored st id) =? 0)%nat.
  - unfold commit.
    destruct (UpdateAsset id f st) as [[u|e] st'] eqn:Hrun; [|done].
    destruct (st !! id) as [text|] eqn:Hst.
    + destruct (Hok id text Hst) as (fs & Hparse & _ & Hrec).
      destruct (UpdateAsset_run id f st text fs Hst Hparse)
        as (text' & Htext' & Hrun').
      rewrite Hrun' in Hrun. injection Hrun as _ <-.
      apply (ledger_schema_write st id
               [("ID", JStr id); ("Flavor", JStr f);
                ("Size", obj_get "Size" fs); ("Client", obj_get "Client" fs);
                ("Cone", obj_get "Cone" fs); ("Value", obj_get "Value" fs)]);
        [done| | |exact Htext'].
      * apply (bool_decide_unpack _). by vm_compute.
      * apply asset_record_intro.
        -- repeat (apply Forall_cons; split;
                   [first [apply (asset_record_field id fs); [done|];
                           unfold asset_fields; repeat first [by left | right]
                          |unfold asset_member; simpl;
                           by rewrite ?bool_decide_eq_true_2]|]).
           apply Forall_nil_2.
        -- intros k Hk. exact Hk.
    + unfold UpdateAsset, mbind, tx_bind in Hrun.
      rewrite AssetExists_run in Hrun. unfold stored in Hrun.
      rewrite Hst in Hrun. discriminate.
  - unfold commit. rewrite DeleteAsset_run.
    destruct (0 <? String.length (stored st id))%nat; [|done].
    intros id' text'. rewrite lookup_delete. case_decide; [done|apply Hok].
  - done.
  - unfold commit.
    destruct (TransferAsset id owner st) as [[u|e] st'] eqn:Hrun; [|done].
    destruct (st !! id) as [text|] eqn:Hst.
    + destruct (Hok id text Hst) as (fs & Hparse & _ & Hrec).
      destruct (TransferAsset_run id owner st text fs Hst Hparse)
        as (text' & Htext' & Hrun').
      rewrite Hrun' in Hrun. injection Hrun as _ <-.
      pose proof (JSON_parse_is_data _ _ Hparse) as [Hnd _]%is_data_obj_inv.
      pose proof Hrec as [Hm Hk]%asset_record_inv.
      apply (ledger_schema_write st id (obj_set "Client" (JStr owner) fs));
        [done| | |exact Htext'].
      * by apply obj_set_NoDup.
      * apply asset_record_intro.
        -- by apply obj_set_Forall.
        -- intros k Hin. rewrite obj_set_keys. case_decide; [by apply Hk|].
           apply elem_of_app. left. by apply Hk.
    + unfold TransferAsset, mbind, tx_bind in Hrun.
      rewrite ReadAsset_run in Hrun. unfold stored in Hrun.
      rewrite Hst in Hrun. discriminate.
  - unfold commit. by rewrite GetAllAssets_run.
Qed.

Lemma ledger_schema_reachable history :
  ledger_schema (ledger_after history ∅).
Proof.
  assert (ledger_schema ∅) as H0 by (intros ??; by rewrite lookup_empty).
  revert H0. generalize (∅ : world).
  induction history as [|c history IH]; intros st Hst; [done|].
  simpl. by apply IH, ledger_schema_submit.
Qed.

(** X9. The records of a ledger.  Whatever invocations built the ledger
    from the empty one, in whatever order and whichever of them failed,
    the value stored under a key [id] is the canonical encoding of an
    object whose [ID] is [id], whose [Flavor], [Size], [Client] and [Cone]
    are strings, whose [Value] is a string or a number, whose [docType]
    is ["asset"] or missing, and which has no other field. *)
Theorem reachable_ledger_schema history id text :
  ledger_after history ∅ !! id = Some text →
  ∃ fs,
    JSON_parse text = Some (JObj fs)
    ∧ encode (JObj fs) = Some text
    ∧ asset_record id fs = true
    ∧ obj_get "ID" fs = JStr id
    ∧ (∀ k, k ∈ ["Flavor"; "Size"; "Client"; "Cone"] →
            ∃ s, obj_get k fs = JStr s)
    ∧ ((∃ s, obj_get "Value" fs = JStr s) ∨ ∃ n, obj_get "Value" fs = JNum n)
    ∧ (obj_get "docType" fs = JStr "asset"
       ∨ obj_get "docType" fs = JUndefined)
    ∧ ∀ k, k ∉ "docType" :: asset_fields → obj_get k fs = JUndefined.
Proof.
  intros Hst.
  destruct (ledger_schema_reachable history id text Hst)
    as (fs & Hparse & Henc & Hrec).
  pose proof (JSON_parse_is_data _ _ Hparse) as [Hnd _]%is_data_obj_inv.
  assert (∀ k, k ∈ asset_fields → asset_member id (k, obj_get k fs) = true)
    as Hfield by (intros k; by apply asset_record_field).
  exists fs. split_and!; try done.
  - assert (asset_member id ("ID", obj_get "ID" fs) = true) as H.
    { apply Hfield. by left. }
    unfold asset_member in H. simpl in H.
    destruct (obj_get "ID" fs); try done.
    f_equal. by apply bool_decide_eq_true_1 in H.
  - intros k Hk.
    assert (k ∈ asset_fields) as Hk'.
    { unfold asset_fields.
      repeat (apply elem_of_cons in Hk as [->|Hk];
              [repeat first [by left | right]|]).
      by apply elem_of_nil in Hk. }
    pose proof (Hfield k Hk') as H. unfold asset_member in H. simpl in H.
    repeat (apply elem_of_cons in Hk as [->|Hk];
            [simpl in H; destruct (obj_get _ fs); try done; by eexists|]).
    by apply elem_of_nil in Hk.
  - assert (asset_member id ("Value", obj_get "Value" fs) = true) as H.
    { apply Hfield. unfold asset_fields. repeat first [by left | right]. }
    unfold asset_member in H. simpl in H.
    destruct (obj_get "Value" fs); try done;
      first [left; by eexists | right; by eexists].
  - destruct (decide ("docType" ∈ fs.*1)) as [Hin|Hnin].
    + pose proof (asset_record_get id fs "docType" Hrec Hin) as H.
      unfold asset_member in H. simpl in H.
      destruct (obj_get "docType" fs); try done.
      left. f_equal. by apply bool_decide_eq_true_1 in H.
    + right. by apply obj_get_absent.
  - intros k Hk. apply obj_get_absent. intros Hin.
    pose proof (asset_record_get id fs k Hrec Hin) as H.
    unfold asset_member in H. simpl in H.
    apply Hk. unfold asset_fields.
    repeat case_decide; try done; subst;
      repeat match goal with
             | H : _ ∈ _ :: _ |- _ => apply elem_of_cons in H as [->|H]
             | H : _ ∈ [] |- _ => by apply elem_of_nil in H
             end;
      repeat first [by left | right].
Qed.

Lemma reachable_ledger_schema_witness :
  let history :=
    [Call_InitLedger;
     Call_CreateAsset "icecream10" "vanilla" "small" "Carmen" "sugar" "6000";
     Call_UpdateAsset "icecream1" "vanilla";
     Call_TransferAsset "icecream1" "Maria";
     Call_DeleteAsset "icecream2"] in
  let st := ledger_after history ∅ in
  st !! "icecream1" = Some (stored st "icecream1")
  ∧ ∃ fs, JSON_parse (stored st "icecream1") = Some (JObj fs)
          ∧ asset_record "icecream1" fs = true
          ∧ obj_get "ID" fs = JStr "icecream1".
Proof.
  intros history st.
  assert (st !! "icecream1" = Some (stored st "icecream1")) as H
    by (vm_compute; reflexivity).
  split; [exact H|].
  destruct (reachable_ledger_schema history "icecream1"
              (stored st "icecream1") H)
    as (fs & Hparse & _ & Hrec & Hid & _).
  exists fs. split_and!; [exact Hparse|exact Hrec|exact Hid].
Defined.

Lemma sorted_keys_fst {V} (l : list (string * V)) :
  StronglySorted key_le l → StronglySorted String.le l.*1.
Proof.
  induction 1 as [|kv l Hs IH Hall]; [constructor|].
  rewrite fmap_cons. constructor; [done|].
  apply Forall_fmap. exact Hall.
Qed.

(** X10. No decoding error on a ledger the contract built.  Whatever
    invocations built the ledger from the empty one, [UpdateAsset] and
    [TransferAsset] on a stored key succeed, [TransferAsset] returning the
    string that is the record's [Client]; on any other key they throw the
    not-found error; they never throw a [SyntaxError] or a [TypeError].
    [GetAllAssets] returns an array of objects, one for each stored key,
    whose [ID]s are the stored keys in ascending order without
    repetition. *)
Theorem reachable_ledger_no_decoding_error (history : list call) :
  let st := ledger_after history ∅ in
  (∀ id flavor newOwner,
     match st !! id with
     | None =>
         UpdateAsset id flavor st = (Throw (NotFound id), st)
         ∧ TransferAsset id newOwner st = (Throw (NotFound id), st)
     | Some text =>
         ∃ owner text1 text2,
           field "Client" (record_of text) = JStr owner
           ∧ UpdateAsset id flavor st = (Return (), <[id := text1]> st)
           ∧ TransferAsset id newOwner st
             = (Return (JStr owner), <[id := text2]> st)
     end)
  ∧ ∃ text records ids,
      GetAllAssets st = (Return (Some text), st)
      ∧ JSON_parse text = Some (JArr (JObj <$> records))
      ∧ (λ fs, obj_get "ID" fs) <$> records = JStr <$> ids
      ∧ StronglySorted String.le ids ∧ NoDup ids
      ∧ ∀ id, id ∈ ids ↔ is_Some (st !! id).
Proof.
  intros st. pose proof (ledger_schema_reachable history) as Hok.
  fold st in Hok. split.
  - intros id flavor newOwner. destruct (st !! id) as [text|] eqn:Hst.
    + destruct (Hok id text Hst) as (fs & Hparse & _ & Hrec).
      destruct (UpdateAsset_run id flavor st text fs Hst Hparse)
        as (text1 & _ & Hupd).
      destruct (TransferAsset_run id newOwner st text fs Hst Hparse)
        as (text2 & _ & Htr).
      assert (asset_member id ("Client", obj_get "Client" fs) = true) as H.
      { apply asset_record_field; [done|].
        unfold asset_fields. repeat first [by left | right]. }
      unfold asset_member in H. simpl in H.
      destruct (obj_get "Client" fs) as [| | | |owner| |] eqn:Hc; try done.
      exists owner, text1, text2. split_and!; [|done|by rewrite Htr].
      unfold record_of. rewrite Hparse. exact Hc.
    + assert (stored st id = "") as Hs by (unfold stored; by rewrite Hst).
      split.
      * by rewrite UpdateAsset_cases, Hs.
      * by rewrite TransferAsset_cases, Hs.
  - destruct (GetAllAssets_parse st) as (text & Hrun & Hparse).
    assert (∀ l : list (string * string),
              Forall (λ kv, st !! kv.1 = Some kv.2) l →
              ∃ records,
                map (λ result : string * string, record_of result.2) l
                = JObj <$> records
                ∧ (λ fs, obj_get "ID" fs) <$> records = JStr <$> l.*1)
      as Hlist.
    { induction 1 as [|[k v] l Hkv Hall IH]; [by exists []|].
      destruct IH as (records & IH1 & IH2).
      destruct (Hok k v Hkv) as (fs & Hp & _ & Hrec).
      assert (asset_member k ("ID", obj_get "ID" fs) = true) as H.
      { apply asset_record_field; [done|by left]. }
      unfold asset_member in H. simpl in H.
      destruct (obj_get "ID" fs) as [| | | |s| |] eqn:Hid; try done.
      apply bool_decide_eq_true_1 in H. subst s.
      exists (fs :: records). split.
      - cbn [map]. rewrite fmap_cons, IH1. f_equal.
        unfold record_of. simpl. by rewrite Hp.
      - rewrite !fmap_cons. cbn [fst]. by rewrite Hid, IH2. }
    destruct (Hlist (scan st)) as (records & Hrecords & Hids).
    { apply Forall_forall. intros [k v] Hkv. by apply scan_elem. }
    exists text, records, (scan st).*1.
    split_and!; [done|by rewrite Hparse, Hrecords|done| | |].
    + apply sorted_keys_fst, scan_sorted.
    + apply scan_NoDup.
    + intros id. split.
      * intros ([k v] & -> & Hkv)%list_elem_of_fmap.
        apply scan_elem in Hkv. by exists v.
      * intros [v Hv]. apply scan_elem in Hv.
        by apply (list_elem_of_fmap_2 fst _ (id, v)).
Qed.

(** ** Composing the read-modify-write functions *)

Lemma JSON_stringify_prune v : JSON_stringify (prune v) = JSON_stringify v.
Proof.
  induction v as [| | | | |xs IH|fs IH] using json_ind_deep; try done.
  - rewrite prune_arr, !JSON_stringify_arr.
    assert (map elem_text (map elem_value xs) = map elem_text xs) as ->;
      [|done].
    induction IH as [|x xs Hx Hxs IHxs]; [done|].
    cbn [map]. rewrite IHxs. f_equal.
    unfold elem_text, elem_value. destruct x; try done; by rewrite Hx.
  - rewrite prune_obj, !JSON_stringify_obj.
    assert (omap member_text (omap member_value fs) = omap member_text fs)
      as ->; [|done].
    induction IH as [|[k x] fs Hx Hfs IHfs]; [done|].
    simpl in Hx. cbn [omap list_omap].
    assert (x = JUndefined
            ∨ (member_value (k, x) = Some (k, prune x)
               ∧ ∃ t, JSON_stringify x = Some t)) as [->|[-> [t Ht]]].
    { destruct x; try (by left); right; (split; [done|]); simpl; eauto. }
    + exact IHfs.
    + assert (member_text (k, prune x) = member_text (k, x)) as Hm.
      { unfold member_text. simpl. by rewrite Hx. }
      cbn [omap list_omap]. by rewrite Hm, IHfs.
Qed.

Lemma omap_member_value_sorted (fs : fields) :
  StronglySorted key_le fs → StronglySorted key_le (omap member_value fs).
Proof.
  induction 1 as [|[k v] fs Hs IH Hall]; [constructor|].
  cbn [omap list_omap].
  destruct (member_value (k, v)) as [[k' v']|] eqn:Hkv; [|done].
  assert (k' = k) as ->.
  { unfold member_value in Hkv. simpl in Hkv. destruct v; by simplify_eq. }
  constructor; [done|].
  apply Forall_forall. intros y Hy.
  apply list_elem_of_omap in Hy as ([k1 v1] & Hin & Hy).
  rewrite Forall_forall in Hall. specialize (Hall _ Hin).
  unfold member_value in Hy. simpl in Hy.
  unfold key_le in *. simpl in *. destruct v1; by simplify_eq.
Qed.

(** Sorted records without repeated keys and without [undefined] that
    answer every property lookup alike are the same record. *)
Lemma sorted_fields_ext (F G : fields) :
  StronglySorted key_le F → StronglySorted key_le G →
  is_data (JObj F) = true → is_data (JObj G) = true →
  (∀ k, obj_get k F = obj_get k G) → F = G.
Proof.
  intros HsF HsG [HndF HdF]%is_data_obj_inv [HndG HdG]%is_data_obj_inv Hget.
  assert (∀ (A B : fields),
            NoDup A.*1 → NoDup B.*1 →
            Forall (λ kv : string * json, is_data kv.2 = true) A →
            (∀ k, obj_get k A = obj_get k B) →
            ∀ x, x ∈ A → x ∈ B) as Hincl.
  { intros A B HndA HndB HdA HAB [k v] Hin.
    pose proof (obj_get_elem k v A HndA Hin) as Hv.
    rewrite Forall_forall in HdA. specialize (HdA _ Hin). simpl in HdA.
    destruct (decide (k ∈ B.*1)) as [HB|HB].
    - apply list_elem_of_fmap in HB as ([k' v'] & -> & HB). simpl in *.
      rewrite <-(obj_get_elem k' v' B HndB HB), <-HAB, Hv in HB. done.
    - apply obj_get_absent in HB. rewrite <-HAB, Hv in HB.
      by rewrite HB in HdA. }
  apply sorted_by_key_unique; [done..| |done].
  apply NoDup_Permutation.
  - by eapply NoDup_fmap_1.
  - by eapply NoDup_fmap_1.
  - intros x. split; apply Hincl; done.
Qed.

(** The persisted text of a record is determined by what its properties
    read back as. *)
Lemma canonical_text_ext (w w' : fields) :
  unique_keys (JObj w) = true → unique_keys (JObj w') = true →
  (∀ k, prune (sortKeysRecursive (obj_get k w))
        = prune (sortKeysRecursive (obj_get k w'))) →
  encode (JObj w) = encode (JObj w').
Proof.
  intros Hu Hu' Hget.
  destruct (encode_obj w) as [t Ht]. destruct (encode_obj w') as [t' Ht'].
  destruct (JSON_parse_encode_obj w _ Hu Ht) as (F & HF & HgetF).
  destruct (JSON_parse_encode_obj w' _ Hu' Ht') as (G & HG & HgetG).
  assert (∀ v text, unique_keys v = true → encode v = Some text →
            JSON_stringify (prune (sortKeysRecursive v)) = Some text)
    as Htext.
  { intros v text Hv. unfold encode, stringify.
    by rewrite (sortKeysRecursive_idemp v Hv), JSON_stringify_prune. }
  assert (∀ (a : fields) text A,
            unique_keys (JObj a) = true → encode (JObj a) = Some text →
            JSON_parse text = Some (JObj A) →
            StronglySorted key_le A
            ∧ prune (sortKeysRecursive (JObj a)) = JObj A) as Hshape.
  { intros a text A Ha Henc Hp.
    rewrite (JSON_parse_encode _ _ Ha Henc) in Hp.
    assert (prune (sortKeysRecursive (JObj a)) = JObj A) as Heq
      by congruence.
    split; [|done].
    change (sortKeysRecursive (JObj a))
      with (JObj (sort_keys (map (λ kv, (kv.1, sortKeysRecursive kv.2)) a)))
      in Heq.
    rewrite prune_obj in Heq. injection Heq as <-.
    apply omap_member_value_sorted, sort_keys_sorted. }
  destruct (Hshape w _ F Hu Ht HF) as [HsF HpF].
  destruct (Hshape w' _ G Hu' Ht' HG) as [HsG HpG].
  assert (F = G) as HFG.
  { apply sorted_fields_ext; [done..| | |].
    - by eapply JSON_parse_is_data.
    - by eapply JSON_parse_is_data.
    - intros k. by rewrite HgetF, HgetG. }
  rewrite Ht, Ht'. f_equal.
  pose proof (Htext _ _ Hu Ht) as H1. pose proof (Htext _ _ Hu' Ht') as H2.
  rewrite HpF in H1. rewrite HpG in H2. congruence.
Qed.

Lemma obj_get_updated id flavor fs k :
  field k (updated_asset id flavor fs)
  = if decide (k = "ID") then JStr id
    else if decide (k = "Flavor") then JStr flavor
    else if decide (k ∈ ["Size"; "Client"; "Cone"; "Value"])
         then obj_get k fs else JUndefined.
Proof.
  unfold updated_asset, field.
  destruct (decide (k = "ID")) as [->|H1]; [reflexivity|].
  destruct (decide (k = "Flavor")) as [->|H2]; [reflexivity|].
  destruct (decide (k ∈ ["Size"; "Client"; "Cone"; "Value"])) as [Hin|Hnin].
  - repeat (apply elem_of_cons in Hin as [->|Hin]; [reflexivity|]).
    by apply elem_of_nil in Hin.
  - apply obj_get_absent. simpl. intros Hk.
    repeat (apply elem_of_cons in Hk as [->|Hk];
            [first [done | apply Hnin; repeat first [by left | right]]|]).
    by apply elem_of_nil in Hk.
Qed.

Lemma obj_get_transferred newOwner fs k :
  obj_get k (obj_set "Client" (JStr newOwner) fs)
  = if decide (k = "Client") then JStr newOwner else obj_get k fs.
Proof.
  case_decide as Hk; [subst k; apply obj_get_set|].
  by apply obj_get_set_ne.
Qed.

(** What reads back of a property of a parsed record when it is persisted
    again. *)
Lemma reread_parsed fs k :
  is_data (JObj fs) = true →
  prune (sortKeysRecursive (obj_get k fs)) = sortKeysRecursive (obj_get k fs)
  ∧ prune (sortKeysRecursive (sortKeysRecursive (obj_get k fs)))
    = sortKeysRecursive (obj_get k fs).
Proof.
  intros Hd.
  assert (prune (sortKeysRecursive (obj_get k fs))
          = sortKeysRecursive (obj_get k fs)) as H.
  { apply canonical_value. by apply obj_get_is_data. }
  split; [done|].
  rewrite sortKeysRecursive_idemp; [done|].
  apply obj_get_unique_keys. by apply andb_true_iff in Hd as [? _].
Qed.

Lemma UpdateAsset_read st id flavor text fs :
  st !! id = Some text → JSON_parse text = Some (JObj fs) →
  ∃ text' fs',
    UpdateAsset id flavor st = (Return (), <[id := text']> st)
    ∧ encode (updated_asset id flavor fs) = Some text'
    ∧ JSON_parse text' = Some (JObj fs')
    ∧ ∀ k, obj_get k fs'
           = prune (sortKeysRecursive (field k (updated_asset id flavor fs))).
Proof.
  intros Hst Hparse.
  pose proof (JSON_parse_is_data _ _ Hparse) as [Hu _]%andb_true_iff.
  destruct (UpdateAsset_run id flavor st text fs Hst Hparse)
    as (text' & Htext' & Hrun).
  pose proof (unique_keys_updated_asset id flavor fs Hu) as Hu'.
  unfold updated_asset in Htext', Hu'.
  destruct (JSON_parse_encode_obj _ text' Hu' Htext')
    as (fs' & Hparse' & Hfields).
  by exists text', fs'.
Qed.

Lemma TransferAsset_read st id newOwner text fs :
  st !! id = Some text → JSON_parse text = Some (JObj fs) →
  ∃ text' fs',
    TransferAsset id newOwner st
    = (Return (obj_get "Client" fs), <[id := text']> st)
    ∧ encode (JObj (obj_set "Client" (JStr newOwner) fs)) = Some text'
    ∧ JSON_parse text' = Some (JObj fs')
    ∧ ∀ k, obj_get k fs'
           = prune (sortKeysRecursive
                      (obj_get k (obj_set "Client" (JStr newOwner) fs))).
Proof.
  intros Hst Hparse.
  pose proof (JSON_parse_is_data _ _ Hparse) as [Hu _]%andb_true_iff.
  destruct (TransferAsset_run id newOwner st text fs Hst Hparse)
    as (text' & Htext' & Hrun).
  destruct (JSON_parse_encode_obj
              (obj_set "Client" (JStr newOwner) fs) text')
    as (fs' & Hparse' & Hfields); [by apply unique_keys_obj_set|done|].
  by exists text', fs'.
Qed.

(** X11. Composition on a stored record.  When the payload stored at [id]
    decodes to an object, [UpdateAsset] and [TransferAsset] on it succeed,
    and: two updates leave what the second alone would leave; two
    transfers leave what the second alone would leave, the second
    returning the owner the first one set; an update followed by a
    transfer leaves what the transfer followed by the update leaves. *)
Theorem rewrites_compose st id text fs flavor1 flavor2 owner1 owner2 :
  st !! id = Some text → JSON_parse text = Some (JObj fs) →
  ∃ stU stT,
    UpdateAsset id flavor1 st = (Return (), stU)
    ∧ TransferAsset id owner1 st = (Return (obj_get "Client" fs), stT)
    ∧ (∃ stUU,
         UpdateAsset id flavor2 stU = (Return (), stUU)
         ∧ UpdateAsset id flavor2 st = (Return (), stUU))
    ∧ (∃ stTT,
         TransferAsset id owner2 stT = (Return (JStr owner1), stTT)
         ∧ TransferAsset id owner2 st
           = (Return (obj_get "Client" fs), stTT))
    ∧ (∃ stUT,
         TransferAsset id owner1 stU
         = (Return (sortKeysRecursive (obj_get "Client" fs)), stUT)
         ∧ UpdateAsset id flavor1 stT = (Return (), stUT)).
Proof.
  intros Hst Hparse.
  pose proof (JSON_parse_is_data _ _ Hparse) as Hd.
  pose proof Hd as [Hu _]%andb_true_iff.
  destruct (UpdateAsset_read st id flavor1 text fs Hst Hparse)
    as (tU & FU & HrunU & HencU & HpU & HgetU).
  destruct (TransferAsset_read st id owner1 text fs Hst Hparse)
    as (tT & FT & HrunT & HencT & HpT & HgetT).
  pose proof (JSON_parse_is_data _ _ HpU) as HdU.
  pose proof HdU as [HuU _]%andb_true_iff.
  pose proof (JSON_parse_is_data _ _ HpT) as HdT.
  pose proof HdT as [HuT _]%andb_true_iff.
  assert (∀ k, obj_get k FU
               = if decide (k = "ID") then JStr id
                 else if decide (k = "Flavor") then JStr flavor1
                 else if decide (k ∈ ["Size"; "Client"; "Cone"; "Value"])
                      then sortKeysRecursive (obj_get k fs)
                      else JUndefined) as HFU.
  { intros k. rewrite HgetU, obj_get_updated.
    repeat case_decide; try done. apply (reread_parsed fs k Hd). }
  assert (∀ k, obj_get k FT
               = if decide (k = "Client") then JStr owner1
                 else sortKeysRecursive (obj_get k fs)) as HFT.
  { intros k. rewrite HgetT, obj_get_transferred.
    case_decide; [done|]. apply (reread_parsed fs k Hd). }
  exists (<[id := tU]> st), (<[id := tT]> st).
  split_and!; [done|done| | |].
  - destruct (UpdateAsset_run id flavor2 (<[id := tU]> st) tU FU
                (lookup_insert_eq _ _ _) HpU) as (t2 & Ht2 & Hrun2).
    destruct (UpdateAsset_run id flavor2 st text fs Hst Hparse)
      as (t2' & Ht2' & Hrun2').
    assert (∀ k,
              prune (sortKeysRecursive
                       (field k (updated_asset id flavor2 FU)))
              = prune (sortKeysRecursive
                         (field k (updated_asset id flavor2 fs)))) as Hext.
    { intros k. rewrite !obj_get_updated.
      repeat case_decide; try done.
      rewrite HFU. rewrite !decide_False, decide_True by done.
      rewrite (proj2 (reread_parsed fs k Hd)).
      by rewrite (proj1 (reread_parsed fs k Hd)). }
    pose proof (canonical_text_ext _ _
                  (unique_keys_updated_asset id flavor2 FU HuU)
                  (unique_keys_updated_asset id flavor2 fs Hu) Hext) as Heq.
    assert (t2 = t2') as -> by (unfold updated_asset in *; congruence).
    exists (<[id := t2']> st). split; [|done].
    by rewrite Hrun2, insert_insert_eq.
  - destruct (TransferAsset_run id owner2 (<[id := tT]> st) tT FT
                (lookup_insert_eq _ _ _) HpT) as (t2 & Ht2 & Hrun2).
    destruct (TransferAsset_run id owner2 st text fs Hst Hparse)
      as (t2' & Ht2' & Hrun2').
    assert (∀ k,
              prune (sortKeysRecursive
                       (obj_get k (obj_set "Client" (JStr owner2) FT)))
              = prune (sortKeysRecursive
                         (obj_get k (obj_set "Client" (JStr owner2) fs))))
      as Hext.
    { intros k. rewrite !obj_get_transferred.
      case_decide; [done|]. rewrite HFT, decide_False by done.
      rewrite (proj2 (reread_parsed fs k Hd)).
      by rewrite (proj1 (reread_parsed fs k Hd)). }
    pose proof (canonical_text_ext _ _
                  (unique_keys_obj_set "Client" (JStr owner2) FT eq_refl HuT)
                  (unique_keys_obj_set "Client" (JStr owner2) fs eq_refl Hu)
                  Hext) as Heq.
    assert (t2 = t2') as -> by congruence.
    exists (<[id := t2']> st). split; [|done].
    rewrite Hrun2, insert_insert_eq. rewrite HFT. by rewrite decide_True.
  - destruct (TransferAsset_run id owner1 (<[id := tU]> st) tU FU
                (lookup_insert_eq _ _ _) HpU) as (t2 & Ht2 & Hrun2).
    destruct (UpdateAsset_run id flavor1 (<[id := tT]> st) tT FT
                (lookup_insert_eq _ _ _) HpT) as (t2' & Ht2' & Hrun2').
    assert (∀ k,
              prune (sortKeysRecursive
                       (obj_get k (obj_set "Client" (JStr owner1) FU)))
              = prune (sortKeysRecursive
                         (field k (updated_asset id flavor1 FT)))) as Hext.
    { intros k. rewrite obj_get_transferred, obj_get_updated, HFU, !HFT.
      repeat case_decide; subst; try done.
      all: try (exfalso;
                match goal with
                | H : ¬ _ ∈ _ |- _ => apply H; repeat first [by left | right]
                end). }
    pose proof (canonical_text_ext _ _
                  (unique_keys_obj_set "Client" (JStr owner1) FU eq_refl HuU)
                  (unique_keys_updated_asset id flavor1 FT HuT) Hext) as Heq.
    assert (t2 = t2') as -> by (unfold updated_asset in *; congruence).
    exists (<[id := t2']> st). split.
    + rewrite Hrun2, insert_insert_eq, HFU.
      rewrite !decide_False, decide_True by first [done|repeat first [by left | right]].
      done.
    + by rewrite Hrun2', insert_insert_eq.
Qed.

Lemma rewrites_compose_witness :
  let fs := [("Client", JStr "Paola"); ("Cone", JStr "sugar");
             ("Flavor", JStr "chocolate"); ("ID", JStr "icecream1");
             ("Size", JStr "medium"); ("Value", JNum 10000);
             ("docType", JStr "asset")] in
  seeded !! "icecream1" = Some (stored seeded "icecream1")
  ∧ JSON_parse (stored seeded "icecream1") = Some (JObj fs)
  ∧ ∃ stU stT stUT,
      UpdateAsset "icecream1" "vanilla" seeded = (Return (), stU)
      ∧ TransferAsset "icecream1" "Maria" seeded = (Return (JStr "Paola"), stT)
      ∧ TransferAsset "icecream1" "Maria" stU = (Return (JStr "Paola"), stUT)
      ∧ UpdateAsset "icecream1" "vanilla" stT = (Return (), stUT).
Proof.
  intros fs.
  assert (seeded !! "icecream1" = Some (stored seeded "icecream1")) as H1
    by (vm_compute; reflexivity).
  assert (JSON_parse (stored seeded "icecream1") = Some (JObj fs)) as H2
    by (vm_compute; reflexivity).
  split_and!; [exact H1|exact H2|].
  destruct (rewrites_compose seeded "icecream1" (stored seeded "icecream1")
              fs "vanilla" "mint" "Maria" "Eve" H1 H2)
    as (stU & stT & HU & HT & _ & _ & stUT & HUT & HTU).
  exists stU, stT, stUT. split_and!; [exact HU|exact HT|exact HUT|exact HTU].
Defined.

(** ** Reading back indented JSON text *)

Lemma skip_ws_blank b s : blank b = true → skip_ws (b +:+ s) = skip_ws s.
Proof.
  induction b as [|c b IH]; [done|]. simpl.
  intros [Hc Hb]%andb_true_iff. rewrite Hc. auto.
Qed.

Lemma parse_value_blank fuel b s :
  blank b = true → parse_value fuel (b +:+ s) = parse_value fuel s.
Proof.
  intros Hb. destruct fuel as [|fuel]; [done|].
  cbn [parse_value]. by rewrite skip_ws_blank.
Qed.

Lemma blank_append a b : blank a = true → blank b = true → blank (a +:+ b) = true.
Proof.
  induction a as [|c a IH]; [done|]. simpl.
  intros [Hc Ha]%andb_true_iff Hb. rewrite Hc. auto.
Qed.

Lemma closes_value_cases rest :
  closes_value rest →
  rest = "" ∨ ∃ c r, rest = String c r
                    ∧ (c = ","%char ∨ c = "]"%char ∨ c = "}"%char
                       ∨ c = "010"%char).
Proof. destruct rest as [|c r]; [by left|]. intros H. right. eauto. Qed.

Lemma read_digits_closed u rest :
  closes_value rest → read_digits (string_of_uint u +:+ rest) = (u, rest).
Proof.
  intros Hrest. induction u; simpl; rewrite ?IHu; try done.
  destruct rest as [|c r]; [done|].
  destruct Hrest as [->|[->|[->| ->]]]; done.
Qed.

Lemma starts_fraction_closed rest :
  closes_value rest → starts_fraction rest = false.
Proof. destruct rest as [|c r]; [done|]. by intros [->|[->|[->| ->]]]. Qed.

Lemma parse_number_closed n rest :
  closes_value rest →
  parse_number (string_of_Z n +:+ rest) = Some (JNum n, rest).
Proof.
  intros Hrest. unfold string_of_Z.
  pose proof (DecimalZ.of_to n) as Hn.
  destruct n as [|p|p]; simpl in *.
  - unfold parse_number. simpl.
    destruct rest as [|c r]; [done|].
    destruct Hrest as [->|[->|[->| ->]]]; done.
  - pose proof (to_uint_no_leading_zero p) as Hz.
    pose proof (DecimalPos.Unsigned.to_uint_nonnil p) as Hnil.
    destruct (Pos.to_uint p) as [|u|u|u|u|u|u|u|u|u|u] eqn:Hu;
      try done; try (by destruct (Hz u));
      unfold parse_number; simpl;
      rewrite (read_digits_closed u rest Hrest); simpl;
      rewrite (starts_fraction_closed rest Hrest); simpl;
      by rewrite Hn.
  - pose proof (to_uint_no_leading_zero p) as Hz.
    pose proof (DecimalPos.Unsigned.to_uint_nonnil p) as Hnil.
    destruct (Pos.to_uint p) as [|u|u|u|u|u|u|u|u|u|u] eqn:Hu;
      try done; try (by destruct (Hz u));
      unfold parse_number; simpl;
      rewrite (read_digits_closed u rest Hrest); simpl;
      rewrite (starts_fraction_closed rest Hrest); simpl;
      by rewrite Hn.
Qed.

Lemma JSON_stringify_indent_arr indent xs :
  JSON_stringify_indent indent (JArr xs)
  = match map (indent_elem (indent +:+ gap)) xs with
    | [] => Some "[]"
    | partial =>
        Some ("[" +:+ (newline +:+ indent +:+ gap)
              +:+ String.concat ("," +:+ (newline +:+ indent +:+ gap)) partial
              +:+ (newline +:+ indent) +:+ "]")
    end.
Proof.
  cbn [JSON_stringify_indent].
  change (map (λ x, default "null" (JSON_stringify_indent (indent +:+ gap) x)) xs)
    with (map (indent_elem (indent +:+ gap)) xs).
  by destruct (map (indent_elem (indent +:+ gap)) xs).
Qed.

Lemma JSON_stringify_indent_obj indent fs :
  JSON_stringify_indent indent (JObj fs)
  = match omap (indent_member (indent +:+ gap)) fs with
    | [] => Some "{}"
    | partial =>
        Some ("{" +:+ (newline +:+ indent +:+ gap)
              +:+ String.concat ("," +:+ (newline +:+ indent +:+ gap)) partial
              +:+ (newline +:+ indent) +:+ "}")
    end.
Proof.
  cbn [JSON_stringify_indent].
  change (omap (λ kv, (λ t, quote kv.1 +:+ ": " +:+ t)
                        <$> JSON_stringify_indent (indent +:+ gap) kv.2) fs)
    with (omap (indent_member (indent +:+ gap)) fs).
  by destruct (omap (indent_member (indent +:+ gap)) fs).
Qed.

Lemma parse_elements_indent pv lead trail ts : ∀ vs n acc rest,
  Forall2 (λ t v, ∀ rest', closes_value rest' →
                  pv (lead +:+ t +:+ rest') = Some (v, rest')) ts vs →
  ts ≠ [] → (length ts ≤ n)%nat →
  blank trail = true → (∀ X, closes_value (trail +:+ X)) →
  parse_elements pv n acc
    (lead +:+ String.concat ("," +:+ lead) ts +:+ trail +:+ String "]" rest)
  = Some (JArr (acc ++ vs), rest).
Proof.
  induction ts as [|t ts IH]; intros vs n acc rest Hall Hne Hlen Hb Hc;
    [done|].
  apply Forall2_cons_inv_l in Hall as (v & vs' & Hv & Hall & ->).
  destruct n as [|n]; [simpl in Hlen; lia|].
  destruct ts as [|t' ts].
  - apply Forall2_nil_inv_l in Hall as ->.
    simpl String.concat.
    rewrite (parse_elements_step pv n acc _ v (trail +:+ String "]" rest)).
    + by rewrite skip_ws_blank.
    + apply Hv. apply Hc.
  - rewrite concat_cons by done. rewrite !append_assoc.
    rewrite (parse_elements_step pv n acc _ v
               (String "," (lead +:+ String.concat ("," +:+ lead) (t' :: ts)
                            +:+ trail +:+ String "]" rest))).
    + cbn [skip_ws is_ws]. rewrite (IH vs'); [|done..|simpl in *; lia|done|done].
      by rewrite <-(assoc_L (++)).
    + apply Hv. simpl. auto.
Qed.

Lemma parse_members_step_indent pv n acc k t more v r :
  pv (" " +:+ t +:+ more) = Some (v, r) →
  parse_members pv (S n) acc (quote k +:+ ": " +:+ t +:+ more)
  = match skip_ws r with
    | String "," r' => parse_members pv n (obj_set k v acc) r'
    | String "}" r' => Some (JObj (obj_set k v acc), r')
    | _ => None
    end.
Proof.
  intros H. unfold quote. simpl. rewrite append_assoc. simpl.
  rewrite parse_string_body_escape. simpl. simpl in H. by rewrite H.
Qed.

Lemma parse_members_indent pv lead trail ms : ∀ kvs n acc rest,
  Forall2 (λ m kv, ∃ t, m = quote kv.1 +:+ ": " +:+ t
                        ∧ ∀ rest', closes_value rest' →
                            pv (" " +:+ t +:+ rest') = Some (kv.2, rest'))
          ms kvs →
  ms ≠ [] → (length ms ≤ n)%nat →
  blank lead = true → blank trail = true →
  (∀ X, closes_value (trail +:+ X)) →
  NoDup (acc.*1 ++ kvs.*1) →
  parse_members pv n acc
    (lead +:+ String.concat ("," +:+ lead) ms +:+ trail +:+ String "}" rest)
  = Some (JObj (acc ++ kvs), rest).
Proof.
  induction ms as [|m ms IH];
    intros kvs n acc rest Hall Hne Hlen Hbl Hb Hc Hnd; [done|].
  apply Forall2_cons_inv_l in Hall as ([k v] & kvs' & Hm & Hall & ->).
  destruct Hm as (t & -> & Hv). simpl in Hv.
  destruct n as [|n]; [simpl in Hlen; lia|].
  assert ((k ∉ acc.*1) ∧ NoDup ((acc ++ [(k, v)]).*1 ++ kvs'.*1))
    as [Hk Hnd'].
  { simpl in Hnd. rewrite fmap_app. simpl. rewrite <-(assoc_L (++)). simpl.
    split; [|done].
    apply NoDup_app in Hnd as (_ & Hd & _). intros Hin.
    apply (Hd k Hin). left. }
  assert (∀ s, parse_members pv (S n) acc (lead +:+ s)
               = parse_members pv (S n) acc s) as Hlead.
  { intros s. cbn [parse_members]. by rewrite skip_ws_blank. }
  rewrite Hlead. cbn [fst].
  destruct ms as [|m' ms].
  - apply Forall2_nil_inv_l in Hall as ->.
    change (String.concat ("," +:+ lead) [quote k +:+ ": " +:+ t])
      with (quote k +:+ ": " +:+ t).
    rewrite !append_assoc.
    rewrite (parse_members_step_indent pv n acc k t _ v
               (trail +:+ String "}" rest)).
    + rewrite skip_ws_blank by done. cbn [skip_ws is_ws].
      by rewrite obj_set_fresh.
    + apply Hv, Hc.
  - rewrite concat_cons by done. rewrite !append_assoc.
    rewrite (parse_members_step_indent pv n acc k t _ v
               (String "," (lead +:+ String.concat ("," +:+ lead) (m' :: ms)
                            +:+ trail +:+ String "}" rest))).
    + cbn [skip_ws is_ws]. rewrite obj_set_fresh by done.
      rewrite (IH kvs'); [|done..|simpl in *; lia|done|done|done|done].
      by rewrite <-(assoc_L (++)).
    + apply Hv. simpl. auto.
Qed.

Lemma JSON_stringify_indent_None indent v :
  JSON_stringify_indent indent v = None → v = JUndefined.
Proof.
  destruct v as [| | | | |xs|fs]; try done.
  - rewrite JSON_stringify_indent_arr. by destruct (map _ xs).
  - rewrite JSON_stringify_indent_obj. by destruct (omap _ fs).
Qed.

Lemma JSON_stringify_indent_value_start indent v text rest :
  JSON_stringify_indent indent v = Some text →
  value_start (text +:+ rest) = true.
Proof.
  intros H. destruct v as [| |[]|n|s|xs|fs];
    try (simpl in H; simplify_eq; done).
  - simpl in H. simplify_eq. apply string_of_Z_value_start.
  - rewrite JSON_stringify_indent_arr in H.
    destruct (map _ xs); by simplify_eq.
  - rewrite JSON_stringify_indent_obj in H.
    destruct (omap _ fs); by simplify_eq.
Qed.

Lemma indent_elem_value_start inner x rest :
  value_start (indent_elem inner x +:+ rest) = true.
Proof.
  unfold indent_elem.
  destruct (JSON_stringify_indent inner x) as [t|] eqn:Ht; simpl; [|done].
  by eapply JSON_stringify_indent_value_start.
Qed.

Lemma value_start_nonempty s :
  value_start (s +:+ "") = true → (1 ≤ String.length s)%nat.
Proof. rewrite append_nil_r. destruct s; [done|simpl; lia]. Qed.

Lemma parse_value_array_ws fuel r :
  value_start (skip_ws r) = true →
  parse_value (S fuel) (String "[" r)
  = parse_elements (parse_value fuel) fuel [] r.
Proof.
  intros Hr. cbn [parse_value skip_ws is_ws].
  destruct (skip_ws r) as [|c r']; [done|].
  destruct c as [[] [] [] [] [] [] [] []]; done.
Qed.

Lemma parse_value_object_ws fuel r :
  value_start (skip_ws r) = true →
  parse_value (S fuel) (String "{" r)
  = parse_members (parse_value fuel) fuel [] r.
Proof.
  intros Hr. cbn [parse_value skip_ws is_ws].
  destruct (skip_ws r) as [|c r']; [done|].
  destruct c as [[] [] [] [] [] [] [] []]; done.
Qed.

Lemma member_value_keys_NoDup (fs : fields) :
  NoDup fs.*1 → NoDup (omap member_value fs).*1.
Proof.
  induction fs as [|[k v] fs IH]; [done|].
  rewrite fmap_cons. intros [Hk Hnd]%NoDup_cons. cbn [fst] in Hk.
  cbn [omap list_omap].
  destruct (member_value (k, v)) as [[k' v']|] eqn:Hkv; [|auto].
  assert (k' = k) as ->.
  { unfold member_value in Hkv. simpl in Hkv. destruct v; by simplify_eq. }
  rewrite fmap_cons. apply NoDup_cons. split; [|auto].
  intros ([k1 v1] & Heq & Hin)%list_elem_of_fmap. simpl in Heq. subst k1.
  apply list_elem_of_omap in Hin as ([k2 v2] & Hin & Hm).
  apply Hk.
  assert (k2 = k) as ->.
  { unfold member_value in Hm. simpl in Hm. destruct v2; by simplify_eq. }
  by apply (list_elem_of_fmap_2 fst _ (k, v2)).
Qed.

Lemma members_Forall2 (R : string → string * json → Prop) inner fs :
  Forall (λ kv, ∀ t, JSON_stringify_indent inner kv.2 = Some t →
                     R (quote kv.1 +:+ ": " +:+ t) (kv.1, prune kv.2)) fs →
  Forall2 R (omap (indent_member inner) fs) (omap member_value fs).
Proof.
  induction 1 as [|[k v] fs Hkv Hall IH]; [constructor|].
  cbn [omap list_omap]. unfold indent_member at 1, member_value at 1.
  simpl in *.
  destruct (JSON_stringify_indent inner v) as [t|] eqn:Ht.
  - assert (v ≠ JUndefined) as Hv by (by intros ->).
    simpl. destruct v; try done; constructor; auto.
  - apply JSON_stringify_indent_None in Ht as ->. simpl. exact IH.
Qed.

Lemma blank_inner indent :
  blank indent = true →
  blank (indent +:+ gap) = true ∧ blank (newline +:+ indent +:+ gap) = true
  ∧ blank (newline +:+ indent) = true.
Proof.
  intros Hb.
  assert (blank (indent +:+ gap) = true) as H by by apply blank_append.
  split_and!; [done| |]; by apply (blank_append newline).
Qed.

Lemma concat_value_start_sep sep (ts : list string) X :
  ts ≠ [] → Forall (λ t, ∀ r, value_start (t +:+ r) = true) ts →
  value_start (String.concat sep ts +:+ X) = true.
Proof.
  destruct ts as [|t ts]; [done|]. intros _ Hall.
  apply Forall_cons in Hall as [Ht _].
  destruct ts as [|t' ts]; [apply Ht|].
  rewrite concat_cons by done. rewrite append_assoc. apply Ht.
Qed.

(** The reader gives back the value that indented text carries. *)
Lemma parse_value_indent v :
  unique_keys v = true → ∀ indent text,
  blank indent = true → JSON_stringify_indent indent v = Some text →
  ∀ fuel rest, (String.length text ≤ fuel)%nat → closes_value rest →
  parse_value fuel (text +:+ rest) = Some (prune v, rest).
Proof.
  induction v as [| |b|n|s|xs IH|fs IH] using json_ind_deep;
    intros Huniq indent text Hblank Htext fuel rest Hfuel Hrest;
    [ simpl in Htext .. | rewrite JSON_stringify_indent_arr in Htext
    | rewrite JSON_stringify_indent_obj in Htext ]; simplify_eq.
  - destruct fuel; [simpl in Hfuel; lia|done].
  - destruct b, fuel; simpl in Hfuel; try lia; done.
  - destruct fuel as [|fuel].
    { destruct (string_of_Z_start n) as (c & t & Hc).
      rewrite Hc in Hfuel. simpl in Hfuel. lia. }
    rewrite parse_value_number. by apply parse_number_closed.
  - destruct fuel as [|fuel]; [simpl in Hfuel; lia|].
    unfold quote. simpl. rewrite append_assoc. simpl.
    by rewrite parse_string_body_escape.
  - destruct (blank_inner indent Hblank) as (Hinner & Hlead & Htrail).
    destruct (decide (xs = [])) as [->|Hne].
    { simpl in Htext. simplify_eq.
      destruct fuel; [simpl in Hfuel; lia|done]. }
    set (inner := indent +:+ gap) in *.
    set (lead := newline +:+ indent +:+ gap) in *.
    set (trail := newline +:+ indent) in *.
    set (ts := map (indent_elem inner) xs) in *.
    assert (ts ≠ []) as Hts by (subst ts; by destruct xs).
    assert (text = "[" +:+ lead +:+ String.concat ("," +:+ lead) ts
                   +:+ trail +:+ "]") as ->.
    { destruct ts; [done|]. by simplify_eq. }
    clear Htext.
    set (C := String.concat ("," +:+ lead) ts) in *.
    destruct fuel as [|fuel]; [simpl in Hfuel; lia|].
    assert (String.length C ≤ fuel)%nat as HC.
    { change ("[" +:+ lead +:+ C +:+ trail +:+ "]")
        with (String "[" (lead +:+ C +:+ trail +:+ "]")) in Hfuel.
      simpl in Hfuel. rewrite !length_append in Hfuel. lia. }
    change (("[" +:+ lead +:+ C +:+ trail +:+ "]") +:+ rest)
      with (String "[" ((lead +:+ C +:+ trail +:+ "]") +:+ rest)).
    rewrite !append_assoc. change ("]" +:+ rest) with (String "]" rest).
    rewrite parse_value_array_ws.
    2:{ rewrite skip_ws_blank by done.
        assert (value_start (C +:+ trail +:+ String "]" rest) = true) as Hs.
        { apply concat_value_start_sep; [done|].
          apply Forall_forall. intros t [x [-> _]]%list_elem_of_fmap r.
          apply indent_elem_value_start. }
        by rewrite (skip_ws_value_start _ Hs). }
    change (prune (JArr xs)) with (JArr ([] ++ map elem_value xs)).
    apply parse_elements_indent; [|done| |done|].
    + subst ts. apply Forall2_fmap, Forall_Forall2_diag, Forall_forall.
      intros x Hx rest' Hd. rewrite parse_value_blank by done.
      assert (String.length (indent_elem inner x) ≤ fuel)%nat as Hlen.
      { pose proof (length_concat_elem ("," +:+ lead) (indent_elem inner x)
                      (map (indent_elem inner) xs)
                      (list_elem_of_fmap_2 _ _ _ Hx)). fold C in H. lia. }
      unfold indent_elem, elem_value in *.
      destruct (JSON_stringify_indent inner x) as [t|] eqn:Ht.
      * rewrite Forall_forall in IH. simpl in Huniq. simpl default.
        rewrite (IH x Hx (forallb_elem _ _ _ Huniq Hx) inner t Hinner Ht
                   fuel rest' Hlen Hd).
        by destruct x.
      * apply JSON_stringify_indent_None in Ht as ->. simpl in *.
        destruct fuel; [lia|done].
    + pose proof (length_concat_count ("," +:+ lead) ts) as Hc.
      fold C in Hc.
      assert (length ts ≤ String.length C)%nat; [|lia].
      apply Hc, Forall_forall. subst ts.
      intros t [x [-> _]]%list_elem_of_fmap.
      apply value_start_nonempty, indent_elem_value_start.
    + intros X. subst trail. simpl. auto.
  - destruct (blank_inner indent Hblank) as (Hinner & Hlead & Htrail).
    simpl in Huniq. apply andb_true_iff in Huniq as [Hnd Huniq].
    apply bool_decide_eq_true in Hnd.
    set (inner := indent +:+ gap) in *.
    set (lead := newline +:+ indent +:+ gap) in *.
    set (trail := newline +:+ indent) in *.
    set (ms := omap (indent_member inner) fs) in *.
    assert (text = match ms with
                   | [] => "{}"
                   | _ => "{" +:+ lead +:+ String.concat ("," +:+ lead) ms
                          +:+ trail +:+ "}"
                   end) as ->.
    { destruct ms; by simplify_eq. }
    clear Htext.
    change (prune (JObj fs)) with (JObj ([] ++ omap member_value fs)).
    destruct fuel as [|fuel]; [destruct ms; simpl in Hfuel; lia|].
    destruct (decide (ms = [])) as [Hnil|Hne].
    { assert (omap member_value fs = []) as ->; [|by rewrite Hnil].
      assert (Forall2 (λ _ _, True) ms (omap member_value fs)) as H
        by (apply members_Forall2, Forall_forall; done).
      rewrite Hnil in H. by apply Forall2_nil_inv_l in H. }
    assert (match ms with
            | [] => "{}"
            | _ => "{" +:+ lead +:+ String.concat ("," +:+ lead) ms
                   +:+ trail +:+ "}"
            end = "{" +:+ lead +:+ String.concat ("," +:+ lead) ms
                  +:+ trail +:+ "}") as Hshape by by destruct ms.
    rewrite Hshape in *. clear Hshape.
    set (C := String.concat ("," +:+ lead) ms) in *.
    assert (String.length C ≤ fuel)%nat as HC.
    { change ("{" +:+ lead +:+ C +:+ trail +:+ "}")
        with (String "{" (lead +:+ C +:+ trail +:+ "}")) in Hfuel.
      simpl in Hfuel. rewrite !length_append in Hfuel. lia. }
    change (("{" +:+ lead +:+ C +:+ trail +:+ "}") +:+ rest)
      with (String "{" ((lead +:+ C +:+ trail +:+ "}") +:+ rest)).
    rewrite !append_assoc. change ("}" +:+ rest) with (String "}" rest).
    rewrite parse_value_object_ws.
    2:{ rewrite skip_ws_blank by done.
        assert (value_start (C +:+ trail +:+ String "}" rest) = true) as Hs.
        { apply concat_value_start_sep; [done|].
          apply Forall_forall. intros m Hm r.
          apply list_elem_of_omap in Hm as (kv & _ & Hm).
          unfold indent_member in Hm.
          destruct (JSON_stringify_indent inner kv.2); simpl in Hm;
            by simplify_eq. }
        by rewrite (skip_ws_value_start _ Hs). }
    apply parse_members_indent; [|done| |done|done| |].
    + apply members_Forall2, Forall_forall. intros kv Hkv t Ht.
      exists t. split; [done|]. intros rest' Hd. cbn [snd].
      rewrite (parse_value_blank _ " ") by done.
      rewrite Forall_forall in IH.
      apply (IH kv Hkv (forallb_elem _ _ _ Huniq Hkv) inner t Hinner Ht);
        [|done].
      assert (quote kv.1 +:+ ": " +:+ t ∈ ms) as Hin.
      { apply list_elem_of_omap. exists kv. split; [done|].
        unfold indent_member. by rewrite Ht. }
      pose proof (length_concat_elem ("," +:+ lead) _ _ Hin) as Hl.
      fold C in Hl. rewrite !length_append in Hl. lia.
    + pose proof (length_concat_count ("," +:+ lead) ms) as Hc.
      fold C in Hc.
      assert (length ms ≤ String.length C)%nat; [|lia].
      apply Hc, Forall_forall.
      intros m (kv & _ & Hm)%list_elem_of_omap.
      unfold indent_member in Hm.
      destruct (JSON_stringify_indent inner kv.2); simpl in Hm; simplify_eq.
      unfold quote. simpl. lia.
    + intros X. subst trail. simpl. auto.
    + simpl. by apply member_value_keys_NoDup.
Qed.

Lemma JSON_stringify_indent_is_Some indent v :
  v ≠ JUndefined → is_Some (JSON_stringify_indent indent v).
Proof.
  intros Hv. destruct (JSON_stringify_indent indent v) eqn:H; [done|].
  by apply JSON_stringify_indent_None in H.
Qed.

(** [JSON.parse] inverts the indented [JSON.stringify] as it inverts the
    plain one. *)
Theorem JSON_parse_indent v text :
  unique_keys v = true → JSON_stringify_indent "" v = Some text →
  JSON_parse text = Some (prune v).
Proof.
  intros Huniq Htext. unfold JSON_parse.
  pose proof (parse_value_indent v Huniq "" text eq_refl Htext
                (String.length text) "" (le_n _) I) as H.
  rewrite append_nil_r in H. by rewrite H.
Qed.

Lemma prettyJSONString_parsed inputString v :
  JSON_parse inputString = Some v →
  ∃ out, prettyJSONString inputString = Return (Some out)
         ∧ JSON_parse out = Some v.
Proof.
  intros Hparse.
  pose proof (JSON_parse_is_data _ _ Hparse) as [Hu Hd]%andb_true_iff.
  destruct (JSON_stringify_indent_is_Some "" v) as [out Hout].
  { intros ->. done. }
  exists out. unfold prettyJSONString. rewrite Hparse, Hout.
  split; [done|].
  rewrite (JSON_parse_indent v out Hu Hout). by rewrite prune_defined.
Qed.


(** X13. What the client prints.  The text [GetAllAssets] returns, the text
    a successful [CreateAsset] returns and, on a ledger the contract
    built, the text [ReadAsset] returns are JSON text: [prettyJSONString]
    does not throw on them and its output denotes the value the text
    denotes.  On a world state the contract did not build, [ReadAsset] can
    return text on which [prettyJSONString] throws. *)
Theorem contract_results_pretty_print :
  (∀ st, ∃ text out v,
     GetAllAssets st = (Return (Some text), st)
     ∧ JSON_parse text = Some v
     ∧ prettyJSONString text = Return (Some out)
     ∧ JSON_parse out = Some v)
  ∧ (∀ st id flavor size client cone value ret st',
       CreateAsset id flavor size client cone value st = (Return ret, st') →
       ∃ text out,
         ret = Some text
         ∧ prettyJSONString text = Return (Some out)
         ∧ JSON_parse out
           = Some (created_asset id flavor size client cone value))
  ∧ (∀ history id text,
       let st := ledger_after history ∅ in
       ReadAsset id st = (Return text, st) →
       ∃ out fs,
         prettyJSONString text = Return (Some out)
         ∧ JSON_parse out = Some (JObj fs)
         ∧ obj_get "ID" fs = JStr id)
  ∧ (let st : world := {["k" := "not JSON"]} in
     ReadAsset "k" st = (Return "not JSON", st)
     ∧ prettyJSONString "not JSON" = Throw SyntaxError).
Proof.
  split_and!.
  - intros st. destruct (GetAllAssets_parse st) as (text & Hrun & Hparse).
    destruct (prettyJSONString_parsed text _ Hparse) as (out & Hout & Hp).
    by exists text, out, (JArr (map (λ result, record_of result.2) (scan st))).
  - intros st id flavor size client cone value ret st'.
    destruct (CreateAsset_run id flavor size client cone value st)
      as (text & stored_text & Htext & _ & ->).
    destruct (0 <? String.length (stored st id))%nat; [done|].
    intros [= <- <-].
    assert (JSON_parse text
            = Some (created_asset id flavor size client cone value))
      as Hparse.
    { exact (JSON_parse_stringify
               (created_asset id flavor size client cone value) text
               eq_refl Htext). }
    destruct (prettyJSONString_parsed text _ Hparse) as (out & Hout & Hp).
    by exists text, out.
  - intros history id text st. rewrite ReadAsset_run.
    destruct (String.length (stored st id) =? 0)%nat eqn:Hlen; [done|].
    intros [= <-].
    destruct (st !! id) as [text|] eqn:Hst.
    + rewrite (stored_lookup _ _ _ Hst).
      destruct (ledger_schema_reachable history id text Hst)
        as (fs & Hparse & _ & Hrec).
      destruct (prettyJSONString_parsed text _ Hparse) as (out & Hout & Hp).
      exists out, fs. split_and!; [done..|].
      assert (asset_member id ("ID", obj_get "ID" fs) = true) as H.
      { apply asset_record_field; [done|by left]. }
      unfold asset_member in H. simpl in H.
      destruct (obj_get "ID" fs); try done.
      f_equal. by apply bool_decide_eq_true_1 in H.
    + unfold stored in Hlen. by rewrite Hst in Hlen.
  - split; vm_compute; reflexivity.
Qed.
